(** * Convolutional FEC codec of liquid-dsp (src/fec/src/fec_conv.c)

    A shallow embedding of [fec_conv_create], [fec_conv_encode],
    [fec_conv_decode] and [fec_conv_setlength], followed by the properties
    of the codec.  C integers are modelled as [Z] with the wrap-around of
    their type written out; byte buffers are [list Z]; a pointer that may
    be NULL is an [option]. *)

From Stdlib Require Import ZArith Lia List Bool.
From stdpp Require Import base list.

Local Open Scope Z_scope.

(** ** Machine arithmetic *)

(** [unsigned int] is 32 bits wide, [unsigned char] 8 bits. *)
Definition wrap32 (x : Z) : Z := x mod 2 ^ 32.
Definition wrap8 (x : Z) : Z := x mod 2 ^ 8.

(** The values an [unsigned char] holds. *)
Definition is_byte (b : Z) : Prop := 0 <= b < 256.

(** ** Outcomes of a call *)

Inductive fault : Type :=
  | NullDereference                (* access through a NULL pointer *)
  | OutOfBounds                    (* access outside a buffer *)
  | AssertionFailure               (* a failed [assert] *)
  | ProcessExit (status : Z)       (* [exit(status)] *)
  | PreconditionViolation          (* a library call rejected its arguments *)
  | OutOfFuel.                     (* a [while] loop that did not stop *)

Inductive result (A : Type) : Type :=
  | Ok (a : A)
  | Fault (f : fault).
Arguments Ok {A} a.
Arguments Fault {A} f.

Global Instance result_bind : MBind result := fun A B k r =>
  match r with
  | Ok a => k a
  | Fault f => Fault f
  end.

(** Reading [buf[i]] and writing [buf[i] = v] in a buffer of known extent. *)
Definition load (buf : list Z) (i : Z) : result Z :=
  if decide (0 <= i) then
    match buf !! Z.to_nat i with
    | Some v => Ok v
    | None => Fault OutOfBounds
    end
  else Fault OutOfBounds.

Definition store (buf : list Z) (i : Z) (v : Z) : result (list Z) :=
  if decide (0 <= i < Z.of_nat (length buf)) then Ok (<[Z.to_nat i := v]> buf)
  else Fault OutOfBounds.

(** [for (i = start; ...; i++) body], run [count] times. *)
Fixpoint for_loop {S : Type} (count : nat) (i : Z)
    (body : Z -> S -> result S) (s : S) : result S :=
  match count with
  | O => Ok s
  | Datatypes.S c => s' ← body i s; for_loop c (i + 1) body s'
  end.

(** ** Parity *)

(** Modelled from the spec: the helper [parity] is declared outside
    fec_conv.c.  Section 4.1 describes it as the XOR-reduction (even-or-odd
    popcount) of its argument; the argument is a 32-bit word. *)
Definition parity (x : Z) : Z :=
  Z.b2z (fold_right xorb false (map (fun i => Z.testbit x (Z.of_nat i)) (seq 0 32))).

(** ** The encoder, fec_conv_encode *)

(** The locals [sr], [n], [byte_out] and the output buffer [_msg_enc]. *)
Record enc_state : Type := mk_enc_state {
  sr : Z;
  n : Z;
  byte_out : Z;
  msg_enc : list Z
}.

(** The body shared by the two parity loops:
<<
    byte_out = (byte_out<<1) | parity(sr & _q->poly[r]);
    _msg_enc[n/8] = byte_out;
    n++;
>> *)
Definition emit_parity (poly : list Z) (r : Z) (st : enc_state) : result enc_state :=
  p ← load poly r;
  let bo := wrap8 (Z.lor (Z.shiftl (byte_out st) 1) (parity (Z.land (sr st) (wrap32 p)))) in
  buf ← store (msg_enc st) (n st / 8) bo;
  Ok {| sr := sr st; n := wrap32 (n st + 1); byte_out := bo; msg_enc := buf |}.

(** [for (r=0; r<_q->R; r++) ...] *)
Definition parity_loop (R : Z) (poly : list Z) (st : enc_state) : result enc_state :=
  for_loop (Z.to_nat R) 0 (emit_parity poly) st.

(** The body of the loop over [j]: one input bit, most significant first. *)
Definition encode_bit (R : Z) (poly : list Z) (byte_in : Z) (j : Z)
    (st : enc_state) : result enc_state :=
  let bit := Z.land (Z.shiftr byte_in (7 - j)) 1 in
  parity_loop R poly
    {| sr := wrap32 (Z.lor (Z.shiftl (sr st) 1) bit);
       n := n st; byte_out := byte_out st; msg_enc := msg_enc st |}.

(** The body of the loop over [i]: one input byte. *)
Definition encode_byte (R : Z) (poly : list Z) (msg_dec : list Z) (i : Z)
    (st : enc_state) : result enc_state :=
  byte_in ← load msg_dec i;
  for_loop 8 0 (encode_bit R poly byte_in) st.

(** The body of the tail loop: push a zero. *)
Definition encode_tail_bit (R : Z) (poly : list Z) (i : Z)
    (st : enc_state) : result enc_state :=
  parity_loop R poly
    {| sr := wrap32 (Z.shiftl (sr st) 1);
       n := n st; byte_out := byte_out st; msg_enc := msg_enc st |}.

(** [while (n%8) { byte_out <<= 1; _msg_enc[n/8] = byte_out; n++; }] *)
Fixpoint pad_loop (fuel : nat) (st : enc_state) : result enc_state :=
  if decide (n st mod 8 = 0) then Ok st
  else
    match fuel with
    | O => Fault OutOfFuel
    | Datatypes.S f =>
        let bo := wrap8 (Z.shiftl (byte_out st) 1) in
        buf ← store (msg_enc st) (n st / 8) bo;
        pad_loop f {| sr := sr st; n := wrap32 (n st + 1); byte_out := bo; msg_enc := buf |}
    end.

(** The three phases of the encoder on its locals. *)
Definition encode_data (R : Z) (poly : list Z) (dec_msg_len : Z) (msg_dec : list Z)
    (st : enc_state) : result enc_state :=
  for_loop (Z.to_nat dec_msg_len) 0 (encode_byte R poly msg_dec) st.

Definition encode_tail (R K : Z) (poly : list Z) (st : enc_state) : result enc_state :=
  for_loop (Z.to_nat (wrap32 (K - 1))) 0 (encode_tail_bit R poly) st.

Definition encode_pad (st : enc_state) : result enc_state := pad_loop 8 st.

Definition encode_init (buf : list Z) : enc_state :=
  {| sr := 0; n := 0; byte_out := 0; msg_enc := buf |}.

(** ** Bit packing helpers of the decoder side *)

(** Modelled from the spec: packing most-significant-bit-first, section
    4.3: the value of a bit string read most significant bit first. *)
Definition bits_value (bits : list Z) : Z :=
  fold_left (fun acc b => 2 * acc + b) bits 0.

(** The eight bits of a byte, most significant first. *)
Definition byte_bits (byte : Z) : list Z :=
  map (fun j => Z.land (Z.shiftr byte (7 - Z.of_nat j)) 1) (seq 0 8).

(** Modelled from the spec: [nbytes] bytes filled
    most-significant-bit-first from a bit string, section 4.3; a last
    partial byte is completed with zero bits. *)
Fixpoint pack_msb (nbytes : nat) (bits : list Z) : list Z :=
  match nbytes with
  | O => []
  | Datatypes.S k => bits_value (resize 8 0 bits) :: pack_msb k (drop 8 bits)
  end.

(** Modelled from the spec: [liquid_unpack_bytes] lives in the utility
    module, outside fec_conv.c.  Section 4.4: unpack the encoded bytes into
    one symbol per bit; the bits of a byte are taken most significant
    first, the order in which the encoder packed them.  It reads
    [_sym_in_len] bytes, writes eight symbols per byte into [_sym_out] and
    reports the number of symbols written. *)
Definition unpack_byte (sym_in : list Z) (i : Z) (out : option (list Z))
    : result (option (list Z)) :=
  byte ← load sym_in i;
  match out with
  | None => Fault NullDereference
  | Some buf =>
      buf' ← for_loop 8 0 (fun j b =>
                store b (8 * i + j) (Z.land (Z.shiftr byte (7 - j)) 1)) buf;
      Ok (Some buf')
  end.

(** Modelled from the spec: [liquid_unpack_bytes] unpacks [_sym_in_len]
    bytes, one after the other. *)
Definition liquid_unpack_bytes (sym_in : list Z) (sym_in_len : Z)
    (sym_out : option (list Z)) (sym_out_len : Z) : result (option (list Z) * Z) :=
  out ← for_loop (Z.to_nat sym_in_len) 0 (unpack_byte sym_in) sym_out;
  Ok (out, wrap32 (8 * sym_in_len)).

(** ** The Viterbi decoder *)

(** The source reaches the decoder only through the function pointers
    [create_viterbi], [init_viterbi], [update_viterbi_blk],
    [chainback_viterbi] and [delete_viterbi], which point into a library
    outside fec_conv.c.  The definitions of this section stand for that
    library. *)

(** Modelled from the spec: the states of the decoder, section 4.3; a
    decoder not yet allocated is a NULL [vp]. *)
Inductive phase : Type := Ready | Decoding | Terminated.

(** Modelled from the spec: the decoder object behind the [vp] pointer,
    with the Path Metric Table and the Survivor Memory of section 3. *)
Record viterbi : Type := mk_viterbi {
  v_len : Z;                       (* frame length in bits *)
  v_phase : phase;
  metrics : list (option Z);       (* Path Metric Table; [None] is the sentinel *)
  survivors : list (list Z)        (* Survivor Memory: one row per time step *)
}.

Section Trellis.
(** Constraint length, generator polynomials and the two symbol values of
    a hard decision. *)
Variables (K : Z) (poly : list Z) (softbit0 softbit1 : Z).

(** Modelled from the spec: section 4.2, the trellis of a scheme.  A state
    is the register content, an index below [2^(K-1)]; a transition
    simulates the encoder's push-and-parity step on a register preloaded
    with the state. *)
Definition num_states : Z := 2 ^ (K - 1).

(** Modelled from the spec: the trellis state indices, 0 to [2^(K-1) - 1]. *)
Definition states : list Z := map Z.of_nat (seq 0 (Z.to_nat num_states)).

(** The register push of the encoder, as [fec_conv_encode] writes it:
    [sr = (sr << 1) | bit] on an [unsigned int]. *)
Definition pushed (s bit : Z) : Z := wrap32 (Z.lor (Z.shiftl s 1) bit).

(** Modelled from the spec: the next state of a transition, section 4.2:
    the register content after the push, kept to [K - 1] bits. *)
Definition next_state (s bit : Z) : Z := pushed s bit mod num_states.

(** Modelled from the spec: the R output symbols of a transition, section
    4.2: the parities the encoder computes after the push. *)
Definition branch_output (s bit : Z) : list Z :=
  map (fun p => parity (Z.land (pushed s bit) (wrap32 p))) poly.

(** Modelled from the spec: the incoming transitions of a state, section
    4.3.  The two transitions into [s] come from the states that differ in
    the oldest register bit; both carry the input bit [s land 1]. *)
Definition pred0 (s : Z) : Z := Z.shiftr s 1.

(** Modelled from the spec: the second incoming transition, from the
    state whose oldest register bit is 1. *)
Definition pred1 (s : Z) : Z := Z.lor (Z.shiftr s 1) (2 ^ (K - 2)).

(** Modelled from the spec: section 4.2, the branch metric: per stream 0
    when the expected bit matches the observed hard decision and a fixed
    positive penalty (1, a Hamming distance) otherwise. *)
Definition softbit (bit : Z) : Z :=
  if decide (bit = 0) then wrap8 softbit0 else wrap8 softbit1.

(** Modelled from the spec: the per-symbol distance of section 4.2. *)
Definition symbol_distance (expected sym : Z) : Z :=
  if decide (sym = softbit expected) then 0 else 1.

(** Modelled from the spec: the branch metric of section 4.2, the sum of
    the per-symbol distances over the R streams. *)
Fixpoint branch_metric (expected syms : list Z) : Z :=
  match expected, syms with
  | e :: es, y :: ys => symbol_distance e y + branch_metric es ys
  | _, _ => 0
  end.

(** Modelled from the spec: section 4.3, [reset]: every path metric is the
    sentinel except that of the start state, which is 0. *)
Definition reset_metrics (start : Z) : list (option Z) :=
  map (fun s => if decide (s = start) then Some 0 else None) states.

(** Modelled from the spec: section 4.3, [update] for one time step:
    candidate = predecessor metric + branch metric, the minimum wins, and
    on a tie the predecessor whose distinguishing bit is 0. *)
Definition candidate (ms : list (option Z)) (syms : list Z) (p s : Z) : option Z :=
  match ms !! Z.to_nat p with
  | Some (Some m) => Some (m + branch_metric (branch_output p (Z.land s 1)) syms)
  | _ => None
  end.

(** Modelled from the spec: the minimum of the two candidates and the
    winning predecessor, section 4.3; a sentinel never wins against a
    metric. *)
Definition select (c0 c1 : option Z) (p0 p1 : Z) : option Z * Z :=
  match c0, c1 with
  | Some a, Some b => if b <? a then (Some b, p1) else (Some a, p0)
  | Some a, None => (Some a, p0)
  | None, Some b => (Some b, p1)
  | None, None => (None, p0)
  end.

(** Modelled from the spec: the new path metric and the recorded
    predecessor of one state, section 4.3. *)
Definition update_state (ms : list (option Z)) (syms : list Z) (s : Z) : option Z * Z :=
  select (candidate ms syms (pred0 s) s) (candidate ms syms (pred1 s) s)
         (pred0 s) (pred1 s).

(** Modelled from the spec: one time step over all states, section 4.3:
    the next Path Metric Table and the row of Survivor Memory. *)
Definition update_step (ms : list (option Z)) (syms : list Z)
    : list (option Z) * list Z :=
  let rows := map (update_state ms syms) states in
  (map fst rows, map snd rows).

(** Modelled from the spec: the [t]-th group of R symbols read from the
    symbol buffer, section 4.3. *)
Definition symbol_group (syms : list Z) (t : Z) : result (list Z) :=
  let R := Z.of_nat (length poly) in
  for_loop (length poly) 0
    (fun r acc => y ← load syms (R * t + r); Ok (acc ++ [y])) [].

(** Modelled from the spec: [create] sizes the working memory for [len]
    decoded bits and leaves the decoder ready. *)
Definition viterbi_create (len : Z) : option viterbi :=
  Some {| v_len := len; v_phase := Ready;
          metrics := reset_metrics 0; survivors := [] |}.

(** Modelled from the spec: [init_viterbi] is the [reset] of section 4.3,
    required before each frame; on a decoder that was never allocated it
    fails fast. *)
Definition viterbi_init (vp : option viterbi) (starting_state : Z)
    : result (option viterbi) :=
  match vp with
  | None => Fault PreconditionViolation
  | Some v =>
      Ok (Some {| v_len := v_len v; v_phase := Ready;
                  metrics := reset_metrics starting_state; survivors := [] |})
  end.

(** Modelled from the spec: [update] of section 4.3 for the symbol group
    of time step [t], recording the row of winning predecessors. *)
Definition viterbi_update_body (syms : option (list Z)) (t : Z) (w : viterbi)
    : result viterbi :=
  buf ← match syms with
        | Some buf => Ok buf
        | None => Fault NullDereference
        end;
  group ← symbol_group buf t;
  let '(ms, row) := update_step (metrics w) group in
  Ok {| v_len := v_len w; v_phase := Decoding;
        metrics := ms; survivors := survivors w ++ [row] |}.

(** Modelled from the spec: [update_viterbi_blk] applies [update] to
    [nbits] symbol groups taken in order from [syms]; it needs a decoder
    that was reset and has room for the new time steps, and fails fast
    otherwise. *)
Definition viterbi_update_blk (vp : option viterbi) (syms : option (list Z))
    (nbits : Z) : result (option viterbi) :=
  match vp with
  | None => Fault PreconditionViolation
  | Some v =>
      match v_phase v with
      | Terminated => Fault PreconditionViolation
      | _ =>
          if decide (Z.of_nat (length (survivors v)) + nbits <= v_len v + K - 1) then
            v' ← for_loop (Z.to_nat nbits) 0 (viterbi_update_body syms) v;
            Ok (Some v')
          else Fault PreconditionViolation
      end
  end.

(** Modelled from the spec: the backward walk of [chainback], section
    4.3: from a state through the recorded predecessors, newest row first,
    emitting per step the input bit of the transition into the state. *)
Fixpoint walk_back (rows_rev : list (list Z)) (s : Z) : list Z :=
  match rows_rev with
  | [] => []
  | row :: rest => Z.land s 1 :: walk_back rest (default 0 (row !! Z.to_nat s))
  end.

(** Modelled from the spec: the emitted sequence reversed into forward
    (encode) order, section 4.3. *)
Definition traced_bits (v : viterbi) (endstate : Z) : list Z :=
  rev (walk_back (rev (survivors v)) endstate).

(** Modelled from the spec: [chainback_viterbi], section 4.3: the walk
    back from [endstate] at the final time step; the first [nbits] bits of
    the forward sequence (the flush bits come after them) are packed
    most-significant-bit-first at the start of [data].  It needs a decoder
    that has been updated, and fails fast otherwise. *)
Definition viterbi_chainback (vp : option viterbi) (data : list Z)
    (nbits endstate : Z) : result (option viterbi * list Z) :=
  match vp with
  | None => Fault PreconditionViolation
  | Some v =>
      match v_phase v with
      | Decoding =>
          if decide (0 <= nbits <= Z.of_nat (length (survivors v))) then
            let bytes := pack_msb (Z.to_nat ((nbits + 7) / 8))
                                  (take (Z.to_nat nbits) (traced_bits v endstate)) in
            if decide (length bytes <= length data)%nat then
              Ok (Some {| v_len := v_len v; v_phase := Terminated;
                          metrics := metrics v; survivors := survivors v |},
                  bytes ++ drop (length bytes) data)
            else Fault OutOfBounds
          else Fault PreconditionViolation
      | _ => Fault PreconditionViolation
      end
  end.

(** Modelled from the spec: [delete_viterbi] releases the decoder object
    (section 6, [destroy]); there must be one. *)
Definition viterbi_delete (vp : option viterbi) : result unit :=
  match vp with
  | None => Fault PreconditionViolation
  | Some _ => Ok tt
  end.
End Trellis.

(** ** The codec object *)

(** Modelled from the spec: the enumeration [fec_scheme] is declared in the
    library header.  Section 6 lists the four convolutional schemes; every
    other scheme id is [FEC_OTHER]. *)
Inductive fec_scheme : Type :=
  | FEC_CONV_V27
  | FEC_CONV_V29
  | FEC_CONV_V39
  | FEC_CONV_V615
  | FEC_OTHER (id : Z).

(** The calls that leave fec_conv.c, in the order they are made. *)
Inductive event : Type :=
  | EvDeleteViterbi
  | EvCreateViterbi (len : Z)
  | EvRealloc (size : Z)
  | EvUnpackBytes (sym_in_len sym_out_len : Z)
  | EvInitViterbi (starting_state : Z)
  | EvUpdateViterbiBlk (syms : option (list Z)) (nbits : Z)
  | EvChainbackViterbi (nbits endstate : Z).

(** [struct fec_s], the fields fec_conv.c uses.  ([rate] is a float that no
    function of this file reads; [encode_func] and [decode_func] point to
    [fec_conv_encode] and [fec_conv_decode] themselves.) *)
Record fec : Type := mk_fec {
  scheme : fec_scheme;
  R : Z;
  K : Z;
  poly : list Z;
  num_dec_bytes : Z;
  num_enc_bytes : Z;
  enc_bits : option (list Z);
  vp : option viterbi;
  create_viterbi : Z -> option viterbi;
  init_viterbi : option viterbi -> Z -> result (option viterbi);
  update_viterbi_blk : option viterbi -> option (list Z) -> Z -> result (option viterbi);
  chainback_viterbi : option viterbi -> list Z -> Z -> Z -> result (option viterbi * list Z);
  delete_viterbi : option viterbi -> result unit
}.

Definition with_code (q : fec) (R' K' : Z) (poly' : list Z)
    (create' : Z -> option viterbi)
    (init' : option viterbi -> Z -> result (option viterbi))
    (update' : option viterbi -> option (list Z) -> Z -> result (option viterbi))
    (chainback' : option viterbi -> list Z -> Z -> Z -> result (option viterbi * list Z))
    (delete' : option viterbi -> result unit) : fec :=
  {| scheme := scheme q; R := R'; K := K'; poly := poly';
     num_dec_bytes := num_dec_bytes q; num_enc_bytes := num_enc_bytes q;
     enc_bits := enc_bits q; vp := vp q;
     create_viterbi := create'; init_viterbi := init';
     update_viterbi_blk := update'; chainback_viterbi := chainback';
     delete_viterbi := delete' |}.

Definition with_lengths (q : fec) (dec enc : Z) : fec :=
  {| scheme := scheme q; R := R q; K := K q; poly := poly q;
     num_dec_bytes := dec; num_enc_bytes := enc;
     enc_bits := enc_bits q; vp := vp q;
     create_viterbi := create_viterbi q; init_viterbi := init_viterbi q;
     update_viterbi_blk := update_viterbi_blk q;
     chainback_viterbi := chainback_viterbi q;
     delete_viterbi := delete_viterbi q |}.

Definition with_buffers (q : fec) (bits : option (list Z)) (v : option viterbi) : fec :=
  {| scheme := scheme q; R := R q; K := K q; poly := poly q;
     num_dec_bytes := num_dec_bytes q; num_enc_bytes := num_enc_bytes q;
     enc_bits := bits; vp := v;
     create_viterbi := create_viterbi q; init_viterbi := init_viterbi q;
     update_viterbi_blk := update_viterbi_blk q;
     chainback_viterbi := chainback_viterbi q;
     delete_viterbi := delete_viterbi q |}.

(** Modelled from the spec: the scheme table (section 6) used by
    [fec_get_enc_msg_length], which is defined outside fec_conv.c; the
    encoded length is [ceil (R * (8 * decoded_bytes + K - 1) / 8)].  Schemes
    of other families are not described; they get length 0 here. *)
Definition scheme_R (fs : fec_scheme) : Z :=
  match fs with
  | FEC_CONV_V27 => 2 | FEC_CONV_V29 => 2 | FEC_CONV_V39 => 3
  | FEC_CONV_V615 => 6 | FEC_OTHER _ => 0
  end.

(** Modelled from the spec: the constraint lengths of the scheme table,
    section 6. *)
Definition scheme_K (fs : fec_scheme) : Z :=
  match fs with
  | FEC_CONV_V27 => 7 | FEC_CONV_V29 => 9 | FEC_CONV_V39 => 9
  | FEC_CONV_V615 => 15 | FEC_OTHER _ => 1
  end.

(** Modelled from the spec: [encoded_bits = R * (8 * decoded_bytes + K - 1)],
    section 6. *)
Definition encoded_bits (fs : fec_scheme) (decoded_bytes : Z) : Z :=
  scheme_R fs * (8 * decoded_bytes + scheme_K fs - 1).

(** Modelled from the spec: [fec_get_enc_msg_length] is defined outside
    fec_conv.c; section 6: [encoded_bytes = ceil (encoded_bits / 8)], an
    [unsigned int]. *)
Definition fec_get_enc_msg_length (fs : fec_scheme) (msg_len : Z) : Z :=
  wrap32 ((encoded_bits fs msg_len + 7) / 8).

(** *** fec_conv_encode *)

Definition fec_conv_encode (_q : fec) (_dec_msg_len : Z) (_msg_dec _msg_enc : list Z)
    : result (list Z) :=
  st1 ← encode_data (R _q) (poly _q) _dec_msg_len _msg_dec (encode_init _msg_enc);
  st2 ← encode_tail (R _q) (K _q) (poly _q) st1;
  st3 ← encode_pad st2;
  if decide (n st3 = wrap32 (8 * fec_get_enc_msg_length (scheme _q) _dec_msg_len))
  then Ok (msg_enc st3)
  else Fault AssertionFailure.

(** *** fec_conv_destroy *)

Definition fec_conv_destroy (_q : fec) : result (list event) :=
  (* delete viterbi decoder *)
  match vp _q with
  | Some _ => _ ← delete_viterbi _q (vp _q); Ok [EvDeleteViterbi]
  | None => Ok []
  end.

Section Codec.
(** The generator polynomial tables [fec_conv27_poly], ... and the symbol
    values [FEC_SOFTBIT_0], [FEC_SOFTBIT_1] are defined outside
    fec_conv.c; [fresh_byte] is the content of memory that [realloc] hands
    out uninitialised. *)
Variables fec_conv27_poly fec_conv29_poly fec_conv39_poly fec_conv615_poly : list Z.
Variables FEC_SOFTBIT_0 FEC_SOFTBIT_1 : Z.
Variable fresh_byte : Z.

(** The decoder functions of the four schemes, reached through the function
    pointers; each is the decoder of section 4.3 on the trellis of its
    scheme. *)

(** Modelled from the spec: [create_viterbi27], allocation for conv-2-7. *)
Definition create_viterbi27 := viterbi_create 7.

(** Modelled from the spec: [init_viterbi27], the reset for conv-2-7. *)
Definition init_viterbi27 := viterbi_init 7.

(** Modelled from the spec: [update_viterbi27_blk], the update for conv-2-7
    on its polynomial table. *)
Definition update_viterbi27_blk :=
  viterbi_update_blk 7 fec_conv27_poly FEC_SOFTBIT_0 FEC_SOFTBIT_1.

(** Modelled from the spec: [chainback_viterbi27], the traceback for
    conv-2-7. *)
Definition chainback_viterbi27 := viterbi_chainback.

(** Modelled from the spec: [delete_viterbi27], the release for conv-2-7. *)
Definition delete_viterbi27 := viterbi_delete.

(** Modelled from the spec: [create_viterbi29], allocation for conv-2-9. *)
Definition create_viterbi29 := viterbi_create 9.

(** Modelled from the spec: [init_viterbi29], the reset for conv-2-9. *)
Definition init_viterbi29 := viterbi_init 9.

(** Modelled from the spec: [update_viterbi29_blk], the update for conv-2-9
    on its polynomial table. *)
Definition update_viterbi29_blk :=
  viterbi_update_blk 9 fec_conv29_poly FEC_SOFTBIT_0 FEC_SOFTBIT_1.

(** Modelled from the spec: [chainback_viterbi29], the traceback for
    conv-2-9. *)
Definition chainback_viterbi29 := viterbi_chainback.

(** Modelled from the spec: [delete_viterbi29], the release for conv-2-9. *)
Definition delete_viterbi29 := viterbi_delete.

(** Modelled from the spec: [create_viterbi39], allocation for conv-3-9. *)
Definition create_viterbi39 := viterbi_create 9.

(** Modelled from the spec: [init_viterbi39], the reset for conv-3-9. *)
Definition init_viterbi39 := viterbi_init 9.

(** Modelled from the spec: [update_viterbi39_blk], the update for conv-3-9
    on its polynomial table. *)
Definition update_viterbi39_blk :=
  viterbi_update_blk 9 fec_conv39_poly FEC_SOFTBIT_0 FEC_SOFTBIT_1.

(** Modelled from the spec: [chainback_viterbi39], the traceback for
    conv-3-9. *)
Definition chainback_viterbi39 := viterbi_chainback.

(** Modelled from the spec: [delete_viterbi39], the release for conv-3-9. *)
Definition delete_viterbi39 := viterbi_delete.

(** Modelled from the spec: [create_viterbi615], allocation for conv-6-15. *)
Definition create_viterbi615 := viterbi_create 15.

(** Modelled from the spec: [init_viterbi615], the reset for conv-6-15. *)
Definition init_viterbi615 := viterbi_init 15.

(** Modelled from the spec: [update_viterbi615_blk], the update for conv-6-15
    on its polynomial table. *)
Definition update_viterbi615_blk :=
  viterbi_update_blk 15 fec_conv615_poly FEC_SOFTBIT_0 FEC_SOFTBIT_1.

(** Modelled from the spec: [chainback_viterbi615], the traceback for
    conv-6-15. *)
Definition chainback_viterbi615 := viterbi_chainback.

(** Modelled from the spec: [delete_viterbi615], the release for conv-6-15. *)
Definition delete_viterbi615 := viterbi_delete.

(** *** fec_conv_init_v27, _v29, _v39, _v615 *)

Definition fec_conv_init_v27 (_q : fec) : fec :=
  with_code _q 2 7 fec_conv27_poly create_viterbi27 init_viterbi27
    update_viterbi27_blk chainback_viterbi27 delete_viterbi27.

Definition fec_conv_init_v29 (_q : fec) : fec :=
  with_code _q 2 9 fec_conv29_poly create_viterbi29 init_viterbi29
    update_viterbi29_blk chainback_viterbi29 delete_viterbi29.

Definition fec_conv_init_v39 (_q : fec) : fec :=
  with_code _q 3 9 fec_conv39_poly create_viterbi39 init_viterbi39
    update_viterbi39_blk chainback_viterbi39 delete_viterbi39.

Definition fec_conv_init_v615 (_q : fec) : fec :=
  with_code _q 6 15 fec_conv615_poly create_viterbi615 init_viterbi615
    update_viterbi615_blk chainback_viterbi615 delete_viterbi615.

(** *** fec_conv_create *)

(** The object [malloc] returns: nothing in it is initialised.  [junk]
    stands for the indeterminate content of its integer fields; the other
    fields are written by [fec_conv_create] before anything reads them. *)
Definition malloc_fec (junk : Z) : fec :=
  {| scheme := FEC_OTHER junk; R := junk; K := junk; poly := [];
     num_dec_bytes := junk; num_enc_bytes := junk;
     enc_bits := None; vp := None;
     create_viterbi := fun _ => None;
     init_viterbi := fun _ _ => Fault NullDereference;
     update_viterbi_blk := fun _ _ _ => Fault NullDereference;
     chainback_viterbi := fun _ _ _ _ => Fault NullDereference;
     delete_viterbi := fun _ => Fault NullDereference |}.

Definition with_scheme (q : fec) (fs : fec_scheme) : fec :=
  {| scheme := fs; R := R q; K := K q; poly := poly q;
     num_dec_bytes := num_dec_bytes q; num_enc_bytes := num_enc_bytes q;
     enc_bits := enc_bits q; vp := vp q;
     create_viterbi := create_viterbi q; init_viterbi := init_viterbi q;
     update_viterbi_blk := update_viterbi_blk q;
     chainback_viterbi := chainback_viterbi q;
     delete_viterbi := delete_viterbi q |}.

Definition with_num_dec_bytes (q : fec) (dec : Z) : fec :=
  with_lengths q dec (num_enc_bytes q).

Definition fec_conv_create (_fs : fec_scheme) (junk : Z) : result fec :=
  let q := with_scheme (malloc_fec junk) _fs in
  q ← match scheme q with
      | FEC_CONV_V27 => Ok (fec_conv_init_v27 q)
      | FEC_CONV_V29 => Ok (fec_conv_init_v29 q)
      | FEC_CONV_V39 => Ok (fec_conv_init_v39 q)
      | FEC_CONV_V615 => Ok (fec_conv_init_v615 q)
      | FEC_OTHER _ =>
          (* prints an error on stderr, then exit(1) *)
          Fault (ProcessExit 1)
      end;
  (* convolutional-specific decoding *)
  Ok (with_buffers (with_num_dec_bytes q 0) None None).

(** *** fec_conv_setlength *)

(** [realloc]: the old content is kept up to the new size, the rest is
    uninitialised. *)
Definition realloc (old : option (list Z)) (size : Z) : option (list Z) :=
  Some (resize (Z.to_nat size) fresh_byte (default [] old)).

Definition fec_conv_setlength (_q : fec) (_dec_msg_len : Z)
    : result (fec * list event) :=
  (* re-allocate resources as necessary *)
  let num_dec_bytes' := _dec_msg_len in
  (* return if length has not changed *)
  if decide (num_dec_bytes' = num_dec_bytes _q) then Ok (_q, [])
  else
    (* reset number of framebits *)
    let q1 := with_lengths _q num_dec_bytes'
                (fec_get_enc_msg_length (scheme _q) _dec_msg_len) in
    (* delete old decoder if necessary *)
    deleted ← match vp q1 with
              | Some _ => _ ← delete_viterbi q1 (vp q1); Ok [EvDeleteViterbi]
              | None => Ok []
              end;
    (* re-create / re-allocate memory buffers *)
    let len := wrap32 (8 * num_dec_bytes q1) in
    let size := wrap32 (num_enc_bytes q1 * 8) * 1 in
    Ok (with_buffers q1 (realloc (enc_bits q1) size) (create_viterbi q1 len),
        deleted ++ [EvCreateViterbi len; EvRealloc size]).

(** *** fec_conv_decode *)

(** The loop that invokes hard-decision scaling:
    [_q->enc_bits[k] = _q->enc_bits[k] ? FEC_SOFTBIT_1 : FEC_SOFTBIT_0]. *)
Definition scale_symbol (k : Z) (bits : option (list Z)) : result (option (list Z)) :=
  match bits with
  | None => Fault NullDereference
  | Some buf =>
      b ← load buf k;
      buf' ← store buf k (if decide (b = 0) then wrap8 FEC_SOFTBIT_0
                          else wrap8 FEC_SOFTBIT_1);
      Ok (Some buf')
  end.

Definition fec_conv_decode (_q : fec) (_dec_msg_len : Z) (_msg_enc _msg_dec : list Z)
    : result (fec * list Z * list event) :=
  (* re-allocate resources if necessary *)
  '(q1, ev1) ← fec_conv_setlength _q _dec_msg_len;
  (* unpack bytes *)
  '(bits, num_written) ←
      liquid_unpack_bytes _msg_enc (num_enc_bytes q1) (enc_bits q1)
                          (wrap32 (num_enc_bytes q1 * 8));
  (* invoke hard-decision scaling *)
  bits ← for_loop (Z.to_nat (wrap32 (8 * num_enc_bytes q1))) 0 scale_symbol bits;
  (* run decoder *)
  let nbits := wrap32 (8 * num_dec_bytes q1 + K q1 - 1) in
  v1 ← init_viterbi q1 (vp q1) 0;
  v2 ← update_viterbi_blk q1 v1 bits nbits;
  '(v3, data) ← chainback_viterbi q1 v2 _msg_dec (wrap32 (8 * num_dec_bytes q1)) 0;
  Ok (with_buffers q1 bits v3, data,
      ev1 ++ [EvUnpackBytes (num_enc_bytes q1) (wrap32 (num_enc_bytes q1 * 8));
              EvInitViterbi 0;
              EvUpdateViterbiBlk bits nbits;
              EvChainbackViterbi (wrap32 (8 * num_dec_bytes q1)) 0]).
End Codec.

(** ** The encoder as section 4.1 words it *)

(** The ideal shift register is an unbounded integer: push a bit by
    shifting left by one and OR-ing the bit in. *)
Definition spec_push (reg bit : Z) : Z := Z.lor (Z.shiftl reg 1) bit.

(** One parity bit per polynomial, in declared order. *)
Definition spec_parities (polys : list Z) (reg : Z) : list Z :=
  map (fun p => parity (Z.land reg p)) polys.

(** The output stream for a sequence of input bits: input-bit-major,
    polynomial-minor. *)
Fixpoint spec_stream (polys : list Z) (reg : Z) (bits : list Z) : list Z :=
  match bits with
  | [] => []
  | b :: rest =>
      let reg' := spec_push reg b in
      spec_parities polys reg' ++ spec_stream polys reg' rest
  end.

Definition spec_register (reg : Z) (bits : list Z) : Z :=
  fold_left spec_push bits reg.

(** The bits of a message, most significant bit of each byte first. *)
Definition message_bits (msg : list Z) : list Z :=
  concat (map byte_bits msg).

(** The K - 1 zero bits of the flush. *)
Definition flush_bits (K : Z) : list Z := replicate (Z.to_nat (K - 1)) 0.

Definition spec_data_stream (polys : list Z) (msg : list Z) : list Z :=
  spec_stream polys 0 (message_bits msg).

Definition spec_flush_stream (polys : list Z) (K : Z) (msg : list Z) : list Z :=
  spec_stream polys (spec_register 0 (message_bits msg)) (flush_bits K).

Definition spec_encoded_stream (polys : list Z) (K : Z) (msg : list Z) : list Z :=
  spec_data_stream polys msg ++ spec_flush_stream polys K msg.

(** Bit [i] of a byte buffer read as a bit stream, most significant bit of
    each byte first: bit position [7 - i mod 8] of byte [i / 8]. *)
Definition stream_bit (buf : list Z) (i : Z) : option Z :=
  (fun byte => Z.b2z (Z.testbit byte (7 - i mod 8))) <$> buf !! Z.to_nat (i / 8).

(** ** Well-formed codecs *)

(** What the spec asks of a polynomial table: R entries of K bits each. *)
Definition poly_table_ok (fs : fec_scheme) (table : list Z) : Prop :=
  Z.of_nat (length table) = scheme_R fs /\
  Forall (fun p => 0 <= p < 2 ^ scheme_K fs) table.

(** Some polynomial taps the oldest register bit, bit K - 1: the code has
    constraint length K and no less. *)
Definition taps_oldest_bit (fs : fec_scheme) (table : list Z) : Prop :=
  Exists (fun p => Z.testbit p (scheme_K fs - 1) = true) table.

Definition supported (fs : fec_scheme) : Prop :=
  match fs with FEC_OTHER _ => False | _ => True end.

(** A codec object whose code parameters are those of its scheme. *)
Definition valid_codec (q : fec) : Prop :=
  supported (scheme q) /\
  R q = scheme_R (scheme q) /\
  K q = scheme_K (scheme q) /\
  Z.of_nat (length (poly q)) = R q.

(** The encoded length in bytes, as a number of buffer cells. *)
Definition enc_len (fs : fec_scheme) (dec_len : nat) : nat :=
  Z.to_nat (fec_get_enc_msg_length fs (Z.of_nat dec_len)).

(** No 32-bit counter of the codec wraps around on a message of [dec_len]
    bytes. *)
Definition fits_uint (fs : fec_scheme) (dec_len : nat) : Prop :=
  encoded_bits fs (Z.of_nat dec_len) + 7 < 2 ^ 32.

Definition is_bit (b : Z) : Prop := b = 0 \/ b = 1.

(** Number of zero bits the padding loop appends after [len] bits. *)
Definition pad_count (len : nat) : nat := Z.to_nat ((8 - Z.of_nat len mod 8) mod 8).

(** The encoded stream with the padding of the last byte. *)
Definition spec_padded_stream (polys : list Z) (K : Z) (msg : list Z) : list Z :=
  spec_encoded_stream polys K msg ++
  replicate (pad_count (length (spec_encoded_stream polys K msg))) 0.

Section CodecPredicates.
Variables fec_conv27_poly fec_conv29_poly fec_conv39_poly fec_conv615_poly : list Z.
Variables FEC_SOFTBIT_0 FEC_SOFTBIT_1 : Z.

(** The polynomial table of a scheme. *)
Definition poly_table (fs : fec_scheme) : list Z :=
  match fs with
  | FEC_CONV_V27 => fec_conv27_poly
  | FEC_CONV_V29 => fec_conv29_poly
  | FEC_CONV_V39 => fec_conv39_poly
  | FEC_CONV_V615 => fec_conv615_poly
  | FEC_OTHER _ => []
  end.

(** The fields that [fec_conv_create] sets once and for all. *)
Definition codec_of (fs : fec_scheme) (q : fec) : Prop :=
  scheme q = fs /\ R q = scheme_R fs /\ K q = scheme_K fs /\
  poly q = poly_table fs /\
  create_viterbi q = viterbi_create (scheme_K fs) /\
  init_viterbi q = viterbi_init (scheme_K fs) /\
  update_viterbi_blk q =
    viterbi_update_blk (scheme_K fs) (poly_table fs) FEC_SOFTBIT_0 FEC_SOFTBIT_1 /\
  chainback_viterbi q = viterbi_chainback /\
  delete_viterbi q = viterbi_delete.

(** The symbols handed to the decoder: one per bit of the first
    [enc_len] encoded bytes, scaled to the two hard-decision values. *)
Definition decode_symbols (fs : fec_scheme) (n : nat) (enc : list Z) : list Z :=
  map (softbit FEC_SOFTBIT_0 FEC_SOFTBIT_1) (message_bits (take (enc_len fs n) enc)).

(** The calls a decode makes after [fec_conv_setlength]. *)
Definition decode_events (fs : fec_scheme) (n : nat) (enc : list Z) : list event :=
  [EvUnpackBytes (Z.of_nat (enc_len fs n)) (8 * Z.of_nat (enc_len fs n));
   EvInitViterbi 0;
   EvUpdateViterbiBlk (Some (decode_symbols fs n enc))
                      (8 * Z.of_nat n + scheme_K fs - 1);
   EvChainbackViterbi (8 * Z.of_nat n) 0].
End CodecPredicates.

(** The decoder working memory is allocated for the stored length. *)
Definition decoder_sized (q : fec) : Prop :=
  exists v eb,
    vp q = Some v /\ enc_bits q = Some eb /\
    v_len v = wrap32 (8 * num_dec_bytes q) /\
    num_enc_bytes q = fec_get_enc_msg_length (scheme q) (num_dec_bytes q) /\
    Z.of_nat (length eb) = wrap32 (num_enc_bytes q * 8).

(** The decoder object right after [init_viterbi]. *)
Definition decoder_reset (fs : fec_scheme) (n : nat) : viterbi :=
  {| v_len := 8 * Z.of_nat n; v_phase := Ready;
     metrics := reset_metrics (scheme_K fs) 0; survivors := [] |}.

(** ** Invariants used in the proofs *)

(** The encoder has emitted the bits [bs] into a buffer that started as
    [buf0]: the counter, the byte under construction and every byte touched
    so far. *)
Definition emitted (buf0 : list Z) (bs : list Z) (st : enc_state) : Prop :=
  n st = Z.of_nat (length bs) /\
  byte_out st = bits_value bs mod 256 /\
  length (msg_enc st) = length buf0 /\
  forall i : nat,
    msg_enc st !! i =
    if decide (8 * i < length bs)%nat
    then Some (bits_value (take (8 * Datatypes.S i) bs) mod 256)
    else buf0 !! i.

(** A loop over the elements of a list. *)
Fixpoint run_list {S A : Type} (f : A -> S -> result S) (l : list A) (s : S) : result S :=
  match l with
  | [] => Ok s
  | a :: l' => s' ← f a s; run_list f l' s'
  end.

(** The stream the code computes, with its 32-bit register. *)
Definition code_parities (poly : list Z) (reg : Z) : list Z :=
  map (fun p => parity (Z.land reg (wrap32 p))) poly.

Fixpoint code_stream (poly : list Z) (reg : Z) (bits : list Z) : list Z :=
  match bits with
  | [] => []
  | b :: rest => code_parities poly (pushed reg b) ++ code_stream poly (pushed reg b) rest
  end.

Definition code_register (reg : Z) (bits : list Z) : Z := fold_left pushed bits reg.

(** The parity-loop body once [poly[r]] is read. *)
Definition emit_poly (p : Z) (st : enc_state) : result enc_state :=
  let bo := wrap8 (Z.lor (Z.shiftl (byte_out st) 1) (parity (Z.land (sr st) (wrap32 p)))) in
  buf ← store (msg_enc st) (n st / 8) bo;
  Ok {| sr := sr st; n := wrap32 (n st + 1); byte_out := bo; msg_enc := buf |}.

(** One input bit: push, then the parity loop. *)
Definition bit_step (R : Z) (poly : list Z) (bit : Z) (st : enc_state) : result enc_state :=
  parity_loop R poly
    {| sr := pushed (sr st) bit; n := n st; byte_out := byte_out st; msg_enc := msg_enc st |}.

(** Path metrics are absent or non-negative, one per state. *)
Definition metrics_ok (K : Z) (ms : list (option Z)) : Prop :=
  Z.of_nat (length ms) = num_states K /\
  Forall (fun m => match m with Some x => 0 <= x | None => True end) ms.

(** The trellis state after the first [k] input bits. *)
Definition path_state (K : Z) (bits : list Z) (k : nat) : Z :=
  fold_left (next_state K) (take k bits) 0.

(** The symbols received for step [t] on the noiseless channel. *)
Definition sent_group (K : Z) (poly : list Z) (s0 s1 : Z) (bits : list Z) (t : nat) (b : Z)
    : list Z :=
  map (softbit s0 s1) (branch_output poly (path_state K bits t) b).

(** A call outcome that is not a process exit. *)
Definition no_exit {A : Type} (r : result A) : Prop :=
  forall status, r <> Fault (ProcessExit status).

(** The bit buffer is allocated for the stored length. *)
Definition enc_bits_sized (q : fec) : Prop :=
  exists eb,
    enc_bits q = Some eb /\
    num_enc_bytes q = fec_get_enc_msg_length (scheme q) (num_dec_bytes q) /\
    Z.of_nat (length eb) = wrap32 (num_enc_bytes q * 8).

(** What a resize that took place has done: both lengths stored, the old
    decoder deleted when there was one, a decoder created and the bit
    buffer re-allocated. *)
Definition resized (fresh_byte : Z) (q : fec) (len : Z) (q1 : fec) (ev : list event) : Prop :=
  let enc := fec_get_enc_msg_length (scheme q) len in
  q1 = with_buffers (with_lengths q len enc)
         (realloc fresh_byte (enc_bits q) (wrap32 (enc * 8) * 1))
         (create_viterbi q (wrap32 (8 * len))) /\
  ev = match vp q with Some _ => [EvDeleteViterbi] | None => [] end ++
       [EvCreateViterbi (wrap32 (8 * len)); EvRealloc (wrap32 (enc * 8) * 1)].

(** The decoder functions a codec points to never exit the process. *)
Definition pointers_no_exit (q : fec) : Prop :=
  (forall v, no_exit (delete_viterbi q v)) /\
  (forall v s, no_exit (init_viterbi q v s)) /\
  (forall v syms nbits, no_exit (update_viterbi_blk q v syms nbits)) /\
  (forall v data nbits e, no_exit (chainback_viterbi q v data nbits e)).

(** The decoder run of a decode call: it depends on the scheme and on the
    inputs of the call only. *)
Definition viterbi_decode (t27 t29 t39 t615 : list Z) (s0 s1 : Z)
    (fs : fec_scheme) (n : nat) (enc dec : list Z) : result (option viterbi * list Z) :=
  v2 ← viterbi_update_blk (scheme_K fs) (poly_table t27 t29 t39 t615 fs) s0 s1
         (Some (decoder_reset fs n)) (Some (decode_symbols s0 s1 fs n enc))
         (8 * Z.of_nat n + scheme_K fs - 1);
  viterbi_chainback v2 dec (8 * Z.of_nat n) 0.

(** ** Notions of the further properties *)

(** A call outcome that, when it is a fault, is an access outside a buffer. *)
Definition only_out_of_bounds {A : Type} (r : result A) : Prop :=
  forall f, r = Fault f -> f = OutOfBounds.

(** The bytewise exclusive or of two buffers. *)
Definition xor_bytes (a b : list Z) : list Z := zip_with Z.lxor a b.

(** Some polynomial taps the newest register bit, bit 0: the bit just
    pushed shows in the output of its own time step. *)
Definition taps_newest_bit (table : list Z) : Prop :=
  Exists (fun p => Z.testbit p 0 = true) table.

(** Whether the codec object holds a decoder. *)
Definition has_decoder (q : fec) : bool :=
  match vp q with Some _ => true | None => false end.

(** The decoder bookkeeping of a trace: [live] tells whether a decoder
    object exists.  Creating one while another exists loses the older one,
    deleting one when none exists releases nothing that was allocated; in
    both cases there is no answer.  Otherwise the answer is whether a
    decoder exists after the trace. *)
Fixpoint live_decoder (live : bool) (ev : list event) : option bool :=
  match ev with
  | [] => Some live
  | EvCreateViterbi _ :: rest => if live then None else live_decoder true rest
  | EvDeleteViterbi :: rest => if live then live_decoder false rest else None
  | _ :: rest => live_decoder live rest
  end.

Section Sessions.
Variables FEC_SOFTBIT_0 FEC_SOFTBIT_1 : Z.
Variable fresh_byte : Z.

(** A decoding session: one [fec_conv_decode] call per frame (decoded
    length, encoded bytes, output buffer), each on the codec object the
    call before left behind; the decoded messages and the calls made. *)
Fixpoint decode_all (q : fec) (frames : list (Z * list Z * list Z))
    : result (fec * list (list Z) * list event) :=
  match frames with
  | [] => Ok (q, [], [])
  | (len, enc, dec) :: rest =>
      '(q1, out, tr1) ← fec_conv_decode FEC_SOFTBIT_0 FEC_SOFTBIT_1 fresh_byte q len enc dec;
      '(q2, outs, tr2) ← decode_all q1 rest;
      Ok (q2, out :: outs, tr1 ++ tr2)
  end.
End Sessions.

(** A frame of a session whose buffers are large enough for its length. *)
Definition frame_fits (fs : fec_scheme) (f : Z * list Z * list Z) : Prop :=
  let '(len, enc, dec) := f in
  0 <= len /\
  fits_uint fs (Z.to_nat len) /\
  (enc_len fs (Z.to_nat len) <= length enc)%nat /\
  (Z.to_nat len <= length dec)%nat.

(** The first frame of the session, if any, differs in length from [len]. *)
Definition starts_unlike (len : Z) (frames : list (Z * list Z * list Z)) : Prop :=
  match frames with
  | (len1, _, _) :: _ => len1 <> len
  | [] => True
  end.

(** ** Sample instances for the closed examples *)

(** Tables that meet [poly_table_ok] and [taps_oldest_bit], and the symbol
    values 0 and 255. *)
Definition sample_poly27 : list Z := [109; 79].
Definition sample_poly29 : list Z := [431; 285].
Definition sample_poly39 : list Z := [493; 411; 295].
Definition sample_poly615 : list Z := [17817; 20133; 23879; 30451; 32439; 26975].

Definition sample_create (fs : fec_scheme) (junk : Z) : result fec :=
  fec_conv_create sample_poly27 sample_poly29 sample_poly39 sample_poly615 0 255 fs junk.

Definition sample_codec (fs : fec_scheme) : fec :=
  match sample_create fs 0 with
  | Ok q => q
  | Fault _ => malloc_fec 0
  end.

Definition sample_setlength := fec_conv_setlength 0.
Definition sample_decode := fec_conv_decode 0 255 0.

(** A session of three frames: a codeword of one byte, a frame of length
    0 and an arbitrary frame of two bytes. *)
Definition sample_frames : list (Z * list Z * list Z) :=
  [(1, [210; 234; 119; 176], [0]); (0, [0; 0], []); (2, [1; 2; 3; 4; 5; 6], [0; 0])].

(** * Proofs *)

(** ** Outcomes, loops and the emission invariant *)

Lemma parity_bit x : parity x = 0 \/ parity x = 1.
Proof. unfold parity. destruct (fold_right _ _ _); simpl; auto. Qed.

Lemma parity_range x : 0 <= parity x <= 1.
Proof. destruct (parity_bit x) as [-> | ->]; lia. Qed.

Lemma land_1_mod x : Z.land x 1 = x mod 2.
Proof. change 1 with (Z.ones 1). rewrite Z.land_ones by lia. reflexivity. Qed.

Lemma lor_shiftl_bit x b : 0 <= b <= 1 -> Z.lor (Z.shiftl x 1) b = 2 * x + b.
Proof.
  intros Hb. rewrite Z.shiftl_mul_pow2 by lia.
  replace (x * 2 ^ 1) with (2 * x) by lia.
  assert (b = 0 \/ b = 1) as [-> | ->] by lia.
  - rewrite Z.lor_0_r. lia.
  - assert (Z.land (2 * x) 1 = 0) as Hl.
    { rewrite land_1_mod. rewrite Z.mul_comm. apply Z.mod_mul. lia. }
    rewrite <- Z.lxor_lor, <- Z.add_nocarry_lxor; auto.
Qed.

Lemma bits_value_snoc bs b : bits_value (bs ++ [b]) = 2 * bits_value bs + b.
Proof. unfold bits_value. rewrite fold_left_app. reflexivity. Qed.

Lemma for_loop_S {S} (c : nat) (i : Z) (body : Z -> S -> result S) (s : S) :
  for_loop (Datatypes.S c) i body s = (s' ← body i s; for_loop c (i + 1) body s').
Proof. reflexivity. Qed.

Lemma bind_Ok {A B} (a : A) (k : A -> result B) : (Ok a ≫= k) = k a.
Proof. reflexivity. Qed.

Lemma bind_Fault {A B} (f : fault) (k : A -> result B) : (Fault f ≫= k) = Fault f.
Proof. reflexivity. Qed.

Lemma for_loop_snoc {S} (c : nat) (i : Z) (body : Z -> S -> result S) (s : S) :
  for_loop (Datatypes.S c) i body s =
  (s' ← for_loop c i body s; body (i + Z.of_nat c) s').
Proof.
  revert i s. induction c as [|c IH]; intros i s.
  - simpl. rewrite Z.add_0_r. destruct (body i s); reflexivity.
  - rewrite for_loop_S. rewrite (for_loop_S c).
    destruct (body i s) as [s1|f]; [|reflexivity].
    rewrite !bind_Ok. rewrite IH.
    replace (i + 1 + Z.of_nat c) with (i + Z.of_nat (Datatypes.S c)) by lia.
    reflexivity.
Qed.

Lemma emitted_init buf : emitted buf [] (encode_init buf).
Proof.
  split; [reflexivity|]. split; [reflexivity|]. split; [reflexivity|].
  intros i. case_decide; [simpl in *; lia | reflexivity].
Qed.

Lemma emitted_step buf0 bs st b bo :
  emitted buf0 bs st ->
  (length bs < 8 * length buf0)%nat ->
  Z.of_nat (length bs) + 1 < 2 ^ 32 ->
  bo = (2 * byte_out st + b) mod 256 ->
  exists buf,
    store (msg_enc st) (n st / 8) bo = Ok buf /\
    forall s, emitted buf0 (bs ++ [b])
      {| sr := s; n := wrap32 (n st + 1); byte_out := bo; msg_enc := buf |}.
Proof.
  intros (Hn & Hbo & Hlen & Hmem) Hcap Hovf ->.
  unfold store. rewrite Hn, Hlen.
  destruct (decide _) as [Hin | Hout].
  2:{ exfalso. apply Hout. split; [apply Z.div_pos; lia|].
      apply Z.div_lt_upper_bound; lia. }
  eexists; split; [reflexivity|]. intros s.
  assert (Hv : (2 * byte_out st + b) mod 256 = bits_value (bs ++ [b]) mod 256).
  { rewrite bits_value_snoc, Hbo.
    rewrite Z.add_mod by lia. rewrite Z.mul_mod_idemp_r by lia.
    rewrite <- Z.add_mod by lia. reflexivity. }
  set (j := Z.to_nat (Z.of_nat (length bs) / 8)).
  assert (Hj : (8 * j <= length bs < 8 * j + 8)%nat).
  { unfold j. pose proof (Z.div_mod (Z.of_nat (length bs)) 8 ltac:(lia)).
    pose proof (Z.mod_pos_bound (Z.of_nat (length bs)) 8 ltac:(lia)).
    assert (0 <= Z.of_nat (length bs) / 8) by (apply Z.div_pos; lia). lia. }
  split; [|split; [|split]]; cbn [n byte_out msg_enc].
  - unfold wrap32. rewrite Z.mod_small by lia. rewrite length_app. simpl. lia.
  - exact Hv.
  - rewrite length_insert. exact Hlen.
  - intros i. rewrite length_app. cbn [length].
    destruct (decide (i = j)) as [-> | Hne].
    + rewrite list_lookup_insert_eq by lia.
      rewrite decide_True by lia.
      rewrite Hv. rewrite take_ge; [reflexivity|]. rewrite length_app. simpl. lia.
    + rewrite list_lookup_insert_ne by lia. rewrite Hmem.
      destruct (decide (8 * i < length bs)%nat).
      * rewrite decide_True by lia. rewrite take_app_le by lia. reflexivity.
      * rewrite decide_False by lia. reflexivity.
Qed.

(** ** The parity loop and the bit loop *)

Lemma for_loop_run_list {S A : Type} (l : list A) (body : Z -> S -> result S)
    (f : A -> S -> result S) (start : Z) (s : S) :
  (forall (i : nat) a s, l !! i = Some a -> body (start + Z.of_nat i) s = f a s) ->
  for_loop (length l) start body s = run_list f l s.
Proof.
  revert start s. induction l as [|a l IH]; intros start s Hbody; [reflexivity|].
  cbn [length run_list]. rewrite for_loop_S.
  rewrite <- (Hbody 0%nat a s eq_refl). rewrite Z.add_0_r.
  destruct (body start s) as [s1|f0]; [|reflexivity].
  rewrite !bind_Ok. apply IH. intros i a' s' Hi.
  rewrite <- (Hbody (Datatypes.S i) a' s' Hi). f_equal. lia.
Qed.

Lemma run_list_app {S A : Type} (f : A -> S -> result S) (l1 l2 : list A) (s : S) :
  run_list f (l1 ++ l2) s = (s' ← run_list f l1 s; run_list f l2 s').
Proof.
  revert s. induction l1 as [|a l1 IH]; intros s; [reflexivity|].
  cbn [app run_list]. destruct (f a s); [|reflexivity]. rewrite !bind_Ok. apply IH.
Qed.

Lemma length_code_stream poly reg bits :
  length (code_stream poly reg bits) = (length poly * length bits)%nat.
Proof.
  revert reg. induction bits as [|b bits IH]; intros reg; simpl; [lia|].
  rewrite length_app, IH. unfold code_parities. rewrite length_map. lia.
Qed.

Lemma code_stream_app poly reg b1 b2 :
  code_stream poly reg (b1 ++ b2) =
  code_stream poly reg b1 ++ code_stream poly (code_register reg b1) b2.
Proof.
  revert reg. induction b1 as [|b b1 IH]; intros reg; [reflexivity|].
  simpl. rewrite IH. rewrite app_assoc. reflexivity.
Qed.

Lemma code_register_app reg b1 b2 :
  code_register reg (b1 ++ b2) = code_register (code_register reg b1) b2.
Proof. unfold code_register. apply fold_left_app. Qed.

Lemma load_lookup (l : list Z) (i : nat) v : l !! i = Some v -> load l (Z.of_nat i) = Ok v.
Proof.
  intros H. unfold load. rewrite decide_True by lia. rewrite Nat2Z.id, H. reflexivity.
Qed.

Lemma parity_loop_run R poly st :
  Z.of_nat (length poly) = R ->
  parity_loop R poly st = run_list emit_poly poly st.
Proof.
  intros <-. unfold parity_loop. rewrite Nat2Z.id.
  apply for_loop_run_list. intros i p s Hi. rewrite Z.add_0_l.
  unfold emit_parity, emit_poly. rewrite (load_lookup _ _ _ Hi). reflexivity.
Qed.

Lemma emit_polys_emitted buf0 ps : forall bs st,
  emitted buf0 bs st ->
  (length bs + length ps <= 8 * length buf0)%nat ->
  Z.of_nat (length bs + length ps) < 2 ^ 32 ->
  exists st', run_list emit_poly ps st = Ok st' /\ sr st' = sr st /\
              emitted buf0 (bs ++ code_parities ps (sr st)) st'.
Proof.
  induction ps as [|p ps IH]; intros bs st Hinv Hcap Hovf.
  - exists st. simpl. rewrite app_nil_r. auto.
  - cbn [length] in *. cbn [run_list].
    destruct (emitted_step buf0 bs st (parity (Z.land (sr st) (wrap32 p)))
                (wrap8 (Z.lor (Z.shiftl (byte_out st) 1)
                              (parity (Z.land (sr st) (wrap32 p)))))
                Hinv ltac:(lia) ltac:(lia))
      as (buf & Hstore & Hnext).
    { unfold wrap8. rewrite lor_shiftl_bit by apply parity_range. reflexivity. }
    assert (Hemit : emit_poly p st = Ok
              {| sr := sr st; n := wrap32 (n st + 1);
                 byte_out := wrap8 (Z.lor (Z.shiftl (byte_out st) 1)
                                          (parity (Z.land (sr st) (wrap32 p))));
                 msg_enc := buf |}).
    { unfold emit_poly. cbv zeta. rewrite Hstore. reflexivity. }
    rewrite Hemit, bind_Ok.
    specialize (Hnext (sr st)).
    destruct (IH _ _ Hnext) as (st' & Hrun & Hsr & Hinv').
    { rewrite length_app. simpl. lia. }
    { rewrite length_app. simpl. lia. }
    exists st'. split; [exact Hrun|]. split; [exact Hsr|].
    cbn [sr] in Hinv'. rewrite <- app_assoc in Hinv'. exact Hinv'.
Qed.

Lemma emitted_sr buf0 bs st s :
  emitted buf0 bs st ->
  emitted buf0 bs {| sr := s; n := n st; byte_out := byte_out st; msg_enc := msg_enc st |}.
Proof. intros H. exact H. Qed.

Lemma bit_steps_emitted buf0 R poly bits : forall bs st,
  Z.of_nat (length poly) = R ->
  emitted buf0 bs st ->
  (length bs + length poly * length bits <= 8 * length buf0)%nat ->
  Z.of_nat (length bs + length poly * length bits) < 2 ^ 32 ->
  exists st', run_list (bit_step R poly) bits st = Ok st' /\
              sr st' = code_register (sr st) bits /\
              emitted buf0 (bs ++ code_stream poly (sr st) bits) st'.
Proof.
  induction bits as [|b bits IH]; intros bs st HR Hinv Hcap Hovf.
  - exists st. simpl. rewrite app_nil_r. auto.
  - cbn [length] in *. cbn [run_list].
    assert (Hstep : forall s, bit_step R poly b s = run_list emit_poly poly
              {| sr := pushed (sr s) b; n := n s; byte_out := byte_out s;
                 msg_enc := msg_enc s |}).
    { intros s. unfold bit_step. apply parity_loop_run, HR. }
    rewrite Hstep.
    destruct (emit_polys_emitted buf0 poly bs _ (emitted_sr _ _ _ (pushed (sr st) b) Hinv))
      as (st1 & Hrun & Hsr & Hinv1); [nia | nia |].
    rewrite Hrun, bind_Ok. cbn [sr] in Hsr, Hinv1.
    destruct (IH _ _ HR Hinv1) as (st' & Hrun' & Hsr' & Hinv').
    { rewrite length_app. unfold code_parities. rewrite length_map. nia. }
    { rewrite length_app. unfold code_parities. rewrite length_map. nia. }
    exists st'. split; [exact Hrun'|]. rewrite Hsr in Hsr', Hinv'.
    split; [exact Hsr'|]. cbn [code_stream]. rewrite <- app_assoc in Hinv'. exact Hinv'.
Qed.

(** ** The three phases of the encoder *)

Lemma run_list_concat {S A B : Type} (f : B -> S -> result S) (g : A -> list B)
    (l : list A) (s : S) :
  run_list (fun a => run_list f (g a)) l s = run_list f (concat (map g l)) s.
Proof.
  revert s. induction l as [|a l IH]; intros s; [reflexivity|].
  cbn [map concat run_list]. rewrite run_list_app.
  destruct (run_list f (g a) s); [|reflexivity]. rewrite !bind_Ok. apply IH.
Qed.

Lemma run_list_ext {S A : Type} (f g : A -> S -> result S) (l : list A) (s : S) :
  (forall a s, f a s = g a s) -> run_list f l s = run_list g l s.
Proof.
  intros H. revert s. induction l as [|a l IH]; intros s; [reflexivity|].
  cbn [run_list]. rewrite H. destruct (g a s); [|reflexivity]. rewrite !bind_Ok. apply IH.
Qed.

Lemma length_byte_bits b : length (byte_bits b) = 8%nat.
Proof. reflexivity. Qed.

Lemma lookup_byte_bits b (j : nat) a :
  byte_bits b !! j = Some a -> a = Z.land (Z.shiftr b (7 - Z.of_nat j)) 1.
Proof.
  unfold byte_bits. rewrite list_lookup_fmap. intros H.
  destruct (seq 0 8 !! j) as [k|] eqn:Hk; [|discriminate].
  apply lookup_seq in Hk as [-> _]. simpl in H. congruence.
Qed.

Lemma encode_bits_run R poly byte_in st :
  for_loop 8 0 (encode_bit R poly byte_in) st =
  run_list (bit_step R poly) (byte_bits byte_in) st.
Proof.
  rewrite <- (length_byte_bits byte_in) at 1.
  apply for_loop_run_list. intros j a s Hj. rewrite Z.add_0_l.
  apply lookup_byte_bits in Hj as ->. reflexivity.
Qed.

Lemma encode_data_run R poly msg st :
  encode_data R poly (Z.of_nat (length msg)) msg st =
  run_list (bit_step R poly) (message_bits msg) st.
Proof.
  unfold encode_data, message_bits. rewrite Nat2Z.id.
  rewrite <- run_list_concat.
  apply for_loop_run_list. intros i b s Hi. rewrite Z.add_0_l.
  unfold encode_byte. rewrite (load_lookup _ _ _ Hi), bind_Ok.
  apply encode_bits_run.
Qed.

Lemma encode_tail_run R K poly st :
  1 <= K <= 2 ^ 32 ->
  encode_tail R K poly st = run_list (bit_step R poly) (flush_bits K) st.
Proof.
  intros HK. unfold encode_tail, flush_bits, wrap32. rewrite Z.mod_small by lia.
  rewrite <- (length_replicate (Z.to_nat (K - 1)) 0) at 1.
  apply for_loop_run_list. intros i b s Hi.
  apply lookup_replicate in Hi as [-> _].
  unfold encode_tail_bit, bit_step, pushed. rewrite Z.lor_0_r. reflexivity.
Qed.

Lemma pad_count_0 len : Z.of_nat len mod 8 = 0 -> pad_count len = 0%nat.
Proof. intros H. unfold pad_count. rewrite H. reflexivity. Qed.

Lemma pad_count_S len :
  Z.of_nat len mod 8 <> 0 -> pad_count len = Datatypes.S (pad_count (Datatypes.S len)).
Proof.
  intros H. unfold pad_count. rewrite Nat2Z.inj_succ. 
  pose proof (Z.mod_pos_bound (Z.of_nat len) 8 ltac:(lia)).
  assert (Z.succ (Z.of_nat len) mod 8 = (Z.of_nat len mod 8 + 1) mod 8) as ->.
  { unfold Z.succ. rewrite Z.add_mod by lia. reflexivity. }
  assert (Hm : Z.of_nat len mod 8 = 1 \/ Z.of_nat len mod 8 = 2 \/
               Z.of_nat len mod 8 = 3 \/ Z.of_nat len mod 8 = 4 \/
               Z.of_nat len mod 8 = 5 \/ Z.of_nat len mod 8 = 6 \/
               Z.of_nat len mod 8 = 7) by lia.
  destruct Hm as [E|[E|[E|[E|[E|[E|E]]]]]]; rewrite E; reflexivity.
Qed.

Lemma pad_count_lt len : (pad_count len < 8)%nat.
Proof.
  unfold pad_count. pose proof (Z.mod_pos_bound (8 - Z.of_nat len mod 8) 8 ltac:(lia)). lia.
Qed.

Lemma pad_count_total len : Z.of_nat (len + pad_count len) mod 8 = 0.
Proof.
  unfold pad_count.
  pose proof (Z.mod_pos_bound (8 - Z.of_nat len mod 8) 8 ltac:(lia)).
  rewrite Nat2Z.inj_add, Z2Nat.id by lia.
  rewrite Z.add_mod by lia. rewrite Z.mod_mod by lia.
  rewrite <- Z.add_mod by lia.
  replace (Z.of_nat len + (8 - Z.of_nat len mod 8))
    with (8 * (Z.of_nat len / 8) + Z.of_nat len mod 8 + (8 - Z.of_nat len mod 8))
    by (rewrite <- Z.div_mod by lia; lia).
  replace (8 * (Z.of_nat len / 8) + Z.of_nat len mod 8 + (8 - Z.of_nat len mod 8))
    with ((Z.of_nat len / 8 + 1) * 8) by lia.
  apply Z.mod_mul. lia.
Qed.

Lemma pad_loop_emitted buf0 fuel : forall bs st,
  emitted buf0 bs st ->
  (pad_count (length bs) <= fuel)%nat ->
  (length bs + pad_count (length bs) <= 8 * length buf0)%nat ->
  Z.of_nat (length bs + pad_count (length bs)) < 2 ^ 32 ->
  exists st', pad_loop fuel st = Ok st' /\ sr st' = sr st /\
              emitted buf0 (bs ++ replicate (pad_count (length bs)) 0) st'.
Proof.
  induction fuel as [|fuel IH]; intros bs st Hinv Hfuel Hcap Hovf.
  - cbn [pad_loop]. destruct Hinv as (Hn & Hrest). rewrite Hn.
    destruct (decide (Z.of_nat (length bs) mod 8 = 0)) as [E|E].
    + exists st. rewrite (pad_count_0 _ E). simpl. rewrite app_nil_r.
      split; [reflexivity|]. split; [reflexivity|]. split; assumption.
    + rewrite (pad_count_S _ E) in Hfuel. lia.
  - cbn [pad_loop]. pose proof Hinv as (Hn & Hrest). rewrite Hn.
    destruct (decide (Z.of_nat (length bs) mod 8 = 0)) as [E|E].
    + exists st. rewrite (pad_count_0 _ E). simpl. rewrite app_nil_r.
      split; [reflexivity|]. split; [reflexivity|]. exact Hinv.
    + rewrite (pad_count_S _ E) in *. cbv zeta.
      destruct (emitted_step buf0 bs st 0 (wrap8 (Z.shiftl (byte_out st) 1))
                  Hinv ltac:(lia) ltac:(lia))
        as (buf & Hstore & Hnext).
      { unfold wrap8. rewrite Z.shiftl_mul_pow2 by lia. f_equal. lia. }
      rewrite <- Hn. rewrite Hstore, bind_Ok.
      destruct (IH _ _ (Hnext (sr st))) as (st' & Hrun & Hsr & Hinv').
      { rewrite length_app. cbn [length]. rewrite Nat.add_1_r. lia. }
      { rewrite length_app. cbn [length]. rewrite Nat.add_1_r. lia. }
      { rewrite length_app. cbn [length]. rewrite Nat.add_1_r. lia. }
      exists st'. split; [exact Hrun|]. split; [exact Hsr|].
      rewrite length_app in Hinv'. cbn [length] in Hinv'. rewrite Nat.add_1_r in Hinv'.
      rewrite <- app_assoc in Hinv'. exact Hinv'.
Qed.

(** ** Packed bytes *)

Lemma bits_value_app l1 l2 :
  bits_value (l1 ++ l2) = bits_value l1 * 2 ^ Z.of_nat (length l2) + bits_value l2.
Proof.
  induction l2 as [|b l2 IH] using rev_ind.
  - rewrite app_nil_r. simpl. unfold bits_value at 3. simpl. lia.
  - rewrite app_assoc, !bits_value_snoc, IH, length_app. cbn [length].
    rewrite Nat2Z.inj_add, Z.pow_add_r by lia. change (2 ^ Z.of_nat 1) with 2. lia.
Qed.

Lemma bits_value_range l :
  Forall is_bit l -> 0 <= bits_value l < 2 ^ Z.of_nat (length l).
Proof.
  induction l as [|b l IH] using rev_ind; intros H.
  - unfold bits_value. simpl. lia.
  - apply Forall_app in H as [Hl Hb]. inversion Hb as [|? ? Hb' _]; subst.
    specialize (IH Hl). rewrite bits_value_snoc, length_app. cbn [length].
    rewrite Nat2Z.inj_add, Z.pow_add_r by lia. change (2 ^ Z.of_nat 1) with 2.
    destruct Hb' as [-> | ->]; lia.
Qed.

Lemma take_add_drop {A} (l : list A) (a b : nat) :
  take (a + b) l = take a l ++ take b (drop a l).
Proof.
  revert l. induction a as [|a IH]; intros l; [reflexivity|].
  destruct l as [|x l]; [simpl; by rewrite take_nil|].
  cbn [Nat.add take drop app]. by rewrite IH.
Qed.

Lemma chunk_value bs (i : nat) :
  Forall is_bit bs ->
  (8 * Datatypes.S i <= length bs)%nat ->
  bits_value (take (8 * Datatypes.S i) bs) mod 256 = bits_value (take 8 (drop (8 * i) bs)).
Proof.
  intros Hbits Hlen.
  replace (8 * Datatypes.S i)%nat with (8 * i + 8)%nat by lia.
  rewrite take_add_drop, bits_value_app.
  assert (Hl : length (take 8 (drop (8 * i) bs)) = 8%nat).
  { rewrite length_take, length_drop. lia. }
  rewrite Hl. change (2 ^ Z.of_nat 8) with 256.
  rewrite Z.add_comm, Z.mod_add by lia.
  apply Z.mod_small.
  pose proof (bits_value_range (take 8 (drop (8 * i) bs))
                (Forall_take _ _ _ (Forall_drop _ _ _ Hbits))) as Hr.
  rewrite Hl in Hr. exact Hr.
Qed.

Lemma length_pack_msb k bs : length (pack_msb k bs) = k.
Proof. revert bs. induction k as [|k IH]; intros bs; simpl; [reflexivity|]. by rewrite IH. Qed.

Lemma lookup_pack_msb k bs (i : nat) :
  (i < k)%nat ->
  pack_msb k bs !! i = Some (bits_value (resize 8 0 (drop (8 * i) bs))).
Proof.
  revert bs i. induction k as [|k IH]; intros bs i Hi; [lia|].
  destruct i as [|i].
  - simpl. reflexivity.
  - cbn [pack_msb]. rewrite lookup_cons. rewrite IH by lia.
    rewrite drop_drop. replace (8 + 8 * i)%nat with (8 * Datatypes.S i)%nat by lia.
    reflexivity.
Qed.

Lemma resize_full {A} (x : A) (l : list A) (k : nat) :
  (k <= length l)%nat -> resize k x l = take k l.
Proof. intros H. by rewrite resize_le. Qed.

Lemma emitted_full buf0 bs st (L : nat) :
  emitted buf0 bs st ->
  length bs = (8 * L)%nat ->
  Forall is_bit bs ->
  msg_enc st = pack_msb L bs ++ drop L buf0.
Proof.
  intros (_ & _ & Hlen & Hmem) HL Hbits.
  apply list_eq. intros i. rewrite Hmem.
  destruct (decide (i < L)%nat) as [Hi|Hi].
  - rewrite decide_True by lia.
    rewrite lookup_app_l by (rewrite length_pack_msb; lia).
    rewrite lookup_pack_msb by lia.
    rewrite chunk_value by (auto; lia).
    rewrite resize_full by (rewrite length_drop; lia). reflexivity.
  - rewrite decide_False by lia.
    rewrite lookup_app_r by (rewrite length_pack_msb; lia).
    rewrite length_pack_msb, lookup_drop. f_equal. lia.
Qed.

Lemma code_parities_bits poly reg : Forall is_bit (code_parities poly reg).
Proof.
  unfold code_parities. apply Forall_fmap, Forall_forall. intros p _. apply parity_bit.
Qed.

Lemma code_stream_bits poly reg bits : Forall is_bit (code_stream poly reg bits).
Proof.
  revert reg. induction bits as [|b bits IH]; intros reg; simpl; [constructor|].
  apply Forall_app. split; [apply code_parities_bits | apply IH].
Qed.

Lemma padded_length (len : nat) :
  Z.of_nat (len + pad_count len) = 8 * ((Z.of_nat len + 7) / 8).
Proof.
  pose proof (pad_count_total len) as Ht. pose proof (pad_count_lt len) as Hlt.
  revert Ht. generalize (pad_count len) Hlt. intros k Hk Ht.
  rewrite Nat2Z.inj_add in *. 
  Z.div_mod_to_equations. lia.
Qed.

(** ** The 32-bit register against the ideal register *)

Lemma parity_ext x y :
  (forall i, 0 <= i < 32 -> Z.testbit x i = Z.testbit y i) -> parity x = parity y.
Proof.
  intros H. unfold parity. do 2 f_equal. apply map_ext_in. intros i Hi.
  apply in_seq in Hi. apply H. lia.
Qed.

Lemma parity_land_wrap x p : parity (Z.land (wrap32 x) (wrap32 p)) = parity (Z.land x p).
Proof.
  apply parity_ext. intros i Hi. rewrite !Z.land_spec. unfold wrap32.
  rewrite !Z.mod_pow2_bits_low by lia. reflexivity.
Qed.

Lemma parity_land_wrap_r x p : parity (Z.land x (wrap32 p)) = parity (Z.land x p).
Proof.
  apply parity_ext. intros i Hi. rewrite !Z.land_spec. unfold wrap32.
  rewrite !Z.mod_pow2_bits_low by lia. reflexivity.
Qed.

Lemma pushed_wrap x b : pushed (wrap32 x) b = wrap32 (spec_push x b).
Proof.
  unfold pushed, spec_push, wrap32. apply Z.bits_inj'. intros i Hi.
  destruct (Z.lt_ge_cases i 32) as [Hlt|Hge].
  - rewrite !Z.mod_pow2_bits_low by lia. rewrite !Z.lor_spec. f_equal.
    rewrite !Z.shiftl_spec by lia.
    destruct (Z.lt_ge_cases (i - 1) 0).
    + rewrite !Z.testbit_neg_r by lia. reflexivity.
    + rewrite Z.mod_pow2_bits_low by lia. reflexivity.
  - rewrite !Z.mod_pow2_bits_high by lia. reflexivity.
Qed.

Lemma code_parities_spec poly x : code_parities poly (wrap32 x) = spec_parities poly x.
Proof.
  unfold code_parities, spec_parities. apply map_ext. intros p. apply parity_land_wrap.
Qed.

Lemma code_stream_spec poly bits : forall x,
  code_stream poly (wrap32 x) bits = spec_stream poly x bits.
Proof.
  induction bits as [|b bits IH]; intros x; [reflexivity|].
  cbn [code_stream spec_stream]. rewrite pushed_wrap, code_parities_spec, IH. reflexivity.
Qed.

Lemma code_register_spec bits : forall x,
  code_register (wrap32 x) bits = wrap32 (spec_register x bits).
Proof.
  induction bits as [|b bits IH]; intros x; [reflexivity|].
  unfold code_register, spec_register in *. cbn [fold_left].
  rewrite pushed_wrap. apply IH.
Qed.

Lemma length_spec_stream polys reg bits :
  length (spec_stream polys reg bits) = (length polys * length bits)%nat.
Proof.
  revert reg. induction bits as [|b bits IH]; intros reg; simpl; [lia|].
  rewrite length_app, IH. unfold spec_parities. rewrite length_map. lia.
Qed.

Lemma spec_stream_bits polys reg bits : Forall is_bit (spec_stream polys reg bits).
Proof.
  revert reg. induction bits as [|b bits IH]; intros reg; simpl; [constructor|].
  apply Forall_app. split; [|apply IH].
  unfold spec_parities. apply Forall_fmap, Forall_forall. intros p _. apply parity_bit.
Qed.

Lemma length_message_bits msg : length (message_bits msg) = (8 * length msg)%nat.
Proof.
  unfold message_bits. induction msg as [|b msg IH]; [reflexivity|].
  cbn [map concat]. rewrite length_app, IH, length_byte_bits. cbn [length]. lia.
Qed.

Lemma length_flush_bits K : length (flush_bits K) = Z.to_nat (K - 1).
Proof. apply length_replicate. Qed.

Lemma length_spec_encoded_stream polys K msg :
  length (spec_encoded_stream polys K msg) =
  (length polys * (8 * length msg + Z.to_nat (K - 1)))%nat.
Proof.
  unfold spec_encoded_stream, spec_data_stream, spec_flush_stream.
  rewrite length_app, !length_spec_stream, length_message_bits, length_flush_bits. lia.
Qed.

Lemma encode_phases R K poly msg buf :
  Z.of_nat (length poly) = R ->
  1 <= K <= 2 ^ 32 ->
  (length (spec_padded_stream poly K msg) <= 8 * length buf)%nat ->
  Z.of_nat (length (spec_padded_stream poly K msg)) < 2 ^ 32 ->
  exists st1 st2 st3,
    encode_data R poly (Z.of_nat (length msg)) msg (encode_init buf) = Ok st1 /\
    encode_tail R K poly st1 = Ok st2 /\
    encode_pad st2 = Ok st3 /\
    sr st1 = wrap32 (spec_register 0 (message_bits msg)) /\
    emitted buf (spec_data_stream poly msg) st1 /\
    sr st2 = wrap32 (spec_register 0 (message_bits msg ++ flush_bits K)) /\
    emitted buf (spec_encoded_stream poly K msg) st2 /\
    emitted buf (spec_padded_stream poly K msg) st3.
Proof.
  intros HR HK Hcap Hovf.
  unfold spec_padded_stream in Hcap, Hovf. rewrite length_app, length_replicate in Hcap, Hovf.
  pose proof (length_spec_encoded_stream poly K msg) as Hlen.
  unfold spec_encoded_stream in Hlen. rewrite length_app in Hlen.
  pose proof (length_spec_stream poly 0 (message_bits msg)) as Hlen1.
  fold (spec_data_stream poly msg) in Hlen1.
  unfold spec_encoded_stream in Hcap, Hovf. rewrite length_app in Hcap, Hovf.
  destruct (bit_steps_emitted buf R poly (message_bits msg) [] (encode_init buf)
              HR (emitted_init buf)) as (st1 & H1 & Hsr1 & Hinv1).
  { cbn [length]. lia. }
  { cbn [length]. lia. }
  cbn [app] in Hinv1. change (sr (encode_init buf)) with (wrap32 0) in Hsr1, Hinv1.
  rewrite code_stream_spec in Hinv1. rewrite code_register_spec in Hsr1.
  fold (spec_data_stream poly msg) in Hinv1.
  destruct (bit_steps_emitted buf R poly (flush_bits K) _ st1 HR Hinv1)
    as (st2 & H2 & Hsr2 & Hinv2).
  { pose proof (length_spec_stream poly (spec_register 0 (message_bits msg)) (flush_bits K)).
    unfold spec_flush_stream in *. lia. }
  { pose proof (length_spec_stream poly (spec_register 0 (message_bits msg)) (flush_bits K)).
    unfold spec_flush_stream in *. lia. }
  rewrite Hsr1 in Hsr2, Hinv2. rewrite code_stream_spec in Hinv2.
  rewrite code_register_spec in Hsr2.
  fold (spec_flush_stream poly K msg) in Hinv2.
  fold (spec_encoded_stream poly K msg) in Hinv2.
  destruct (pad_loop_emitted buf 8 _ st2 Hinv2) as (st3 & H3 & _ & Hinv3).
  { pose proof (pad_count_lt (length (spec_encoded_stream poly K msg))). lia. }
  { unfold spec_encoded_stream. rewrite length_app. lia. }
  { unfold spec_encoded_stream. rewrite length_app. lia. }
  exists st1, st2, st3.
  split; [rewrite encode_data_run; exact H1|].
  split; [rewrite (encode_tail_run _ _ _ _ HK); exact H2|]. split; [exact H3|].
  split; [exact Hsr1|]. split; [exact Hinv1|].
  split; [|split; [exact Hinv2 | exact Hinv3]].
  rewrite Hsr2. unfold spec_register. rewrite fold_left_app. reflexivity.
Qed.

(** ** The encoder on a valid codec *)

Lemma supported_params fs :
  supported fs -> 2 <= scheme_R fs <= 6 /\ 7 <= scheme_K fs <= 15.
Proof. destruct fs; simpl; intros H; try lia; destruct H. Qed.

Lemma encoded_bits_length q msg :
  valid_codec q ->
  Z.of_nat (length (spec_encoded_stream (poly q) (K q) msg)) =
  encoded_bits (scheme q) (Z.of_nat (length msg)).
Proof.
  intros (Hs & HR & HK & Hp). apply supported_params in Hs as [HRr HKr].
  rewrite length_spec_encoded_stream. unfold encoded_bits.
  rewrite Nat2Z.inj_mul, Nat2Z.inj_add, Nat2Z.inj_mul, Hp, HR, HK.
  rewrite Z2Nat.id by lia. change (Z.of_nat 8) with 8. lia.
Qed.

Lemma enc_len_spec fs dec_len :
  fits_uint fs dec_len -> supported fs ->
  Z.of_nat (enc_len fs dec_len) = (encoded_bits fs (Z.of_nat dec_len) + 7) / 8.
Proof.
  intros Hfit Hs. apply supported_params in Hs as [HRr HKr].
  unfold enc_len, fec_get_enc_msg_length, wrap32, fits_uint in *.
  assert (0 <= encoded_bits fs (Z.of_nat dec_len)) by (unfold encoded_bits; nia).
  assert (0 <= (encoded_bits fs (Z.of_nat dec_len) + 7) / 8 < 2 ^ 32).
  { split; [apply Z.div_pos; lia|]. apply Z.div_lt_upper_bound; lia. }
  rewrite Z.mod_small by lia. rewrite Z2Nat.id by lia. reflexivity.
Qed.

Lemma padded_stream_length q msg :
  valid_codec q -> fits_uint (scheme q) (length msg) ->
  length (spec_padded_stream (poly q) (K q) msg) = (8 * enc_len (scheme q) (length msg))%nat.
Proof.
  intros Hv Hfit. pose proof Hv as (Hs & _).
  unfold spec_padded_stream. rewrite length_app, length_replicate.
  apply Nat2Z.inj. rewrite padded_length, encoded_bits_length by exact Hv.
  rewrite Nat2Z.inj_mul, enc_len_spec by assumption. reflexivity.
Qed.

Lemma padded_stream_bits polys K msg : Forall is_bit (spec_padded_stream polys K msg).
Proof.
  unfold spec_padded_stream, spec_encoded_stream, spec_data_stream, spec_flush_stream.
  repeat (apply Forall_app; split); try apply spec_stream_bits.
  apply Forall_replicate. left. reflexivity.
Qed.

Lemma fec_conv_encode_phases q msg buf :
  valid_codec q ->
  fits_uint (scheme q) (length msg) ->
  (enc_len (scheme q) (length msg) <= length buf)%nat ->
  exists st1 st2 st3,
    encode_data (R q) (poly q) (Z.of_nat (length msg)) msg (encode_init buf) = Ok st1 /\
    encode_tail (R q) (K q) (poly q) st1 = Ok st2 /\
    encode_pad st2 = Ok st3 /\
    fec_conv_encode q (Z.of_nat (length msg)) msg buf = Ok (msg_enc st3) /\
    sr st1 = wrap32 (spec_register 0 (message_bits msg)) /\
    emitted buf (spec_data_stream (poly q) msg) st1 /\
    sr st2 = wrap32 (spec_register 0 (message_bits msg ++ flush_bits (K q))) /\
    emitted buf (spec_encoded_stream (poly q) (K q) msg) st2 /\
    emitted buf (spec_padded_stream (poly q) (K q) msg) st3.
Proof.
  intros Hv Hfit Hcap. pose proof Hv as (Hs & HR & HK & Hp).
  pose proof (supported_params _ Hs) as [HRr HKr].
  pose proof (padded_stream_length q msg Hv Hfit) as Hlen.
  pose proof (enc_len_spec _ _ Hfit Hs) as HL.
  assert (Hbound : 8 * Z.of_nat (enc_len (scheme q) (length msg)) < 2 ^ 32).
  { rewrite HL. unfold fits_uint in Hfit.
    pose proof (Z.mul_div_le (encoded_bits (scheme q) (Z.of_nat (length msg)) + 7) 8
                  ltac:(lia)). lia. }
  destruct (encode_phases (R q) (K q) (poly q) msg buf Hp ltac:(lia) ltac:(lia) ltac:(lia))
    as (st1 & st2 & st3 & H1 & H2 & H3 & Hsr1 & Hinv1 & Hsr2 & Hinv2 & Hinv3).
  exists st1, st2, st3.
  split; [exact H1|]. split; [exact H2|]. split; [exact H3|].
  split; [|auto 10].
  unfold fec_conv_encode. rewrite H1, bind_Ok, H2, bind_Ok, H3, bind_Ok.
  destruct Hinv3 as (Hn3 & _). rewrite decide_True; [reflexivity|].
  assert (Hget : fec_get_enc_msg_length (scheme q) (Z.of_nat (length msg)) =
                 Z.of_nat (enc_len (scheme q) (length msg))).
  { unfold enc_len. rewrite Z2Nat.id; [reflexivity|].
    unfold fec_get_enc_msg_length, wrap32. apply Z.mod_pos_bound. lia. }
  rewrite Hn3, Hlen, Hget. unfold wrap32. rewrite Z.mod_small by lia. lia.
Qed.

Lemma fec_conv_encode_ok q msg buf :
  valid_codec q ->
  fits_uint (scheme q) (length msg) ->
  (enc_len (scheme q) (length msg) <= length buf)%nat ->
  fec_conv_encode q (Z.of_nat (length msg)) msg buf =
  Ok (pack_msb (enc_len (scheme q) (length msg)) (spec_padded_stream (poly q) (K q) msg)
      ++ drop (enc_len (scheme q) (length msg)) buf).
Proof.
  intros Hv Hfit Hcap.
  destruct (fec_conv_encode_phases q msg buf Hv Hfit Hcap)
    as (st1 & st2 & st3 & _ & _ & _ & Henc & _ & _ & _ & _ & Hinv3).
  rewrite Henc. f_equal.
  apply (emitted_full _ _ _ _ Hinv3).
  - apply padded_stream_length; assumption.
  - apply padded_stream_bits.
Qed.

(** ** Bits of bytes *)

Lemma is_bit_b2z b : is_bit b -> b = Z.b2z (b =? 1).
Proof. intros [-> | ->]; reflexivity. Qed.

(** Bit [k] from the front of a bit string is bit [length - 1 - k] of its
    value. *)
Lemma testbit_bits_value l : forall (k : nat) b,
  Forall is_bit l ->
  l !! k = Some b ->
  Z.b2z (Z.testbit (bits_value l) (Z.of_nat (length l - 1 - k))) = b.
Proof.
  induction l as [|x l IH] using rev_ind; intros k b Hbits Hk; [done|].
  apply Forall_app in Hbits as [Hl Hx]. inversion Hx as [|? ? Hx' _]; subst.
  rewrite bits_value_snoc, length_app. cbn [length].
  rewrite (is_bit_b2z x Hx') at 1.
  destruct (decide (k = length l)) as [-> | Hne].
  - rewrite lookup_app_r in Hk by lia. rewrite Nat.sub_diag in Hk.
    injection Hk as <-.
    replace (length l + 1 - 1 - length l)%nat with 0%nat by lia.
    change (Z.of_nat 0) with 0. rewrite Z.testbit_0_r.
    symmetry. apply is_bit_b2z, Hx'.
  - assert (k < length l)%nat.
    { apply lookup_lt_Some in Hk. rewrite length_app in Hk. cbn [length] in Hk. lia. }
    rewrite lookup_app_l in Hk by lia.
    replace (Z.of_nat (length l + 1 - 1 - k)) with (Z.succ (Z.of_nat (length l - 1 - k)))
      by lia.
    rewrite Z.testbit_succ_r by lia. apply IH; assumption.
Qed.

Lemma land_shiftr_bit b j : 0 <= j -> Z.land (Z.shiftr b j) 1 = Z.b2z (Z.testbit b j).
Proof.
  intros Hj. rewrite land_1_mod, <- Z.bit0_mod. rewrite Z.shiftr_spec by lia. reflexivity.
Qed.

Lemma lookup_byte_bits_testbit b (j : nat) :
  (j < 8)%nat -> byte_bits b !! j = Some (Z.b2z (Z.testbit b (7 - Z.of_nat j))).
Proof.
  intros Hj. unfold byte_bits. rewrite list_lookup_fmap, lookup_seq_lt by lia.
  cbn [fmap option_fmap option_map Nat.add]. rewrite land_shiftr_bit by lia. reflexivity.
Qed.

Lemma byte_bits_bits b : Forall is_bit (byte_bits b).
Proof.
  apply Forall_lookup. intros j x Hx.
  assert (j < 8)%nat by (apply lookup_lt_Some in Hx; rewrite length_byte_bits in Hx; lia).
  rewrite lookup_byte_bits_testbit in Hx by lia. injection Hx as <-.
  destruct (Z.testbit _ _); [right | left]; reflexivity.
Qed.

Lemma message_bits_bits msg : Forall is_bit (message_bits msg).
Proof.
  unfold message_bits. induction msg as [|b msg IH]; [constructor|].
  cbn [map concat]. apply Forall_app. split; [apply byte_bits_bits | exact IH].
Qed.

(** Reading back the bits of a chunk of eight. *)
Lemma byte_bits_value chunk :
  Forall is_bit chunk -> length chunk = 8%nat -> byte_bits (bits_value chunk) = chunk.
Proof.
  intros Hbits Hlen. apply list_eq. intros j.
  destruct (decide (j < 8)%nat) as [Hj|Hj].
  - rewrite lookup_byte_bits_testbit by lia.
    destruct (chunk !! j) as [b|] eqn:Hb.
    + f_equal. rewrite <- (testbit_bits_value chunk j b Hbits Hb). rewrite Hlen.
      do 2 f_equal. lia.
    + apply lookup_ge_None in Hb. lia.
  - rewrite !lookup_ge_None_2; [reflexivity | lia | rewrite length_byte_bits; lia].
Qed.

Lemma testbit_above_256 x k : 0 <= x < 256 -> 8 <= k -> Z.testbit x k = false.
Proof.
  intros Hx Hk. destruct (Z.eq_dec x 0) as [-> | Hne]; [apply Z.bits_0|].
  apply Z.bits_above_log2; [lia|].
  apply Z.log2_lt_pow2; [lia|]. apply Z.lt_le_trans with (2 ^ 8); [lia|].
  apply Z.pow_le_mono_r; lia.
Qed.

Lemma bits_value_byte_bits b : 0 <= b < 256 -> bits_value (byte_bits b) = b.
Proof.
  intros Hb. apply Z.bits_inj'. intros k Hk.
  pose proof (bits_value_range _ (byte_bits_bits b)) as Hr. rewrite length_byte_bits in Hr.
  change (2 ^ Z.of_nat 8) with 256 in Hr.
  destruct (Z.lt_ge_cases k 8) as [Hlt|Hge].
  - pose proof (lookup_byte_bits_testbit b (Z.to_nat (7 - k)) ltac:(lia)) as Hlk.
    pose proof (testbit_bits_value _ _ _ (byte_bits_bits b) Hlk) as Ht.
    rewrite length_byte_bits in Ht.
    replace (Z.of_nat (8 - 1 - Z.to_nat (7 - k))) with k in Ht by lia.
    replace (7 - Z.of_nat (Z.to_nat (7 - k))) with k in Ht by lia.
    destruct (Z.testbit (bits_value (byte_bits b)) k), (Z.testbit b k); simpl in Ht; congruence.
  - rewrite !testbit_above_256 by lia. reflexivity.
Qed.

(** A bit of the packed stream sits at position [7 - i mod 8] of byte
    [i / 8]. *)
Lemma stream_bit_pack (L : nat) bs rest (i : nat) b :
  Forall is_bit bs ->
  length bs = (8 * L)%nat ->
  bs !! i = Some b ->
  stream_bit (pack_msb L bs ++ rest) (Z.of_nat i) = Some b.
Proof.
  intros Hbits Hlen Hb. pose proof (lookup_lt_Some _ _ _ Hb) as Hi.
  unfold stream_bit.
  assert (Hq : Z.to_nat (Z.of_nat i / 8) = (i / 8)%nat).
  { rewrite <- (Nat2Z.id (i / 8)). f_equal. rewrite Nat2Z.inj_div. reflexivity. }
  assert (Hr : Z.of_nat i mod 8 = Z.of_nat (i mod 8)).
  { rewrite Nat2Z.inj_mod. reflexivity. }
  pose proof (Nat.div_mod_eq i 8) as Hdm.
  pose proof (Nat.mod_upper_bound i 8 ltac:(lia)) as Hm.
  rewrite Hq, Hr.
  rewrite lookup_app_l by (rewrite length_pack_msb; lia).
  rewrite lookup_pack_msb by lia.
  rewrite resize_full by (rewrite length_drop; lia).
  cbn [fmap option_fmap option_map]. f_equal.
  set (chunk := take 8 (drop (8 * (i / 8)) bs)).
  assert (Hcl : length chunk = 8%nat).
  { unfold chunk. rewrite length_take, length_drop. lia. }
  assert (Hc : chunk !! (i mod 8)%nat = Some b).
  { unfold chunk. rewrite lookup_take_lt by lia. rewrite lookup_drop.
    rewrite <- Hdm. exact Hb. }
  pose proof (testbit_bits_value chunk _ _
                (Forall_take _ _ _ (Forall_drop _ _ _ Hbits)) Hc) as Ht.
  rewrite Hcl in Ht. rewrite <- Ht. do 2 f_equal. lia.
Qed.

(** ** The trellis *)

(** ** Parity under a single bit flip *)

Lemma xor_fold_ext (f g : nat -> bool) (l : list nat) :
  (forall i, In i l -> f i = g i) ->
  fold_right xorb false (map f l) = fold_right xorb false (map g l).
Proof.
  induction l as [|x l IH]; intros H; [reflexivity|].
  cbn [map fold_right]. rewrite (H x) by (left; reflexivity).
  rewrite IH; [reflexivity|]. intros i Hi. apply H. right. exact Hi.
Qed.

Lemma xor_fold_flip (f g : nat -> bool) (j : nat) (l : list nat) :
  List.NoDup l -> In j l ->
  (forall i, In i l -> i <> j -> f i = g i) ->
  f j = negb (g j) ->
  fold_right xorb false (map f l) = negb (fold_right xorb false (map g l)).
Proof.
  induction l as [|x l IH]; intros Hnd Hin Hsame Hj; [destruct Hin|].
  inversion Hnd as [|? ? Hx Hnd']; subst. cbn [map fold_right].
  destruct Hin as [-> | Hin].
  - rewrite Hj. rewrite (xor_fold_ext f g l).
    + destruct (g j), (fold_right xorb false (map g l)); reflexivity.
    + intros i Hi. apply Hsame; [right; exact Hi|]. intros ->. contradiction.
  - rewrite IH; auto.
    + rewrite (Hsame x); [|left; reflexivity|intros ->; contradiction].
      destruct (g x), (fold_right xorb false (map g l)); reflexivity.
    + intros i Hi Hne. apply Hsame; [right; exact Hi | exact Hne].
Qed.

Lemma parity_flip x y (j : Z) :
  0 <= j < 32 ->
  (forall i, 0 <= i < 32 -> i <> j -> Z.testbit x i = Z.testbit y i) ->
  Z.testbit x j = negb (Z.testbit y j) ->
  parity x = 1 - parity y.
Proof.
  intros Hj Hsame Hflip. unfold parity.
  rewrite (xor_fold_flip (fun i => Z.testbit x (Z.of_nat i))
             (fun i => Z.testbit y (Z.of_nat i)) (Z.to_nat j)).
  - destruct (fold_right _ _ _); reflexivity.
  - apply List.seq_NoDup.
  - apply in_seq. lia.
  - intros i Hi Hne. apply in_seq in Hi. apply Hsame; lia.
  - rewrite Z2Nat.id by lia. exact Hflip.
Qed.

(** ** Arithmetic of the trellis *)

Section TrellisFacts.
Variable K : Z.
Hypothesis HK : 2 <= K <= 32.

Lemma num_states_double : num_states K = 2 * 2 ^ (K - 2).
Proof.
  unfold num_states. replace (K - 1) with (Z.succ (K - 2)) by lia.
  rewrite Z.pow_succ_r by lia. reflexivity.
Qed.

Lemma half_pos : 0 < 2 ^ (K - 2).
Proof. apply Z.pow_pos_nonneg; lia. Qed.

Lemma num_states_le : 2 * num_states K <= 2 ^ 32.
Proof.
  unfold num_states. replace (2 * 2 ^ (K - 1)) with (2 ^ K).
  - apply Z.pow_le_mono_r; lia.
  - replace K with (Z.succ (K - 1)) at 1 by lia. rewrite Z.pow_succ_r by lia. reflexivity.
Qed.

Lemma pushed_small s b :
  0 <= s < num_states K -> 0 <= b <= 1 -> pushed s b = 2 * s + b.
Proof.
  intros Hs Hb. unfold pushed. rewrite lor_shiftl_bit by lia.
  unfold wrap32. apply Z.mod_small. pose proof num_states_le. lia.
Qed.

Lemma next_state_small s b :
  0 <= s < num_states K -> 0 <= b <= 1 ->
  next_state K s b = 2 * (s mod 2 ^ (K - 2)) + b.
Proof.
  intros Hs Hb. unfold next_state. rewrite pushed_small by assumption.
  rewrite num_states_double. pose proof half_pos.
  symmetry. apply Z.mod_unique with (q := s / 2 ^ (K - 2)).
  - left. pose proof (Z.mod_pos_bound s (2 ^ (K - 2)) ltac:(lia)). lia.
  - pose proof (Z.div_mod s (2 ^ (K - 2)) ltac:(lia)). lia.
Qed.

Lemma next_state_range s b :
  0 <= s < num_states K -> 0 <= b <= 1 -> 0 <= next_state K s b < num_states K.
Proof.
  intros Hs Hb. rewrite next_state_small by assumption. rewrite num_states_double.
  pose proof half_pos. pose proof (Z.mod_pos_bound s (2 ^ (K - 2)) ltac:(lia)). lia.
Qed.

Lemma next_state_bit s b :
  0 <= s < num_states K -> 0 <= b <= 1 -> Z.land (next_state K s b) 1 = b.
Proof.
  intros Hs Hb. rewrite next_state_small by assumption. rewrite land_1_mod.
  rewrite Z.add_comm, Z.mul_comm, Z.mod_add by lia. apply Z.mod_small. lia.
Qed.

Lemma pred0_next s b :
  0 <= s < num_states K -> 0 <= b <= 1 ->
  pred0 (next_state K s b) = s mod 2 ^ (K - 2).
Proof.
  intros Hs Hb. rewrite next_state_small by assumption. unfold pred0.
  rewrite Z.shiftr_div_pow2 by lia. change (2 ^ 1) with 2.
  rewrite Z.add_comm, Z.mul_comm, Z.div_add by lia.
  rewrite Z.div_small by lia. reflexivity.
Qed.

Lemma lor_pow2_add a k : 0 <= k -> 0 <= a < 2 ^ k -> Z.lor a (2 ^ k) = a + 2 ^ k.
Proof.
  intros Hk Ha. rewrite <- Z.lxor_lor, <- Z.add_nocarry_lxor; auto.
  all: apply Z.bits_inj'; intros i Hi; rewrite Z.land_spec, Z.bits_0, Z.pow2_bits_eqb by lia;
    destruct (Z.eqb_spec k i) as [<- | Hne]; [|apply andb_false_r];
    rewrite andb_true_r; rewrite <- (Z.mod_small a (2 ^ k)) by lia;
    apply Z.mod_pow2_bits_high; lia.
Qed.

Lemma pred1_next s b :
  0 <= s < num_states K -> 0 <= b <= 1 ->
  pred1 K (next_state K s b) = s mod 2 ^ (K - 2) + 2 ^ (K - 2).
Proof.
  intros Hs Hb. unfold pred1. fold (pred0 (next_state K s b)).
  rewrite pred0_next by assumption. apply lor_pow2_add; [lia|].
  apply Z.mod_pos_bound, half_pos.
Qed.

Lemma state_split s :
  0 <= s < num_states K ->
  s = s mod 2 ^ (K - 2) \/ s = s mod 2 ^ (K - 2) + 2 ^ (K - 2).
Proof.
  intros Hs. rewrite num_states_double in Hs. pose proof half_pos.
  pose proof (Z.div_mod s (2 ^ (K - 2)) ltac:(lia)).
  pose proof (Z.mod_pos_bound s (2 ^ (K - 2)) ltac:(lia)).
  assert (s / 2 ^ (K - 2) = 0 \/ s / 2 ^ (K - 2) = 1) as [E|E].
  { assert (0 <= s / 2 ^ (K - 2)) by (apply Z.div_pos; lia).
    assert (s / 2 ^ (K - 2) < 2) by (apply Z.div_lt_upper_bound; lia). lia. }
  - left. lia.
  - right. lia.
Qed.

(** The two predecessors of a state emit different symbols on every
    stream whose polynomial taps bit [K - 1]. *)
Lemma branch_parity_flip l b p :
  0 <= l < 2 ^ (K - 2) -> 0 <= b <= 1 ->
  Z.testbit p (K - 1) = true ->
  parity (Z.land (pushed (l + 2 ^ (K - 2)) b) (wrap32 p)) =
  1 - parity (Z.land (pushed l b) (wrap32 p)).
Proof.
  intros Hl Hb Hp. pose proof half_pos. pose proof num_states_double as Hn.
  rewrite !pushed_small by lia.
  assert (Hpow : 2 * 2 ^ (K - 2) = 2 ^ (K - 1)).
  { replace (K - 1) with (Z.succ (K - 2)) by lia. rewrite Z.pow_succ_r by lia. lia. }
  replace (2 * (l + 2 ^ (K - 2)) + b) with ((2 * l + b) + 2 ^ (K - 1)) by lia.
  rewrite <- lor_pow2_add by lia.
  apply (parity_flip _ _ (K - 1)); [lia | |].
  - intros i Hi Hne. rewrite !Z.land_spec, Z.lor_spec, Z.pow2_bits_eqb by lia.
    destruct (Z.eqb_spec (K - 1) i); [lia|]. rewrite orb_false_r. reflexivity.
  - rewrite !Z.land_spec, Z.lor_spec, Z.pow2_bits_eqb by lia. rewrite Z.eqb_refl.
    unfold wrap32. rewrite Z.mod_pow2_bits_low by lia. rewrite Hp.
    rewrite orb_true_r. cbn [andb]. rewrite andb_true_r.
    rewrite <- (Z.mod_small (2 * l + b) (2 ^ (K - 1))) by lia.
    rewrite Z.mod_pow2_bits_high by lia. reflexivity.
Qed.
End TrellisFacts.

(** ** One step of the decoder along the sent path *)

Section ViterbiPath.
Variables (K : Z) (poly : list Z) (s0 s1 : Z).
Hypothesis HK : 2 <= K <= 32.
Hypothesis Hsoft : wrap8 s0 <> wrap8 s1.
Hypothesis Htap : Exists (fun p => Z.testbit p (K - 1) = true) poly.

Local Abbreviation soft := (softbit s0 s1).
Local Abbreviation bmetric := (branch_metric s0 s1).

Lemma softbit_inj a b : is_bit a -> is_bit b -> soft a = soft b -> a = b.
Proof.
  unfold softbit. intros [-> | ->] [-> | ->]; simpl; intros E; congruence.
Qed.

Lemma branch_metric_nonneg es ys : 0 <= bmetric es ys.
Proof.
  revert ys. induction es as [|e es IH]; intros [|y ys]; simpl; try lia.
  specialize (IH ys). unfold symbol_distance. case_decide; lia.
Qed.

Lemma branch_metric_self es : bmetric es (map soft es) = 0.
Proof.
  induction es as [|e es IH]; [reflexivity|]. cbn [map branch_metric].
  rewrite IH. unfold symbol_distance. rewrite decide_True by reflexivity. lia.
Qed.

Lemma branch_metric_differ (f g : Z -> Z) ps :
  (forall p, is_bit (f p) /\ is_bit (g p)) ->
  (forall p, Z.testbit p (K - 1) = true -> f p <> g p) ->
  Exists (fun p => Z.testbit p (K - 1) = true) ps ->
  1 <= bmetric (map f ps) (map soft (map g ps)).
Proof.
  intros Hbits Hdiff Hex. induction Hex as [p ps Hp | p ps Hex IH].
  - cbn [map branch_metric].
    pose proof (branch_metric_nonneg (map f ps) (map soft (map g ps))).
    unfold symbol_distance. rewrite decide_False; [lia|].
    intros E. apply softbit_inj in E; [|apply Hbits..].
    apply (Hdiff p Hp). symmetry. exact E.
  - cbn [map branch_metric].
    unfold symbol_distance. case_decide; lia.
Qed.

(** Expected symbols of the other predecessor are at distance at least
    one from the symbols of the true branch. *)
Lemma branch_metric_other l b :
  0 <= l < 2 ^ (K - 2) -> 0 <= b <= 1 ->
  1 <= bmetric (branch_output poly (l + 2 ^ (K - 2)) b)
                     (map soft (branch_output poly l b)) /\
  1 <= bmetric (branch_output poly l b)
                     (map soft (branch_output poly (l + 2 ^ (K - 2)) b)).
Proof.
  intros Hl Hb. unfold branch_output. split.
  - apply (branch_metric_differ
             (fun p => parity (Z.land (pushed (l + 2 ^ (K - 2)) b) (wrap32 p)))
             (fun p => parity (Z.land (pushed l b) (wrap32 p)))); [| |exact Htap].
    + intros p. split; apply parity_bit.
    + intros p Hp. rewrite (branch_parity_flip K HK l b p Hl Hb Hp).
      pose proof (parity_range (Z.land (pushed l b) (wrap32 p))). lia.
  - apply (branch_metric_differ
             (fun p => parity (Z.land (pushed l b) (wrap32 p)))
             (fun p => parity (Z.land (pushed (l + 2 ^ (K - 2)) b) (wrap32 p))));
      [| |exact Htap].
    + intros p. split; apply parity_bit.
    + intros p Hp. rewrite (branch_parity_flip K HK l b p Hl Hb Hp).
      pose proof (parity_range (Z.land (pushed l b) (wrap32 p))). lia.
Qed.

Lemma num_states_pos : 0 < num_states K.
Proof. unfold num_states. apply Z.pow_pos_nonneg; lia. Qed.

Lemma length_states : Z.of_nat (length (states K)) = num_states K.
Proof.
  unfold states. rewrite length_map, length_seq. pose proof num_states_pos. lia.
Qed.

Lemma lookup_states s : 0 <= s < num_states K -> states K !! Z.to_nat s = Some s.
Proof.
  intros Hs. unfold states. rewrite list_lookup_fmap, lookup_seq_lt by lia.
  cbn. f_equal. lia.
Qed.

Lemma states_range s : s ∈ states K -> 0 <= s < num_states K.
Proof.
  unfold states. intros Hin. apply list_elem_of_fmap in Hin as (i & -> & Hi).
  apply elem_of_seq in Hi. lia.
Qed.

Lemma candidate_nonneg ms syms p s x :
  metrics_ok K ms -> candidate poly s0 s1 ms syms p s = Some x -> 0 <= x.
Proof.
  intros [_ Hms] Hc. unfold candidate in Hc.
  destruct (ms !! Z.to_nat p) as [[m|]|] eqn:Hm; try discriminate.
  injection Hc as <-. rewrite Forall_lookup in Hms. specialize (Hms _ _ Hm). simpl in Hms.
  pose proof (branch_metric_nonneg (branch_output poly p (Z.land s 1)) syms). lia.
Qed.

Lemma select_nonneg c0 c1 p0 p1 x :
  (forall a, c0 = Some a -> 0 <= a) -> (forall a, c1 = Some a -> 0 <= a) ->
  fst (select c0 c1 p0 p1) = Some x -> 0 <= x.
Proof.
  intros H0 H1. unfold select. destruct c0 as [a|], c1 as [b|]; simpl.
  - destruct (b <? a); simpl; intros [= <-]; auto.
  - intros [= <-]; auto.
  - intros [= <-]; auto.
  - discriminate.
Qed.

Lemma update_step_ok ms syms :
  metrics_ok K ms -> metrics_ok K (fst (update_step K poly s0 s1 ms syms)).
Proof.
  intros Hms. unfold update_step. cbn [fst]. split.
  - rewrite !length_map. apply length_states.
  - apply Forall_fmap, Forall_fmap, Forall_forall. intros s _. cbn.
    destruct (fst (update_state K poly s0 s1 ms syms s)) as [x|] eqn:E; [|exact I].
    unfold update_state in E. apply select_nonneg in E; [exact E| |];
      intros a Ha; eapply candidate_nonneg; eauto.
Qed.

Lemma lookup_update_step ms syms s :
  0 <= s < num_states K ->
  fst (update_step K poly s0 s1 ms syms) !! Z.to_nat s =
    Some (fst (update_state K poly s0 s1 ms syms s)) /\
  snd (update_step K poly s0 s1 ms syms) !! Z.to_nat s =
    Some (snd (update_state K poly s0 s1 ms syms s)).
Proof.
  intros Hs. unfold update_step. cbn [fst snd].
  rewrite !list_lookup_fmap, lookup_states by exact Hs. split; reflexivity.
Qed.

(** One step along the true path: the state reached from [s] on input
    bit [b] gets metric 0 and records [s] as its predecessor. *)
Lemma update_state_true ms s b :
  metrics_ok K ms ->
  0 <= s < num_states K -> 0 <= b <= 1 ->
  ms !! Z.to_nat s = Some (Some 0) ->
  update_state K poly s0 s1 ms (map soft (branch_output poly s b)) (next_state K s b)
  = (Some 0, s).
Proof.
  intros Hms Hs Hb Hm.
  pose proof (half_pos K HK) as Hh.
  pose proof (Z.mod_pos_bound s (2 ^ (K - 2)) Hh) as Hl.
  pose proof (num_states_double K HK) as Hn.
  unfold update_state.
  rewrite (pred0_next K HK s b Hs Hb), (pred1_next K HK s b Hs Hb).
  unfold candidate. rewrite (next_state_bit K HK s b Hs Hb).
  set (l := s mod 2 ^ (K - 2)) in *.
  destruct (branch_metric_other l b Hl Hb) as [Hup Hdown].
  destruct (state_split K HK s Hs) as [E|E]; fold l in E; clearbody l; subst s.
  - (* the true predecessor is the one with oldest bit 0 *)
    rewrite Hm, branch_metric_self.
    destruct (ms !! Z.to_nat (l + 2 ^ (K - 2))) as [[m|]|] eqn:Ho; cbn [select];
      try reflexivity.
    destruct Hms as [_ Hall]. rewrite Forall_lookup in Hall.
    specialize (Hall _ _ Ho). simpl in Hall.
    destruct (Z.ltb_spec (m + bmetric (branch_output poly (l + 2 ^ (K - 2)) b)
                 (map soft (branch_output poly l b))) (0 + 0)); [lia|reflexivity].
  - (* the true predecessor is the one with oldest bit 1 *)
    rewrite Hm, branch_metric_self.
    destruct (ms !! Z.to_nat l) as [[m|]|] eqn:Ho; cbn [select]; try reflexivity.
    destruct Hms as [_ Hall]. rewrite Forall_lookup in Hall.
    specialize (Hall _ _ Ho). simpl in Hall.
    destruct (Z.ltb_spec (0 + 0) (m + bmetric (branch_output poly l b)
                 (map soft (branch_output poly (l + 2 ^ (K - 2)) b))));
      [reflexivity|lia].
Qed.
End ViterbiPath.

(** ** The update loop along the sent path *)

Section ViterbiRun.
Variables (K : Z) (poly : list Z) (s0 s1 : Z).
Hypothesis HK : 2 <= K <= 32.
Hypothesis Hsoft : wrap8 s0 <> wrap8 s1.
Hypothesis Htap : Exists (fun p => Z.testbit p (K - 1) = true) poly.

Lemma path_state_S bits k b :
  bits !! k = Some b ->
  path_state K bits (Datatypes.S k) = next_state K (path_state K bits k) b.
Proof.
  intros Hb. unfold path_state. rewrite (take_S_r _ _ _ Hb), fold_left_app. reflexivity.
Qed.

Lemma path_state_range bits k :
  Forall is_bit bits -> 0 <= path_state K bits k < num_states K.
Proof.
  intros Hbits. induction k as [|k IH].
  - unfold path_state. rewrite take_0. simpl. pose proof (num_states_pos K HK). lia.
  - destruct (bits !! k) as [b|] eqn:Hb.
    + rewrite (path_state_S _ _ _ Hb). apply next_state_range; [exact HK | exact IH |].
      rewrite Forall_lookup in Hbits. destruct (Hbits _ _ Hb) as [-> | ->]; lia.
    + unfold path_state in *. apply lookup_ge_None in Hb.
      rewrite take_ge by lia. rewrite take_ge in IH by lia. exact IH.
Qed.

Lemma update_loop_path bits buf v (k : nat) :
  Forall is_bit bits ->
  (forall (t : nat) b, bits !! t = Some b ->
     symbol_group poly buf (Z.of_nat t) = Ok (sent_group K poly s0 s1 bits t b)) ->
  metrics_ok K (metrics v) ->
  metrics v !! 0%nat = Some (Some 0) ->
  survivors v = [] ->
  (k <= length bits)%nat ->
  exists w,
    for_loop k 0 (viterbi_update_body K poly s0 s1 (Some buf)) v = Ok w /\
    v_len w = v_len v /\
    (k <> 0%nat -> v_phase w = Decoding) /\
    metrics_ok K (metrics w) /\
    metrics w !! Z.to_nat (path_state K bits k) = Some (Some 0) /\
    length (survivors w) = k /\
    walk_back (rev (survivors w)) (path_state K bits k) = rev (take k bits).
Proof.
  intros Hbits Hsyms Hms H0 Hsurv. induction k as [|k IH]; intros Hk.
  - exists v. cbn [for_loop]. rewrite Hsurv. unfold path_state. rewrite take_0.
    cbn [fold_left]. change (Z.to_nat 0) with 0%nat.
    split; [reflexivity|]. split; [reflexivity|]. split; [congruence|].
    split; [exact Hms|]. split; [exact H0|]. split; reflexivity.
  - destruct IH as (w & Hrun & Hlen & _ & Hmw & Hpath & Hrows & Hwalk); [lia|].
    destruct (bits !! k) as [b|] eqn:Hb; [|apply lookup_ge_None in Hb; lia].
    assert (Hbit : 0 <= b <= 1).
    { rewrite Forall_lookup in Hbits. destruct (Hbits _ _ Hb) as [-> | ->]; lia. }
    pose proof (path_state_range bits k Hbits) as Hs.
    pose proof (path_state_range bits (Datatypes.S k) Hbits) as Hs'.
    rewrite for_loop_snoc, Hrun, bind_Ok. rewrite Z.add_0_l.
    unfold viterbi_update_body. rewrite bind_Ok, (Hsyms _ _ Hb), bind_Ok.
    destruct (update_step K poly s0 s1 (metrics w) (sent_group K poly s0 s1 bits k b))
      as [ms row] eqn:Hstep.
    eexists. split; [reflexivity|]. cbn [v_len v_phase metrics survivors].
    pose proof (update_step_ok K poly s0 s1 HK (metrics w) (sent_group K poly s0 s1 bits k b) Hmw)
      as Hok.
    pose proof (lookup_update_step K poly s0 s1 (metrics w) (sent_group K poly s0 s1 bits k b)
                  _ Hs') as [Hfst Hsnd].
    rewrite Hstep in Hok, Hfst, Hsnd. cbn [fst snd] in Hok, Hfst, Hsnd.
    rewrite (path_state_S _ _ _ Hb) in Hfst, Hsnd.
    unfold sent_group in Hfst, Hsnd.
    rewrite (update_state_true K poly s0 s1 HK Hsoft Htap (metrics w) _ b Hmw Hs Hbit Hpath)
      in Hfst, Hsnd.
    cbn [fst snd] in Hfst, Hsnd.
    split; [exact Hlen|]. split; [reflexivity|]. split; [exact Hok|].
    rewrite (path_state_S _ _ _ Hb).
    split; [exact Hfst|]. split; [rewrite length_app; cbn [length]; lia|].
    rewrite rev_app_distr. cbn [rev app walk_back].
    rewrite Hsnd. unfold default. cbn [from_option id]. rewrite Hwalk.
    rewrite (next_state_bit K HK _ b Hs Hbit).
    rewrite (take_S_r _ _ _ Hb), rev_app_distr. reflexivity.
Qed.
End ViterbiRun.

(** ** The encoded stream as trellis branches *)

Lemma length_spec_parities polys reg : length (spec_parities polys reg) = length polys.
Proof. unfold spec_parities. apply length_map. Qed.

(** The [t]-th group of the encoded stream holds the parities of the
    register after [t + 1] pushes. *)
Lemma spec_stream_group polys bits : forall reg (t : nat) b rest,
  bits !! t = Some b ->
  take (length polys) (drop (length polys * t) (spec_stream polys reg bits ++ rest)) =
  spec_parities polys (spec_push (spec_register reg (take t bits)) b).
Proof.
  induction bits as [|x bits IH]; intros reg t b rest Hb; [done|].
  destruct t as [|t].
  - injection Hb as ->. rewrite Nat.mul_0_r, drop_0. cbn [spec_stream take].
    unfold spec_register. cbn [fold_left]. rewrite <- !app_assoc.
    rewrite take_app_length'; [reflexivity | symmetry; apply length_spec_parities].
  - cbn [spec_stream take]. rewrite <- !app_assoc.
    replace (length polys * Datatypes.S t)%nat
      with (length (spec_parities polys (spec_push reg x)) + length polys * t)%nat
      by (rewrite length_spec_parities; lia).
    rewrite drop_app_add. unfold spec_register. cbn [fold_left].
    apply (IH (spec_push reg x) t b rest). exact Hb.
Qed.

Lemma symbol_group_take poly buf (t : nat) :
  (length poly * Datatypes.S t <= length buf)%nat ->
  symbol_group poly buf (Z.of_nat t) = Ok (take (length poly) (drop (length poly * t) buf)).
Proof.
  intros Hlen. unfold symbol_group.
  set (g := take (length poly) (drop (length poly * t) buf)).
  assert (Hg : length g = length poly).
  { unfold g. rewrite length_take, length_drop. lia. }
  rewrite <- Hg at 1.
  rewrite (for_loop_run_list g _ (fun y acc => Ok (acc ++ [y]))).
  - assert (Hrun : forall l acc, run_list (fun (y : Z) acc => Ok (acc ++ [y])) l acc
                                = Ok (acc ++ l)).
    { induction l as [|y l IHl]; intros acc; cbn [run_list].
      - rewrite app_nil_r. reflexivity.
      - rewrite bind_Ok, IHl, <- app_assoc. reflexivity. }
    apply Hrun.
  - intros i a acc Hi. rewrite Z.add_0_l.
    pose proof (lookup_lt_Some _ _ _ Hi) as Hlt. rewrite Hg in Hlt. unfold g in Hi.
    rewrite lookup_take_lt, lookup_drop in Hi by lia.
    replace (Z.of_nat (length poly) * Z.of_nat t + Z.of_nat i)
      with (Z.of_nat (length poly * t + i)) by lia.
    rewrite (load_lookup _ _ _ Hi). reflexivity.
Qed.

Section TrellisEncoder.
Variables (K : Z) (poly : list Z).
Hypothesis HK : 2 <= K <= 32.
Hypothesis Hpoly : Forall (fun p => 0 <= p < 2 ^ K) poly.

Lemma testbit_poly_high p i : 0 <= p < 2 ^ K -> K <= i -> Z.testbit p i = false.
Proof.
  intros Hp Hi. rewrite <- (Z.mod_small p (2 ^ K)) by lia.
  apply Z.mod_pow2_bits_high. lia.
Qed.

Lemma testbit_pushed_mod x b i :
  0 <= i < K ->
  Z.testbit (pushed (x mod num_states K) b) i = Z.testbit (spec_push x b) i.
Proof.
  intros Hi. unfold pushed, spec_push, wrap32, num_states.
  rewrite Z.mod_pow2_bits_low by lia. rewrite !Z.lor_spec. f_equal.
  rewrite !Z.shiftl_spec by lia.
  destruct (Z.lt_ge_cases (i - 1) 0).
  - rewrite !Z.testbit_neg_r by lia. reflexivity.
  - rewrite Z.mod_pow2_bits_low by lia. reflexivity.
Qed.

Lemma branch_output_spec x b :
  branch_output poly (x mod num_states K) b = spec_parities poly (spec_push x b).
Proof.
  unfold branch_output, spec_parities. apply map_ext_Forall.
  eapply Forall_impl; [exact Hpoly|]. intros p Hp. cbn beta.
  apply parity_ext. intros i Hi. rewrite !Z.land_spec.
  assert (Z.testbit (wrap32 p) i = Z.testbit p i) as ->
    by (unfold wrap32; apply Z.mod_pow2_bits_low; lia).
  destruct (Z.lt_ge_cases i K) as [Hlt|Hge].
  - rewrite testbit_pushed_mod by lia. reflexivity.
  - rewrite (testbit_poly_high p i Hp Hge), !andb_false_r. reflexivity.
Qed.

Lemma next_state_spec x b :
  next_state K (x mod num_states K) b = spec_push x b mod num_states K.
Proof.
  unfold next_state. apply Z.bits_inj'. intros i Hi.
  assert (Hmod : forall y, Z.testbit (y mod num_states K) i =
                   if i <? K - 1 then Z.testbit y i else false).
  { intros y. unfold num_states. destruct (Z.ltb_spec i (K - 1)).
    - apply Z.mod_pow2_bits_low. lia.
    - apply Z.mod_pow2_bits_high. lia. }
  rewrite (Hmod (pushed _ _)), (Hmod (spec_push _ _)).
  destruct (Z.ltb_spec i (K - 1)); [|reflexivity].
  apply testbit_pushed_mod. lia.
Qed.

Lemma fold_next_state_spec bits : forall x,
  fold_left (next_state K) bits (x mod num_states K) =
  spec_register x bits mod num_states K.
Proof.
  induction bits as [|b bits IH]; intros x; [reflexivity|].
  unfold spec_register in *. cbn [fold_left]. rewrite next_state_spec. apply IH.
Qed.

Lemma path_state_spec bits k :
  path_state K bits k = spec_register 0 (take k bits) mod num_states K.
Proof.
  unfold path_state. rewrite <- fold_next_state_spec. f_equal.
Qed.

Lemma spec_register_flush x k :
  spec_register x (replicate k 0) = x * 2 ^ Z.of_nat k.
Proof.
  revert x. induction k as [|k IH]; intros x.
  - unfold spec_register. simpl. lia.
  - unfold spec_register in *. cbn [replicate fold_left]. rewrite IH.
    unfold spec_push. rewrite Z.lor_0_r, Z.shiftl_mul_pow2 by lia.
    rewrite Nat2Z.inj_succ, Z.pow_succ_r by lia. lia.
Qed.

Lemma spec_register_flushed bits :
  spec_register 0 (bits ++ flush_bits K) mod num_states K = 0.
Proof.
  unfold spec_register. rewrite fold_left_app. fold (spec_register 0 bits).
  fold (spec_register (spec_register 0 bits) (flush_bits K)).
  unfold flush_bits. rewrite spec_register_flush. unfold num_states.
  rewrite Z2Nat.id by lia. apply Z.mod_mul.
  apply Z.pow_nonzero; lia.
Qed.

(** The received groups are the symbols of the true path. *)
Lemma sent_group_stream s0 s1 bits rest (t : nat) b :
  bits !! t = Some b ->
  take (length poly)
       (drop (length poly * t) (map (softbit s0 s1) (spec_stream poly 0 bits ++ rest))) =
  sent_group K poly s0 s1 bits t b.
Proof.
  intros Hb. rewrite skipn_map, firstn_map.
  rewrite (spec_stream_group poly bits 0 t b rest Hb).
  unfold sent_group. rewrite path_state_spec, branch_output_spec. reflexivity.
Qed.
End TrellisEncoder.

(** ** Unpacking and scaling *)

Lemma store_insert buf (i : nat) v :
  (i < length buf)%nat -> store buf (Z.of_nat i) v = Ok (<[i := v]> buf).
Proof. intros Hi. unfold store. rewrite decide_True by lia. rewrite Nat2Z.id. reflexivity. Qed.

Lemma insert_middle (pre : list Z) (l : list Z) (k : nat) x v :
  l !! k = Some x ->
  <[(length pre + 0)%nat := v]> (pre ++ drop k l) = pre ++ v :: drop (Datatypes.S k) l.
Proof.
  intros Hx. rewrite insert_app_r. f_equal.
  rewrite (drop_S _ _ _ Hx). reflexivity.
Qed.

(** A loop that stores the values [vals] at consecutive indices from [base]. *)
Lemma store_vals_loop (vals : list Z) (g : Z -> Z) (base : nat) (ix : Z -> Z) buf :
  (forall (j : nat) v, vals !! j = Some v -> g (Z.of_nat j) = v) ->
  (forall j : nat, ix (Z.of_nat j) = Z.of_nat (base + j)) ->
  (base + length vals <= length buf)%nat ->
  for_loop (length vals) 0 (fun j b => store b (ix j) (g j)) buf =
  Ok (take base buf ++ vals ++ drop (base + length vals) buf).
Proof.
  intros Hg Hix Hlen.
  assert (Hk : forall k, (k <= length vals)%nat ->
            for_loop k 0 (fun j b => store b (ix j) (g j)) buf =
            Ok (take base buf ++ take k vals ++ drop (base + k) buf)).
  { induction k as [|k IH]; intros Hk.
    - cbn [for_loop]. rewrite take_0, Nat.add_0_r. cbn [app]. rewrite take_drop. reflexivity.
    - rewrite for_loop_snoc, IH, bind_Ok by lia. rewrite Z.add_0_l, Hix.
      destruct (vals !! k) as [v|] eqn:Hv; [|apply lookup_ge_None in Hv; lia].
      rewrite (Hg _ _ Hv).
      destruct (buf !! (base + k)%nat) as [x|] eqn:Hx; [|apply lookup_ge_None in Hx; lia].
      rewrite store_insert.
      2:{ rewrite !length_app, !length_take, length_drop. lia. }
      f_equal. rewrite app_assoc.
      replace (base + k)%nat
        with (length (take base buf ++ take k vals) + 0)%nat at 1
        by (rewrite length_app, !length_take; lia).
      rewrite (insert_middle _ _ _ x _ Hx).
      rewrite (take_S_r _ _ _ Hv), <- !app_assoc. cbn [app].
      replace (base + Datatypes.S k)%nat with (Datatypes.S (base + k)) by lia.
      reflexivity. }
  rewrite Hk by lia. rewrite firstn_all. reflexivity.
Qed.

Lemma unpack_byte_run enc (i : nat) byte buf :
  enc !! i = Some byte ->
  (8 * i + 8 <= length buf)%nat ->
  unpack_byte enc (Z.of_nat i) (Some buf) =
  Ok (Some (take (8 * i) buf ++ byte_bits byte ++ drop (8 * i + 8) buf)).
Proof.
  intros Hb Hlen. unfold unpack_byte. rewrite (load_lookup _ _ _ Hb), bind_Ok.
  change 8%nat with (length (byte_bits byte)) at 1.
  rewrite (store_vals_loop (byte_bits byte) _ (8 * i)).
  - rewrite bind_Ok, length_byte_bits. reflexivity.
  - intros j v Hv. apply lookup_byte_bits in Hv. rewrite Hv. reflexivity.
  - intros j. lia.
  - rewrite length_byte_bits. lia.
Qed.

Lemma message_bits_snoc msg b : message_bits (msg ++ [b]) = message_bits msg ++ byte_bits b.
Proof.
  unfold message_bits. rewrite map_app, concat_app. cbn [map concat].
  rewrite app_nil_r. reflexivity.
Qed.

Lemma unpack_loop enc eb (k : nat) :
  (k <= length enc)%nat ->
  (8 * k <= length eb)%nat ->
  for_loop k 0 (unpack_byte enc) (Some eb) =
  Ok (Some (message_bits (take k enc) ++ drop (8 * k) eb)).
Proof.
  induction k as [|k IH]; intros Hk Hlen.
  - cbn [for_loop]. rewrite take_0, Nat.mul_0_r, drop_0. reflexivity.
  - rewrite for_loop_snoc, IH, bind_Ok by lia. rewrite Z.add_0_l.
    destruct (enc !! k) as [byte|] eqn:Hb; [|apply lookup_ge_None in Hb; lia].
    rewrite (unpack_byte_run _ _ _ _ Hb).
    2:{ rewrite length_app, length_message_bits, length_take, length_drop. lia. }
    do 2 f_equal. rewrite (take_S_r _ _ _ Hb), message_bits_snoc, <- app_assoc.
    rewrite take_app_length'.
    2:{ rewrite length_message_bits, length_take. lia. }
    f_equal. f_equal.
    replace (8 * k + 8)%nat with (length (message_bits (take k enc)) + 8)%nat
      by (rewrite length_message_bits, length_take; lia).
    rewrite drop_app_add, drop_drop. f_equal. lia.
Qed.

Lemma liquid_unpack_bytes_ok enc (N : nat) eb out_len :
  (N <= length enc)%nat ->
  length eb = (8 * N)%nat ->
  liquid_unpack_bytes enc (Z.of_nat N) (Some eb) out_len =
  Ok (Some (message_bits (take N enc)), wrap32 (8 * Z.of_nat N)).
Proof.
  intros HN Hlen. unfold liquid_unpack_bytes. rewrite Nat2Z.id.
  rewrite unpack_loop by lia. rewrite bind_Ok.
  rewrite drop_ge by lia. rewrite app_nil_r. reflexivity.
Qed.

Section Scaling.
Variables (s0 s1 : Z).

Lemma scale_loop bits (k : nat) :
  (k <= length bits)%nat ->
  for_loop k 0 (scale_symbol s0 s1) (Some bits) =
  Ok (Some (map (softbit s0 s1) (take k bits) ++ drop k bits)).
Proof.
  induction k as [|k IH]; intros Hk.
  - cbn [for_loop]. rewrite take_0, drop_0. reflexivity.
  - rewrite for_loop_snoc, IH, bind_Ok by lia. rewrite Z.add_0_l.
    destruct (bits !! k) as [b|] eqn:Hb; [|apply lookup_ge_None in Hb; lia].
    unfold scale_symbol.
    assert (Hl : (map (softbit s0 s1) (take k bits) ++ drop k bits) !! k = Some b).
    { rewrite lookup_app_r by (rewrite length_map, length_take; lia).
      rewrite length_map, length_take, lookup_drop.
      replace (k + (k - k `min` length bits))%nat with k by lia. exact Hb. }
    rewrite (load_lookup _ _ _ Hl), bind_Ok.
    rewrite store_insert.
    2:{ rewrite length_app, length_map, length_take, length_drop. lia. }
    rewrite bind_Ok. do 2 f_equal.
    replace k with (length (map (softbit s0 s1) (take k bits)) + 0)%nat at 1
      by (rewrite length_map, length_take; lia).
    rewrite (insert_middle _ _ _ b _ Hb).
    rewrite (take_S_r _ _ _ Hb), map_app, <- app_assoc. cbn [map app].
    reflexivity.
Qed.
End Scaling.

Lemma pack_msb_message msg :
  Forall is_byte msg -> pack_msb (length msg) (message_bits msg) = msg.
Proof.
  induction 1 as [|b msg Hb Hmsg IH]; [reflexivity|].
  cbn [length pack_msb]. unfold message_bits. cbn [map concat].
  fold (message_bits msg).
  rewrite (resize_app (byte_bits b)) by reflexivity.
  rewrite (drop_app_length' (byte_bits b)) by reflexivity.
  rewrite IH, (bits_value_byte_bits b Hb). reflexivity.
Qed.

(** ** Creation and resizing *)

Section CodecFacts.
Variables fec_conv27_poly fec_conv29_poly fec_conv39_poly fec_conv615_poly : list Z.
Variables FEC_SOFTBIT_0 FEC_SOFTBIT_1 : Z.
Variable fresh_byte : Z.

Local Abbreviation create :=
  (fec_conv_create fec_conv27_poly fec_conv29_poly fec_conv39_poly fec_conv615_poly
                   FEC_SOFTBIT_0 FEC_SOFTBIT_1).
Local Abbreviation setlength := (fec_conv_setlength fresh_byte).
Local Abbreviation decode := (fec_conv_decode FEC_SOFTBIT_0 FEC_SOFTBIT_1 fresh_byte).
Local Abbreviation table :=
  (poly_table fec_conv27_poly fec_conv29_poly fec_conv39_poly fec_conv615_poly).
Local Abbreviation is_codec :=
  (codec_of fec_conv27_poly fec_conv29_poly fec_conv39_poly fec_conv615_poly
            FEC_SOFTBIT_0 FEC_SOFTBIT_1).

Lemma create_supported fs junk :
  supported fs ->
  exists q, create fs junk = Ok q /\ is_codec fs q /\
            num_dec_bytes q = 0 /\ num_enc_bytes q = junk /\
            enc_bits q = None /\ vp q = None.
Proof.
  intros Hs. destruct fs; try destruct Hs;
    (eexists; split; [reflexivity|]; repeat split).
Qed.

Lemma create_inv fs junk q :
  create fs junk = Ok q ->
  supported fs /\ is_codec fs q /\ num_dec_bytes q = 0 /\ num_enc_bytes q = junk /\
  enc_bits q = None /\ vp q = None.
Proof.
  intros Hc.
  assert (Hs : supported fs) by (destruct fs; [exact I..|discriminate]).
  split; [exact Hs|].
  destruct (create_supported fs junk Hs) as (q' & Hq' & Hrest).
  rewrite Hc in Hq'. injection Hq' as <-. exact Hrest.
Qed.

Lemma codec_of_valid fs q :
  supported fs ->
  Z.of_nat (length (table fs)) = scheme_R fs ->
  is_codec fs q -> valid_codec q.
Proof.
  intros Hs Hlen (Hsch & HR & HK & Hp & _). unfold valid_codec.
  rewrite Hsch, HR, HK, Hp. auto.
Qed.

Lemma fits_bounds fs (n : nat) :
  supported fs -> fits_uint fs n ->
  8 * Z.of_nat n + scheme_K fs - 1 < 2 ^ 32 /\
  8 * Z.of_nat (enc_len fs n) < 2 ^ 32 /\
  fec_get_enc_msg_length fs (Z.of_nat n) = Z.of_nat (enc_len fs n).
Proof.
  intros Hs Hfit. pose proof (supported_params _ Hs) as [HRr HKr].
  pose proof (enc_len_spec _ _ Hfit Hs) as HL. unfold fits_uint in Hfit.
  assert (0 <= Z.of_nat n) by lia.
  split; [unfold encoded_bits in Hfit; nia|]. split.
  - rewrite HL.
    pose proof (Z.mul_div_le (encoded_bits fs (Z.of_nat n) + 7) 8 ltac:(lia)). lia.
  - unfold enc_len. rewrite Z2Nat.id; [reflexivity|].
    unfold fec_get_enc_msg_length, wrap32. apply Z.mod_pos_bound. lia.
Qed.

Lemma setlength_run fs q (n : nat) :
  supported fs -> is_codec fs q ->
  decoder_sized q \/ Z.of_nat n <> num_dec_bytes q ->
  exists q1 ev1,
    setlength q (Z.of_nat n) = Ok (q1, ev1) /\
    is_codec fs q1 /\ decoder_sized q1 /\ num_dec_bytes q1 = Z.of_nat n.
Proof.
  intros Hs Hq Hsz. unfold fec_conv_setlength.
  destruct (decide (Z.of_nat n = num_dec_bytes q)) as [E|E].
  - destruct Hsz as [Hsz|Hne]; [|contradiction].
    exists q, []. rewrite E. auto.
  - pose proof Hq as (Hsch & HR & HK & Hp & Hcr & Hin & Hup & Hcb & Hdel).
    cbn [vp with_lengths delete_viterbi enc_bits create_viterbi num_dec_bytes
         num_enc_bytes].
    assert (Hd : exists evd,
              (match vp q with
               | Some _ => _ ← delete_viterbi q (vp q); Ok [EvDeleteViterbi]
               | None => Ok []
               end) = Ok evd).
    { destruct (vp q) as [v|]; [|eexists; reflexivity].
      rewrite Hdel. cbn. eexists; reflexivity. }
    destruct Hd as (evd & Hd). rewrite Hd, bind_Ok.
    eexists _, _. split; [reflexivity|]. split; [|split].
    + exact Hq.
    + unfold decoder_sized. rewrite Hcr.
      cbn [vp enc_bits with_buffers with_lengths num_dec_bytes num_enc_bytes scheme].
      unfold viterbi_create, realloc.
      eexists _, _. split; [reflexivity|]. split; [reflexivity|].
      cbn [v_len]. split; [reflexivity|]. split; [reflexivity|].
      rewrite length_resize, Z.mul_1_r. rewrite Z2Nat.id; [reflexivity|].
      unfold wrap32. apply Z.mod_pos_bound. lia.
    + reflexivity.
Qed.
End CodecFacts.

(** ** A decode as a decoder run *)

Section DecodeFacts.
Variables fec_conv27_poly fec_conv29_poly fec_conv39_poly fec_conv615_poly : list Z.
Variables FEC_SOFTBIT_0 FEC_SOFTBIT_1 : Z.
Variable fresh_byte : Z.

Local Abbreviation create :=
  (fec_conv_create fec_conv27_poly fec_conv29_poly fec_conv39_poly fec_conv615_poly
                   FEC_SOFTBIT_0 FEC_SOFTBIT_1).
Local Abbreviation setlength := (fec_conv_setlength fresh_byte).
Local Abbreviation decode := (fec_conv_decode FEC_SOFTBIT_0 FEC_SOFTBIT_1 fresh_byte).
Local Abbreviation table :=
  (poly_table fec_conv27_poly fec_conv29_poly fec_conv39_poly fec_conv615_poly).
Local Abbreviation is_codec :=
  (codec_of fec_conv27_poly fec_conv29_poly fec_conv39_poly fec_conv615_poly
            FEC_SOFTBIT_0 FEC_SOFTBIT_1).
Local Abbreviation symbols := (decode_symbols FEC_SOFTBIT_0 FEC_SOFTBIT_1).
Local Abbreviation events := (decode_events FEC_SOFTBIT_0 FEC_SOFTBIT_1).

Lemma decode_run fs q (n : nat) enc dec :
  supported fs -> is_codec fs q -> fits_uint fs n ->
  decoder_sized q \/ Z.of_nat n <> num_dec_bytes q ->
  (enc_len fs n <= length enc)%nat ->
  exists q1 ev1,
    setlength q (Z.of_nat n) = Ok (q1, ev1) /\
    is_codec fs q1 /\ decoder_sized q1 /\ num_dec_bytes q1 = Z.of_nat n /\
    decode q (Z.of_nat n) enc dec =
      (v2 ← viterbi_update_blk (scheme_K fs) (table fs) FEC_SOFTBIT_0 FEC_SOFTBIT_1
              (Some (decoder_reset fs n)) (Some (symbols fs n enc))
              (8 * Z.of_nat n + scheme_K fs - 1);
       '(v3, data) ← viterbi_chainback v2 dec (8 * Z.of_nat n) 0;
       Ok (with_buffers q1 (Some (symbols fs n enc)) v3, data,
           ev1 ++ events fs n enc)).
Proof.
  intros Hs Hq Hfit Hsz Henc.
  destruct (setlength_run _ _ _ _ _ _ fresh_byte fs q n Hs Hq Hsz)
    as (q1 & ev1 & Hset & Hq1 & Hsz1 & Hn1).
  exists q1, ev1. split; [exact Hset|]. split; [exact Hq1|].
  split; [exact Hsz1|]. split; [exact Hn1|].
  pose proof (supported_params _ Hs) as [HRr HKr].
  destruct (fits_bounds fs n Hs Hfit) as (Hb1 & Hb2 & Hget).
  destruct Hsz1 as (v & eb & Hvp & Heb & Hvlen & Hneb & Hlen).
  pose proof Hq1 as (Hsch & HR & HK & Hp & Hcr & Hin & Hup & Hcb & Hdel).
  rewrite Hn1, Hsch, Hget in Hneb. rewrite Hneb in Hlen. rewrite Hn1 in Hvlen.
  assert (Hw1 : wrap32 (Z.of_nat (enc_len fs n) * 8) = 8 * Z.of_nat (enc_len fs n)).
  { unfold wrap32. rewrite Z.mod_small by lia. lia. }
  assert (Hw2 : wrap32 (8 * Z.of_nat (enc_len fs n)) = 8 * Z.of_nat (enc_len fs n)).
  { unfold wrap32. rewrite Z.mod_small by lia. lia. }
  assert (Hw3 : wrap32 (8 * Z.of_nat n) = 8 * Z.of_nat n).
  { unfold wrap32. rewrite Z.mod_small by lia. lia. }
  assert (Hw4 : wrap32 (8 * Z.of_nat n + scheme_K fs - 1) = 8 * Z.of_nat n + scheme_K fs - 1).
  { unfold wrap32. rewrite Z.mod_small by lia. lia. }
  rewrite Hw1 in Hlen. rewrite Hw3 in Hvlen.
  unfold fec_conv_decode. rewrite Hset, bind_Ok. cbv beta iota.
  rewrite Hneb, Heb, Hvp, Hn1, HK, Hin, Hup, Hcb, Hw1, Hw2, Hw3, Hw4.
  rewrite liquid_unpack_bytes_ok by lia. rewrite bind_Ok. cbv beta iota.
  replace (Z.to_nat (8 * Z.of_nat (enc_len fs n)))
    with (length (message_bits (take (enc_len fs n) enc))).
  2:{ rewrite length_message_bits, length_take. lia. }
  rewrite scale_loop by lia. rewrite bind_Ok.
  rewrite firstn_all, drop_all, app_nil_r.
  fold (symbols fs n enc).
  unfold viterbi_init at 1. rewrite bind_Ok. rewrite Hvlen.
  fold (decoder_reset fs n).
  reflexivity.
Qed.
End DecodeFacts.

(** ** The decoder on a noiseless codeword *)

Lemma message_bits_pack (L : nat) : forall bs,
  Forall is_bit bs -> length bs = (8 * L)%nat -> message_bits (pack_msb L bs) = bs.
Proof.
  induction L as [|L IH]; intros bs Hbits Hlen.
  - destruct bs; [reflexivity | discriminate].
  - cbn [pack_msb]. unfold message_bits. cbn [map concat]. fold (message_bits (pack_msb L (drop 8 bs))).
    rewrite resize_le by lia.
    rewrite byte_bits_value.
    + rewrite IH; [apply take_drop | apply Forall_drop, Hbits | rewrite length_drop; lia].
    + apply Forall_take, Hbits.
    + rewrite length_take. lia.
Qed.

Lemma spec_stream_app polys reg b1 b2 :
  spec_stream polys reg (b1 ++ b2) =
  spec_stream polys reg b1 ++ spec_stream polys (spec_register reg b1) b2.
Proof.
  revert reg. induction b1 as [|b b1 IH]; intros reg; [reflexivity|].
  cbn [app spec_stream]. rewrite IH, <- app_assoc. reflexivity.
Qed.

Lemma spec_encoded_stream_eq polys K msg :
  spec_encoded_stream polys K msg = spec_stream polys 0 (message_bits msg ++ flush_bits K).
Proof.
  unfold spec_encoded_stream, spec_data_stream, spec_flush_stream.
  rewrite spec_stream_app. reflexivity.
Qed.

Lemma reset_metrics_ok K : 2 <= K <= 32 ->
  metrics_ok K (reset_metrics K 0) /\ reset_metrics K 0 !! 0%nat = Some (Some 0).
Proof.
  intros HK. unfold reset_metrics. split; [split|].
  - rewrite length_map. apply length_states, HK.
  - apply Forall_fmap, Forall_forall. intros s _. cbn. case_decide; [lia|exact I].
  - rewrite list_lookup_fmap. change 0%nat with (Z.to_nat 0).
    rewrite lookup_states by (pose proof (num_states_pos K HK); lia).
    cbn. rewrite decide_True by reflexivity. reflexivity.
Qed.

Section RoundTrip.
Variables (K : Z) (poly : list Z) (s0 s1 : Z).
Hypothesis HK : 2 <= K <= 32.
Hypothesis Hsoft : wrap8 s0 <> wrap8 s1.
Hypothesis Htap : Exists (fun p => Z.testbit p (K - 1) = true) poly.
Hypothesis Hpoly : Forall (fun p => 0 <= p < 2 ^ K) poly.

(** Decoding the symbols of a noiseless codeword recovers the message. *)
Lemma viterbi_recovers msg pad dec (n : nat) vlen :
  Forall is_byte msg -> n = length msg ->
  vlen = 8 * Z.of_nat n ->
  (n <= length dec)%nat ->
  exists w,
    viterbi_update_blk K poly s0 s1
      (Some {| v_len := vlen; v_phase := Ready;
               metrics := reset_metrics K 0; survivors := [] |})
      (Some (map (softbit s0 s1) (spec_encoded_stream poly K msg ++ pad)))
      (8 * Z.of_nat n + K - 1) = Ok (Some w) /\
    exists w',
    viterbi_chainback (Some w) dec (8 * Z.of_nat n) 0 =
      Ok (Some w', msg ++ drop n dec) /\
    v_len w' = vlen.
Proof.
  intros Hmsg -> -> Hdec.
  set (bits := message_bits msg ++ flush_bits K).
  assert (Hbits : Forall is_bit bits).
  { apply Forall_app. split; [apply message_bits_bits|].
    apply Forall_replicate. left. reflexivity. }
  assert (Hlen : Z.of_nat (length bits) = 8 * Z.of_nat (length msg) + K - 1).
  { unfold bits. rewrite length_app, length_message_bits, length_flush_bits. lia. }
  destruct (reset_metrics_ok K HK) as [Hmok Hm0].
  set (syms := map (softbit s0 s1) (spec_encoded_stream poly K msg ++ pad)).
  set (v0 := {| v_len := 8 * Z.of_nat (length msg); v_phase := Ready;
                metrics := reset_metrics K 0; survivors := [] |}).
  destruct (update_loop_path K poly s0 s1 HK Hsoft Htap bits syms v0 (length bits)
              Hbits) as (w & Hrun & Hvl & Hph & Hmw & _ & Hrows & Hwalk);
    [ | exact Hmok | exact Hm0 | reflexivity | lia | ].
  { intros t b Hb. pose proof (lookup_lt_Some _ _ _ Hb) as Ht.
    rewrite symbol_group_take.
    - f_equal. unfold syms. rewrite spec_encoded_stream_eq. fold bits.
      apply (sent_group_stream K poly HK Hpoly). exact Hb.
    - unfold syms. rewrite length_map, length_app, spec_encoded_stream_eq.
      fold bits. rewrite length_spec_stream. nia. }
  exists w. split.
  - unfold viterbi_update_blk. cbn [v_phase v0 survivors v_len length].
    rewrite decide_True by lia.
    replace (Z.to_nat (8 * Z.of_nat (length msg) + K - 1)) with (length bits) by lia.
    rewrite Hrun. reflexivity.
  - assert (Hend : path_state K bits (length bits) = 0).
    { rewrite (path_state_spec K HK), firstn_all. unfold bits.
      apply spec_register_flushed, HK. }
    rewrite Hend in Hwalk.
    unfold viterbi_chainback. rewrite Hph by lia.
    rewrite decide_True by lia.
    unfold traced_bits. rewrite Hwalk, firstn_all, rev_involutive.
    replace ((8 * Z.of_nat (length msg) + 7) / 8) with (Z.of_nat (length msg))
      by (apply Z.div_unique with (r := 7); lia).
    rewrite Nat2Z.id.
    replace (Z.to_nat (8 * Z.of_nat (length msg))) with (length (message_bits msg))
      by (rewrite length_message_bits; lia).
    unfold bits. rewrite take_app_length.
    rewrite pack_msb_message by exact Hmsg.
    rewrite decide_True by lia. eexists. split; [reflexivity|]. exact Hvl.
Qed.
End RoundTrip.

(** * The encoder: length and data stream *)

Lemma lookup_padded_stream polys K msg (i : nat) b :
  spec_encoded_stream polys K msg !! i = Some b ->
  spec_padded_stream polys K msg !! i = Some b.
Proof.
  intros H. unfold spec_padded_stream. rewrite lookup_app_l; [exact H|].
  apply lookup_lt_Some in H. exact H.
Qed.

Lemma b2z_bit b : is_bit (Z.b2z b).
Proof. destruct b; [right | left]; reflexivity. Qed.

(** Claim C2 (length law).  For a codec of a supported scheme, with
    parameters R and K, and a message of n bytes whose encoded bit count
    fits the 32-bit counters, [fec_conv_encode] succeeds and writes exactly
    [ceil (R * (8 * n + K - 1) / 8)] bytes: the first [L] bytes of the
    output buffer are the same for every initial buffer, the rest of the
    buffer is left as it was, and [L] is the encoded-length formula. *)
Theorem fec_conv_encode_length (q : fec) (msg : list Z) :
  valid_codec q ->
  fits_uint (scheme q) (length msg) ->
  let bits := R q * (8 * Z.of_nat (length msg) + K q - 1) in
  let L := enc_len (scheme q) (length msg) in
  Z.of_nat L = (bits + 7) / 8 /\
  8 * (Z.of_nat L - 1) < bits <= 8 * Z.of_nat L /\
  exists bytes,
    length bytes = L /\
    forall buf, (L <= length buf)%nat ->
      fec_conv_encode q (Z.of_nat (length msg)) msg buf = Ok (bytes ++ drop L buf).
Proof.
  intros Hv Hfit bits L. pose proof Hv as (Hs & HR & HK & Hp).
  assert (HL : Z.of_nat L = (bits + 7) / 8).
  { unfold L, bits. rewrite enc_len_spec by assumption. rewrite HR, HK. reflexivity. }
  split; [exact HL|]. split.
  - rewrite HL. pose proof (Z.div_mod (bits + 7) 8 ltac:(lia)).
    pose proof (Z.mod_pos_bound (bits + 7) 8 ltac:(lia)). lia.
  - exists (pack_msb L (spec_padded_stream (poly q) (K q) msg)).
    split; [apply length_pack_msb|].
    intros buf Hbuf. apply fec_conv_encode_ok; assumption.
Qed.

(** Claim C3 (data phase).  The encoder starts from a zero shift register;
    the data loop ends with the register holding the message bits pushed
    most significant bit of each byte first (shift left by one, OR the bit
    in), after [R * 8 * n] output bits; and bit [i] of the output, both
    after the data loop and in the final buffer, is bit [i] of the stream
    that lists, input bit by input bit, the parities of
    [register AND polynomial] over the polynomials in declared order. *)
Theorem fec_conv_encode_data_stream (q : fec) (msg buf : list Z) :
  valid_codec q ->
  fits_uint (scheme q) (length msg) ->
  (enc_len (scheme q) (length msg) <= length buf)%nat ->
  sr (encode_init buf) = 0 /\
  exists st1 out,
    encode_data (R q) (poly q) (Z.of_nat (length msg)) msg (encode_init buf) = Ok st1 /\
    sr st1 = wrap32 (spec_register 0 (message_bits msg)) /\
    n st1 = R q * (8 * Z.of_nat (length msg)) /\
    Z.of_nat (length (spec_data_stream (poly q) msg)) = n st1 /\
    fec_conv_encode q (Z.of_nat (length msg)) msg buf = Ok out /\
    forall (i : nat) b,
      spec_data_stream (poly q) msg !! i = Some b ->
      stream_bit (msg_enc st1) (Z.of_nat i) = Some b /\
      stream_bit out (Z.of_nat i) = Some b.
Proof.
  intros Hv Hfit Hcap. split; [reflexivity|].
  destruct (fec_conv_encode_phases q msg buf Hv Hfit Hcap)
    as (st1 & st2 & st3 & H1 & H2 & H3 & Henc & Hsr1 & Hinv1 & Hsr2 & Hinv2 & Hinv3).
  pose proof Hv as (Hs & HR & HK & Hp).
  exists st1, (msg_enc st3).
  assert (Hlen1 : length (spec_data_stream (poly q) msg) =
                  (8 * (length (poly q) * length msg))%nat).
  { unfold spec_data_stream. rewrite length_spec_stream, length_message_bits. lia. }
  split; [exact H1|]. split; [exact Hsr1|].
  destruct Hinv1 as (Hn1 & Hrest1).
  split; [rewrite Hn1, Hlen1; lia|]. split; [rewrite Hn1; reflexivity|].
  split; [exact Henc|].
  intros i b Hb. split.
  - rewrite (emitted_full buf _ st1 (length (poly q) * length msg) (conj Hn1 Hrest1) Hlen1).
    + apply stream_bit_pack; [apply spec_stream_bits | exact Hlen1 | exact Hb].
    + apply spec_stream_bits.
  - rewrite (emitted_full buf _ st3 _ Hinv3 (padded_stream_length q msg Hv Hfit)
               (padded_stream_bits _ _ _)).
    apply stream_bit_pack.
    + apply padded_stream_bits.
    + apply padded_stream_length; assumption.
    + apply lookup_padded_stream. unfold spec_encoded_stream.
      rewrite lookup_app_l; [exact Hb | apply lookup_lt_Some in Hb; exact Hb].
Qed.

(** * The encoder: flush, padding and bit positions *)

Lemma wrap32_mod_states K x :
  2 <= K <= 32 -> wrap32 x mod num_states K = x mod num_states K.
Proof.
  intros HK. unfold wrap32, num_states. apply Z.mod_mod_divide.
  exists (2 ^ (32 - (K - 1))). rewrite <- Z.pow_add_r by lia. f_equal. lia.
Qed.

(** Claim C4 (flush and padding).  After the data loop the tail loop
    pushes exactly [K - 1] zero bits, reading no input, and emits [R] parity
    bits per step by the same rule: the output bits after the data bits are
    the parity stream of the flush, the counter advances by [R * (K - 1)],
    and the low [K - 1] bits of the register end up zero.  The padding loop
    then appends fewer than eight zero bits, up to the next byte boundary,
    which is [8 * encoded length]. *)
Theorem fec_conv_encode_flush_and_pad (q : fec) (msg buf : list Z) :
  valid_codec q ->
  fits_uint (scheme q) (length msg) ->
  (enc_len (scheme q) (length msg) <= length buf)%nat ->
  exists st1 st2 st3,
    encode_data (R q) (poly q) (Z.of_nat (length msg)) msg (encode_init buf) = Ok st1 /\
    encode_tail (R q) (K q) (poly q) st1 = Ok st2 /\
    encode_pad st2 = Ok st3 /\
    fec_conv_encode q (Z.of_nat (length msg)) msg buf = Ok (msg_enc st3) /\
    flush_bits (K q) = replicate (Z.to_nat (K q - 1)) 0 /\
    sr st2 = wrap32 (spec_register (spec_register 0 (message_bits msg)) (flush_bits (K q))) /\
    sr st2 mod 2 ^ (K q - 1) = 0 /\
    n st2 = n st1 + R q * (K q - 1) /\
    (forall (i : nat) b,
       spec_flush_stream (poly q) (K q) msg !! i = Some b ->
       stream_bit (msg_enc st3) (n st1 + Z.of_nat i) = Some b) /\
    n st3 = 8 * Z.of_nat (enc_len (scheme q) (length msg)) /\
    n st2 <= n st3 < n st2 + 8 /\
    (forall i, n st2 <= i < n st3 -> stream_bit (msg_enc st3) i = Some 0).
Proof.
  intros Hv Hfit Hcap.
  destruct (fec_conv_encode_phases q msg buf Hv Hfit Hcap)
    as (st1 & st2 & st3 & H1 & H2 & H3 & Henc & Hsr1 & Hinv1 & Hsr2 & Hinv2 & Hinv3).
  pose proof Hv as (Hs & HR & HK & Hp).
  pose proof (supported_params _ Hs) as [HRr HKr].
  pose proof (padded_stream_length q msg Hv Hfit) as Hplen.
  pose proof (padded_stream_bits (poly q) (K q) msg) as Hpbits.
  pose proof (emitted_full buf _ st3 _ Hinv3 Hplen Hpbits) as Hout.
  assert (Hlen1 : length (spec_data_stream (poly q) msg) =
                  (length (poly q) * (8 * length msg))%nat).
  { unfold spec_data_stream. rewrite length_spec_stream, length_message_bits. lia. }
  assert (Hlenf : length (spec_flush_stream (poly q) (K q) msg) =
                  (length (poly q) * Z.to_nat (K q - 1))%nat).
  { unfold spec_flush_stream. rewrite length_spec_stream, length_flush_bits. lia. }
  destruct Hinv1 as (Hn1 & _). destruct Hinv2 as (Hn2 & _). destruct Hinv3 as (Hn3 & _).
  unfold spec_encoded_stream in Hn2. rewrite length_app in Hn2.
  exists st1, st2, st3.
  split; [exact H1|]. split; [exact H2|]. split; [exact H3|]. split; [exact Henc|].
  split; [reflexivity|].
  split; [rewrite Hsr2; unfold spec_register; rewrite fold_left_app; reflexivity|].
  split.
  { rewrite Hsr2. fold (num_states (K q)). rewrite wrap32_mod_states by lia.
    apply spec_register_flushed. lia. }
  split; [rewrite Hn2, Hn1, Hlenf; nia|].
  split.
  { intros i b Hb. rewrite Hout, Hn1, <- Nat2Z.inj_add.
    apply stream_bit_pack; [exact Hpbits | exact Hplen |].
    apply lookup_padded_stream. unfold spec_encoded_stream.
    rewrite lookup_app_r by lia.
    replace (length (spec_data_stream (poly q) msg) + i
             - length (spec_data_stream (poly q) msg))%nat with i by lia.
    exact Hb. }
  split; [rewrite Hn3, Hplen; lia|].
  assert (Hpad : length (spec_padded_stream (poly q) (K q) msg) =
                 (length (spec_encoded_stream (poly q) (K q) msg)
                  + pad_count (length (spec_encoded_stream (poly q) (K q) msg)))%nat).
  { unfold spec_padded_stream. rewrite length_app, length_replicate. reflexivity. }
  pose proof (pad_count_lt (length (spec_encoded_stream (poly q) (K q) msg))) as Hpc.
  assert (Hn2' : n st2 = Z.of_nat (length (spec_encoded_stream (poly q) (K q) msg))).
  { unfold spec_encoded_stream. rewrite length_app. exact Hn2. }
  split; [rewrite Hn3, Hn2', Hpad; lia|].
  intros i Hi. rewrite Hout. replace i with (Z.of_nat (Z.to_nat i)) by lia.
  apply stream_bit_pack; [exact Hpbits | exact Hplen |].
  unfold spec_padded_stream. rewrite lookup_app_r by lia.
  apply lookup_replicate_2. lia.
Qed.

(** Claim C10 (bit packing).  The [i]-th bit of the encoded stream sits at
    bit position [7 - i mod 8] of output byte [i / 8]; the output bytes up
    to the encoded length are determined by the stream and its zero
    padding alone, and the bytes after them are those of the initial
    buffer. *)
Theorem fec_conv_encode_bit_packing (q : fec) (msg buf : list Z) :
  valid_codec q ->
  fits_uint (scheme q) (length msg) ->
  (enc_len (scheme q) (length msg) <= length buf)%nat ->
  let L := enc_len (scheme q) (length msg) in
  exists out,
    fec_conv_encode q (Z.of_nat (length msg)) msg buf = Ok out /\
    Z.of_nat (length (spec_encoded_stream (poly q) (K q) msg)) =
      R q * (8 * Z.of_nat (length msg) + K q - 1) /\
    (forall i b,
       0 <= i ->
       spec_encoded_stream (poly q) (K q) msg !! Z.to_nat i = Some b ->
       exists byte,
         out !! Z.to_nat (i / 8) = Some byte /\
         Z.b2z (Z.testbit byte (7 - i mod 8)) = b) /\
    length out = length buf /\
    take L out = pack_msb L (spec_padded_stream (poly q) (K q) msg) /\
    drop L out = drop L buf.
Proof.
  intros Hv Hfit Hcap L. pose proof Hv as (Hs & HR & HK & Hp).
  pose proof (padded_stream_length q msg Hv Hfit) as Hplen.
  pose proof (padded_stream_bits (poly q) (K q) msg) as Hpbits.
  eexists. split; [apply fec_conv_encode_ok; assumption|]. fold L.
  split.
  { rewrite encoded_bits_length by exact Hv. unfold encoded_bits. rewrite HR, HK. lia. }
  split.
  { intros i b Hi Hb.
    pose proof (stream_bit_pack L _ (drop L buf) (Z.to_nat i) b Hpbits Hplen
                  (lookup_padded_stream _ _ _ _ _ Hb)) as Hsb.
    rewrite Z2Nat.id in Hsb by lia. unfold stream_bit in Hsb.
    apply fmap_Some in Hsb as (byte & Hbyte & Hbit).
    exists byte. split; [exact Hbyte | symmetry; exact Hbit]. }
  split.
  { rewrite length_app, length_pack_msb, length_drop. lia. }
  split.
  { rewrite take_app_length'; [reflexivity | symmetry; apply length_pack_msb]. }
  rewrite drop_app_length'; [reflexivity | symmetry; apply length_pack_msb].
Qed.

(** * The facade: resizing and the order of a decode *)

Lemma lookup_message_bits buf : forall k : nat,
  message_bits buf !! k = stream_bit buf (Z.of_nat k).
Proof.
  induction buf as [|b buf IH]; intros k.
  - unfold stream_bit. rewrite !lookup_nil. reflexivity.
  - unfold message_bits. cbn [map concat]. fold (message_bits buf).
    destruct (decide (k < 8)%nat) as [Hk|Hk].
    + rewrite lookup_app_l by (rewrite length_byte_bits; lia).
      rewrite lookup_byte_bits_testbit by lia. unfold stream_bit.
      rewrite Z.div_small, Z.mod_small by lia. reflexivity.
    + rewrite lookup_app_r by (rewrite length_byte_bits; lia).
      rewrite length_byte_bits, IH. unfold stream_bit.
      replace (Z.of_nat k) with (Z.of_nat (k - 8) + 1 * 8) by lia.
      rewrite Z.div_add, Z.mod_add by lia.
      replace (Z.to_nat (Z.of_nat (k - 8) / 8 + 1))
        with (Datatypes.S (Z.to_nat (Z.of_nat (k - 8) / 8))).
      * reflexivity.
      * assert (0 <= Z.of_nat (k - 8) / 8) by (apply Z.div_pos; lia). lia.
Qed.

Section Facade.
Variables FEC_SOFTBIT_0 FEC_SOFTBIT_1 : Z.
Variable fresh_byte : Z.

Local Abbreviation setlength := (fec_conv_setlength fresh_byte).
Local Abbreviation decode := (fec_conv_decode FEC_SOFTBIT_0 FEC_SOFTBIT_1 fresh_byte).
Local Abbreviation symbols := (decode_symbols FEC_SOFTBIT_0 FEC_SOFTBIT_1).
Local Abbreviation events := (decode_events FEC_SOFTBIT_0 FEC_SOFTBIT_1).

Lemma setlength_inv q len q1 ev1 :
  setlength q len = Ok (q1, ev1) ->
  (len = num_dec_bytes q /\ q1 = q /\ ev1 = []) \/
  (len <> num_dec_bytes q /\ resized fresh_byte q len q1 ev1).
Proof.
  unfold fec_conv_setlength. destruct (decide (len = num_dec_bytes q)) as [E|E].
  - intros [= <- <-]. left. auto.
  - intros H. right. split; [exact E|]. unfold resized.
    cbn [vp with_lengths delete_viterbi enc_bits create_viterbi num_dec_bytes
         num_enc_bytes] in H.
    destruct (vp q) as [v|].
    + destruct (delete_viterbi q (Some v)) as [[]|f]; [|discriminate].
      cbn in H. injection H as <- <-. split; reflexivity.
    + cbn in H. injection H as <- <-. split; reflexivity.
Qed.

Lemma setlength_same q : setlength q (num_dec_bytes q) = Ok (q, []).
Proof. unfold fec_conv_setlength. rewrite decide_True by reflexivity. reflexivity. Qed.

(** Claim C7 (resize is idempotent).  When the requested length equals
    the stored one, [fec_conv_setlength] returns the codec unchanged and
    makes no call; when it differs, it stores both lengths, deletes the old
    decoder if there is one, creates a decoder and re-allocates the bit
    buffer; calls are made only in that case; and repeating the call with
    the same length changes nothing. *)
Theorem fec_conv_setlength_idempotent (q : fec) (len : Z) (q1 : fec) (ev1 : list event) :
  setlength q len = Ok (q1, ev1) ->
  (len = num_dec_bytes q -> q1 = q /\ ev1 = []) /\
  (len <> num_dec_bytes q -> resized fresh_byte q len q1 ev1) /\
  (ev1 = [] <-> len = num_dec_bytes q) /\
  num_dec_bytes q1 = len /\
  setlength q1 len = Ok (q1, []) /\
  setlength q (num_dec_bytes q) = Ok (q, []).
Proof.
  intros H. apply setlength_inv in H.
  destruct H as [(E & -> & ->) | (E & Hres)].
  - split; [auto|]. split; [intros Hne; contradiction|].
    split; [split; auto|]. split; [auto|].
    split; [rewrite E|]; apply setlength_same.
  - pose proof Hres as [Hq1 Hev].
    split; [intros E'; contradiction|]. split; [auto|].
    split.
    { split; [|intros E'; contradiction].
      rewrite Hev. intros Hnil. apply app_eq_nil in Hnil as [_ Hnil]. discriminate. }
    assert (Hn : num_dec_bytes q1 = len) by (rewrite Hq1; reflexivity).
    split; [exact Hn|].
    split; [rewrite <- Hn at 1|]; apply setlength_same.
Qed.

Lemma wrap8_softbit b : softbit FEC_SOFTBIT_0 FEC_SOFTBIT_1 b =
  if decide (b = 0) then wrap8 FEC_SOFTBIT_0 else wrap8 FEC_SOFTBIT_1.
Proof. reflexivity. Qed.

(** X16 (order of a decode).  On a codec whose bit buffer is sized, or
    is being resized by this call, a decode of length n unpacks the encoded
    bytes into one symbol per bit, turns every symbol into one of the two
    values [FEC_SOFTBIT_0] and [FEC_SOFTBIT_1] according to its bit, and
    then calls, in this order, [init_viterbi] with start state 0,
    [update_viterbi_blk] on these symbols for exactly [8 * n + K - 1]
    groups and [chainback_viterbi] for [8 * n] bits from end state 0. *)
Theorem fec_conv_decode_sequence (q : fec) (n : nat) (enc dec : list Z)
    (q1 : fec) (ev1 : list event) :
  valid_codec q ->
  fits_uint (scheme q) n ->
  enc_bits_sized q \/ Z.of_nat n <> num_dec_bytes q ->
  (enc_len (scheme q) n <= length enc)%nat ->
  setlength q (Z.of_nat n) = Ok (q1, ev1) ->
  let syms := symbols (scheme q) n enc in
  num_dec_bytes q1 = Z.of_nat n /\
  num_enc_bytes q1 = Z.of_nat (enc_len (scheme q) n) /\
  length syms = (8 * enc_len (scheme q) n)%nat /\
  Forall (fun y => y = wrap8 FEC_SOFTBIT_0 \/ y = wrap8 FEC_SOFTBIT_1) syms /\
  (forall (k : nat) b,
     stream_bit (take (enc_len (scheme q) n) enc) (Z.of_nat k) = Some b ->
     syms !! k = Some (if decide (b = 0) then wrap8 FEC_SOFTBIT_0
                       else wrap8 FEC_SOFTBIT_1)) /\
  decode q (Z.of_nat n) enc dec =
    (v1 ← init_viterbi q1 (vp q1) 0;
     v2 ← update_viterbi_blk q1 v1 (Some syms) (8 * Z.of_nat n + K q - 1);
     '(v3, data) ← chainback_viterbi q1 v2 dec (8 * Z.of_nat n) 0;
     Ok (with_buffers q1 (Some syms) v3, data, ev1 ++ events (scheme q) n enc)).
Proof.
  intros Hv Hfit Hsz Henc Hset syms. pose proof Hv as (Hs & HR & HK & Hp).
  pose proof (supported_params _ Hs) as [HRr HKr].
  destruct (fits_bounds _ n Hs Hfit) as (Hb1 & Hb2 & Hget).
  assert (Hq1 : num_dec_bytes q1 = Z.of_nat n /\
                num_enc_bytes q1 = Z.of_nat (enc_len (scheme q) n) /\
                K q1 = K q /\
                exists eb, enc_bits q1 = Some eb /\
                           length eb = (8 * enc_len (scheme q) n)%nat).
  { apply setlength_inv in Hset.
    destruct Hset as [(E & -> & ->) | (E & -> & _)].
    - destruct Hsz as [(eb & Heb & Hneb & Hlen)|Hne]; [|contradiction].
      rewrite <- E, Hget in Hneb. rewrite Hneb in Hlen.
      split; [auto|]. split; [exact Hneb|]. split; [reflexivity|].
      exists eb. split; [exact Heb|].
      unfold wrap32 in Hlen. rewrite Z.mod_small in Hlen by lia. lia.
    - cbn [num_dec_bytes num_enc_bytes K enc_bits with_buffers with_lengths].
      split; [reflexivity|]. split; [exact Hget|]. split; [reflexivity|].
      unfold realloc. eexists. split; [reflexivity|].
      rewrite length_resize, Hget, Z.mul_1_r. unfold wrap32.
      rewrite Z.mod_small by lia. lia. }
  destruct Hq1 as (Hn1 & Hneb & HK1 & eb & Heb & Hlen).
  assert (Hsyms : length syms = (8 * enc_len (scheme q) n)%nat).
  { unfold syms, decode_symbols. rewrite length_map, length_message_bits, length_take. lia. }
  split; [exact Hn1|]. split; [exact Hneb|]. split; [exact Hsyms|].
  split.
  { unfold syms, decode_symbols. apply Forall_fmap, Forall_forall. intros b _. cbn.
    rewrite wrap8_softbit. case_decide; auto. }
  split.
  { intros k b Hb. unfold syms, decode_symbols.
    rewrite list_lookup_fmap.
    rewrite lookup_message_bits, Hb. reflexivity. }
  assert (Hw1 : wrap32 (Z.of_nat (enc_len (scheme q) n) * 8)
                = 8 * Z.of_nat (enc_len (scheme q) n)).
  { unfold wrap32. rewrite Z.mod_small by lia. lia. }
  assert (Hw2 : wrap32 (8 * Z.of_nat (enc_len (scheme q) n))
                = 8 * Z.of_nat (enc_len (scheme q) n)).
  { unfold wrap32. rewrite Z.mod_small by lia. lia. }
  assert (Hw3 : wrap32 (8 * Z.of_nat n) = 8 * Z.of_nat n).
  { unfold wrap32. rewrite Z.mod_small by lia. lia. }
  assert (Hw4 : wrap32 (8 * Z.of_nat n + K q - 1) = 8 * Z.of_nat n + K q - 1).
  { unfold wrap32. rewrite Z.mod_small by lia. lia. }
  unfold fec_conv_decode. rewrite Hset, bind_Ok. cbv beta iota.
  rewrite Hneb, Heb, Hn1, HK1, Hw1, Hw2, Hw3, Hw4.
  rewrite liquid_unpack_bytes_ok by lia. rewrite bind_Ok. cbv beta iota.
  replace (Z.to_nat (8 * Z.of_nat (enc_len (scheme q) n)))
    with (length (message_bits (take (enc_len (scheme q) n) enc))).
  2:{ rewrite length_message_bits, length_take. lia. }
  rewrite scale_loop by lia. rewrite bind_Ok.
  rewrite firstn_all, drop_all, app_nil_r.
  fold (symbols (scheme q) n enc). fold syms.
  unfold decode_events. rewrite HK. reflexivity.
Qed.
End Facade.

(** * Scheme errors *)

Lemma no_exit_Ok {A} (a : A) : no_exit (Ok a).
Proof. intros s. discriminate. Qed.

Lemma no_exit_Fault {A} (f : fault) :
  (forall s, f <> ProcessExit s) -> no_exit (@Fault A f).
Proof. intros H s E. injection E as E. exact (H s E). Qed.

Lemma no_exit_bind {A B} (r : result A) (k : A -> result B) :
  no_exit r -> (forall a, no_exit (k a)) -> no_exit (r ≫= k).
Proof.
  intros Hr Hk. destruct r as [a|f]; [apply Hk|].
  intros s E. rewrite bind_Fault in E. injection E as ->. apply (Hr s). reflexivity.
Qed.

Lemma no_exit_for_loop {S} (body : Z -> S -> result S) :
  (forall i s, no_exit (body i s)) -> forall c i s, no_exit (for_loop c i body s).
Proof.
  intros Hb. induction c as [|c IH]; intros i s; [apply no_exit_Ok|].
  rewrite for_loop_S. apply no_exit_bind; [apply Hb | intros a; apply IH].
Qed.

Lemma no_exit_load buf i : no_exit (load buf i).
Proof.
  unfold load. case_decide; [|apply no_exit_Fault; discriminate].
  destruct (buf !! Z.to_nat i); [apply no_exit_Ok | apply no_exit_Fault; discriminate].
Qed.

Lemma no_exit_store buf i v : no_exit (store buf i v).
Proof.
  unfold store. case_decide; [apply no_exit_Ok | apply no_exit_Fault; discriminate].
Qed.

Lemma no_exit_parity_loop R poly st : no_exit (parity_loop R poly st).
Proof.
  unfold parity_loop. apply no_exit_for_loop. intros i s. unfold emit_parity.
  apply no_exit_bind; [apply no_exit_load|]. intros p.
  apply no_exit_bind; [apply no_exit_store|]. intros buf. apply no_exit_Ok.
Qed.

Lemma no_exit_pad_loop fuel : forall st, no_exit (pad_loop fuel st).
Proof.
  induction fuel as [|fuel IH]; intros st; cbn [pad_loop]; case_decide;
    try apply no_exit_Ok; [apply no_exit_Fault; discriminate|].
  apply no_exit_bind; [apply no_exit_store|]. intros buf. apply IH.
Qed.

Lemma no_exit_encode q len a b : no_exit (fec_conv_encode q len a b).
Proof.
  unfold fec_conv_encode. apply no_exit_bind.
  { unfold encode_data. apply no_exit_for_loop. intros i s. unfold encode_byte.
    apply no_exit_bind; [apply no_exit_load|]. intros byte.
    apply no_exit_for_loop. intros j s'. apply no_exit_parity_loop. }
  intros st1. apply no_exit_bind.
  { unfold encode_tail. apply no_exit_for_loop. intros i s. apply no_exit_parity_loop. }
  intros st2. apply no_exit_bind; [apply no_exit_pad_loop|].
  intros st3. case_decide; [apply no_exit_Ok | apply no_exit_Fault; discriminate].
Qed.

Lemma no_exit_unpack enc len out out_len : no_exit (liquid_unpack_bytes enc len out out_len).
Proof.
  unfold liquid_unpack_bytes. apply no_exit_bind; [|intros a; apply no_exit_Ok].
  apply no_exit_for_loop. intros i s. unfold unpack_byte.
  apply no_exit_bind; [apply no_exit_load|]. intros byte.
  destruct s as [buf|]; [|apply no_exit_Fault; discriminate].
  apply no_exit_bind; [|intros a; apply no_exit_Ok].
  apply no_exit_for_loop. intros j b. apply no_exit_store.
Qed.

Section NoExit.
Variables FEC_SOFTBIT_0 FEC_SOFTBIT_1 : Z.
Variable fresh_byte : Z.

Lemma no_exit_setlength q len :
  pointers_no_exit q -> no_exit (fec_conv_setlength fresh_byte q len).
Proof.
  intros (Hdel & _). unfold fec_conv_setlength. case_decide; [apply no_exit_Ok|].
  apply no_exit_bind; [|intros a; apply no_exit_Ok].
  cbn [vp with_lengths delete_viterbi].
  destruct (vp q); [|apply no_exit_Ok].
  apply no_exit_bind; [apply Hdel | intros a; apply no_exit_Ok].
Qed.

Lemma setlength_pointers q len q1 ev1 :
  fec_conv_setlength fresh_byte q len = Ok (q1, ev1) ->
  delete_viterbi q1 = delete_viterbi q /\ init_viterbi q1 = init_viterbi q /\
  update_viterbi_blk q1 = update_viterbi_blk q /\
  chainback_viterbi q1 = chainback_viterbi q.
Proof.
  intros H. apply setlength_inv in H.
  destruct H as [(_ & -> & _) | (_ & -> & _)]; repeat split.
Qed.

Lemma no_exit_decode q len a b :
  pointers_no_exit q ->
  no_exit (fec_conv_decode FEC_SOFTBIT_0 FEC_SOFTBIT_1 fresh_byte q len a b).
Proof.
  intros Hp. unfold fec_conv_decode.
  destruct (fec_conv_setlength fresh_byte q len) as [[q1 ev1]|f] eqn:Hset.
  2:{ pose proof (no_exit_setlength q len Hp) as Hne. rewrite Hset in Hne.
      intros s E. rewrite bind_Fault in E. injection E as ->. apply (Hne s). reflexivity. }
  rewrite bind_Ok. cbv beta iota.
  destruct (setlength_pointers _ _ _ _ Hset) as (_ & Hi & Hu & Hc).
  destruct Hp as (_ & Hinit & Hupd & Hcb).
  apply no_exit_bind; [apply no_exit_unpack|]. intros [bits nw].
  apply no_exit_bind.
  { apply no_exit_for_loop. intros k s. unfold scale_symbol.
    destruct s as [buf|]; [|apply no_exit_Fault; discriminate].
    apply no_exit_bind; [apply no_exit_load|]. intros x.
    apply no_exit_bind; [apply no_exit_store | intros y; apply no_exit_Ok]. }
  intros bits'. rewrite Hi, Hu, Hc.
  apply no_exit_bind; [apply Hinit|]. intros v1.
  apply no_exit_bind; [apply Hupd|]. intros v2.
  apply no_exit_bind; [apply Hcb|]. intros [v3 data]. apply no_exit_Ok.
Qed.
End NoExit.

Section SchemeErrors.
Variables fec_conv27_poly fec_conv29_poly fec_conv39_poly fec_conv615_poly : list Z.
Variables FEC_SOFTBIT_0 FEC_SOFTBIT_1 : Z.
Variable fresh_byte : Z.

Local Abbreviation create :=
  (fec_conv_create fec_conv27_poly fec_conv29_poly fec_conv39_poly fec_conv615_poly
                   FEC_SOFTBIT_0 FEC_SOFTBIT_1).
Local Abbreviation decode := (fec_conv_decode FEC_SOFTBIT_0 FEC_SOFTBIT_1 fresh_byte).

(** Claim C8 (scheme errors).  For every scheme id that is not one of the
    four convolutional schemes, [fec_conv_create] exits the process with
    status 1: no error value reaches the caller.  For the four schemes it
    returns a codec.  [fec_conv_encode] never exits the process, and neither
    does [fec_conv_decode] unless a decoder function it is pointed to
    does. *)
Theorem fec_conv_create_invalid_exits (fs : fec_scheme) (junk : Z) :
  ~ supported fs ->
  create fs junk = Fault (ProcessExit 1) /\
  (forall fs', supported fs' -> exists q, create fs' junk = Ok q) /\
  (forall q len msg buf, no_exit (fec_conv_encode q len msg buf)) /\
  (forall q len enc buf, pointers_no_exit q -> no_exit (decode q len enc buf)).
Proof.
  intros Hns. split; [|split; [|split]].
  - destruct fs; try (exfalso; apply Hns; exact I). reflexivity.
  - intros fs' Hs.
    destruct (create_supported fec_conv27_poly fec_conv29_poly fec_conv39_poly
                fec_conv615_poly FEC_SOFTBIT_0 FEC_SOFTBIT_1 fs' junk Hs) as (q & Hq & _).
    exists q. exact Hq.
  - apply no_exit_encode.
  - intros q len enc buf Hp. apply no_exit_decode, Hp.
Qed.
End SchemeErrors.

(** * Determinism *)

Section ViterbiLen.
Variables (K : Z) (poly : list Z) (s0 s1 : Z).

Lemma update_body_len syms t v w :
  viterbi_update_body K poly s0 s1 syms t v = Ok w -> v_len w = v_len v.
Proof.
  unfold viterbi_update_body. destruct syms as [buf|]; [|discriminate].
  rewrite bind_Ok. destruct (symbol_group poly buf t) as [g|f]; [|discriminate].
  rewrite bind_Ok. destruct (update_step K poly s0 s1 (metrics v) g) as [ms row].
  intros [= <-]. reflexivity.
Qed.

Lemma update_loop_len syms : forall c i v w,
  for_loop c i (viterbi_update_body K poly s0 s1 syms) v = Ok w -> v_len w = v_len v.
Proof.
  induction c as [|c IH]; intros i v w.
  - intros [= <-]. reflexivity.
  - rewrite for_loop_S.
    destruct (viterbi_update_body K poly s0 s1 syms i v) as [v'|f] eqn:Hb; [|discriminate].
    rewrite bind_Ok. intros H. apply IH in H. rewrite H. eapply update_body_len, Hb.
Qed.

Lemma update_blk_len v syms nbits v2 :
  viterbi_update_blk K poly s0 s1 (Some v) syms nbits = Ok v2 ->
  exists w, v2 = Some w /\ v_len w = v_len v.
Proof.
  unfold viterbi_update_blk.
  destruct (v_phase v); try discriminate;
    (case_decide; [|discriminate]);
    (destruct (for_loop _ _ _ v) as [w|f] eqn:Hl; [|discriminate]);
    intros [= <-]; exists w; (split; [reflexivity|]); eapply update_loop_len, Hl.
Qed.

Lemma chainback_len v2 dec nbits e v3 data :
  viterbi_chainback v2 dec nbits e = Ok (v3, data) ->
  exists w w', v2 = Some w /\ v3 = Some w' /\ v_len w' = v_len w.
Proof.
  unfold viterbi_chainback. destruct v2 as [w|]; [|discriminate].
  destruct (v_phase w); try discriminate.
  case_decide; [|discriminate]. case_decide; [|discriminate].
  intros [= <- <-]. eexists _, _. split; [reflexivity|]. split; reflexivity.
Qed.
End ViterbiLen.

Section DecodeClaims.
Variables fec_conv27_poly fec_conv29_poly fec_conv39_poly fec_conv615_poly : list Z.
Variables FEC_SOFTBIT_0 FEC_SOFTBIT_1 : Z.
Variable fresh_byte : Z.

Local Abbreviation create :=
  (fec_conv_create fec_conv27_poly fec_conv29_poly fec_conv39_poly fec_conv615_poly
                   FEC_SOFTBIT_0 FEC_SOFTBIT_1).
Local Abbreviation setlength := (fec_conv_setlength fresh_byte).
Local Abbreviation decode := (fec_conv_decode FEC_SOFTBIT_0 FEC_SOFTBIT_1 fresh_byte).
Local Abbreviation table :=
  (poly_table fec_conv27_poly fec_conv29_poly fec_conv39_poly fec_conv615_poly).
Local Abbreviation is_codec :=
  (codec_of fec_conv27_poly fec_conv29_poly fec_conv39_poly fec_conv615_poly
            FEC_SOFTBIT_0 FEC_SOFTBIT_1).
Local Abbreviation symbols := (decode_symbols FEC_SOFTBIT_0 FEC_SOFTBIT_1).
Local Abbreviation events := (decode_events FEC_SOFTBIT_0 FEC_SOFTBIT_1).
Local Abbreviation decoder_run :=
  (viterbi_decode fec_conv27_poly fec_conv29_poly fec_conv39_poly fec_conv615_poly
                  FEC_SOFTBIT_0 FEC_SOFTBIT_1).

Lemma decode_run_viterbi fs q (n : nat) enc dec :
  supported fs -> is_codec fs q -> fits_uint fs n ->
  decoder_sized q \/ Z.of_nat n <> num_dec_bytes q ->
  (enc_len fs n <= length enc)%nat ->
  exists q1 ev1,
    setlength q (Z.of_nat n) = Ok (q1, ev1) /\
    is_codec fs q1 /\ decoder_sized q1 /\ num_dec_bytes q1 = Z.of_nat n /\
    decode q (Z.of_nat n) enc dec =
      ('(v3, data) ← decoder_run fs n enc dec;
       Ok (with_buffers q1 (Some (symbols fs n enc)) v3, data, ev1 ++ events fs n enc)).
Proof.
  intros Hs Hq Hfit Hsz Henc.
  destruct (decode_run fec_conv27_poly fec_conv29_poly fec_conv39_poly fec_conv615_poly
              FEC_SOFTBIT_0 FEC_SOFTBIT_1 fresh_byte fs q n enc dec Hs Hq Hfit Hsz Henc)
    as (q1 & ev1 & Hset & Hq1 & Hsz1 & Hn1 & Hdec).
  exists q1, ev1. repeat (split; [assumption|]).
  rewrite Hdec. unfold viterbi_decode.
  destruct (viterbi_update_blk _ _ _ _ _ _ _); reflexivity.
Qed.

Lemma decode_result fs q (n : nat) enc dec q' out tr :
  supported fs -> is_codec fs q -> fits_uint fs n ->
  decoder_sized q \/ Z.of_nat n <> num_dec_bytes q ->
  (enc_len fs n <= length enc)%nat ->
  decode q (Z.of_nat n) enc dec = Ok (q', out, tr) ->
  exists q1 ev1 w,
    setlength q (Z.of_nat n) = Ok (q1, ev1) /\
    decoder_run fs n enc dec = Ok (Some w, out) /\
    q' = with_buffers q1 (Some (symbols fs n enc)) (Some w) /\
    tr = ev1 ++ events fs n enc /\
    is_codec fs q' /\ decoder_sized q' /\ num_dec_bytes q' = Z.of_nat n.
Proof.
  intros Hs Hq Hfit Hsz Henc Hdec.
  destruct (decode_run_viterbi fs q n enc dec Hs Hq Hfit Hsz Henc)
    as (q1 & ev1 & Hset & Hq1 & Hsz1 & Hn1 & Heq).
  rewrite Heq in Hdec.
  destruct (decoder_run fs n enc dec) as [[v3 data]|f] eqn:Hvd; [|discriminate].
  rewrite bind_Ok in Hdec. injection Hdec as <- <- <-.
  assert (Hw : exists w, v3 = Some w /\ v_len w = 8 * Z.of_nat n).
  { unfold viterbi_decode in Hvd.
    destruct (viterbi_update_blk (scheme_K fs) (table fs) FEC_SOFTBIT_0 FEC_SOFTBIT_1
                (Some (decoder_reset fs n)) (Some (symbols fs n enc))
                (8 * Z.of_nat n + scheme_K fs - 1)) as [v2|f] eqn:Hup; [|discriminate].
    rewrite bind_Ok in Hvd.
    apply update_blk_len in Hup as (w & -> & Hlw).
    apply chainback_len in Hvd as (w1 & w' & [= <-] & -> & Hlw').
    exists w'. split; [reflexivity|]. rewrite Hlw', Hlw. reflexivity. }
  destruct Hw as (w & -> & Hlw).
  exists q1, ev1, w. split; [exact Hset|]. split; [reflexivity|].
  split; [reflexivity|]. split; [reflexivity|].
  destruct (fits_bounds fs n Hs Hfit) as (Hb1 & Hb2 & Hget).
  pose proof (supported_params _ Hs) as [HRr HKr].
  split; [exact Hq1|]. split; [|exact Hn1].
  destruct Hsz1 as (v & eb & Hvp & Heb & Hvlen & Hneb & Hlen).
  destruct Hq1 as (Hsch & _).
  unfold decoder_sized.
  cbn [vp enc_bits with_buffers num_dec_bytes num_enc_bytes scheme].
  eexists _, _. split; [reflexivity|]. split; [reflexivity|].
  rewrite Hn1. split.
  { rewrite Hlw. unfold wrap32. rewrite Z.mod_small by lia. reflexivity. }
  split; [rewrite <- Hn1; exact Hneb|].
  rewrite Hneb, Hn1, Hsch, Hget. unfold decode_symbols.
  rewrite length_map, length_message_bits, length_take.
  unfold wrap32. rewrite Z.mod_small by lia. lia.
Qed.

(** X17 (repeatable decode).  On a codec whose decoder memory is
    sized, or is being resized by the call: when a decode returns, the same
    decode on the codec it leaves behind returns the same message and
    leaves the codec as it is; every codec of the scheme in such a state
    returns that message for these inputs; and encoding on the codec left
    behind equals encoding on the original codec, for all inputs. *)
Theorem fec_conv_deterministic (fs : fec_scheme) (q : fec) (n : nat)
    (enc dec : list Z) (q' : fec) (out : list Z) (tr : list event) :
  supported fs -> is_codec fs q -> fits_uint fs n ->
  decoder_sized q \/ Z.of_nat n <> num_dec_bytes q ->
  (enc_len fs n <= length enc)%nat ->
  decode q (Z.of_nat n) enc dec = Ok (q', out, tr) ->
  decode q' (Z.of_nat n) enc dec = Ok (q', out, events fs n enc) /\
  (forall q2, is_codec fs q2 ->
     decoder_sized q2 \/ Z.of_nat n <> num_dec_bytes q2 ->
     exists q2' tr2, decode q2 (Z.of_nat n) enc dec = Ok (q2', out, tr2)) /\
  (forall len msg buf,
     fec_conv_encode q' len msg buf = fec_conv_encode q len msg buf).
Proof.
  intros Hs Hq Hfit Hsz Henc Hdec.
  destruct (decode_result fs q n enc dec q' out tr Hs Hq Hfit Hsz Henc Hdec)
    as (q1 & ev1 & w & Hset & Hvd & Hq' & Htr & Hc' & Hsz' & Hn').
  split; [|split].
  - destruct (decode_run_viterbi fs q' n enc dec Hs Hc' Hfit (or_introl Hsz') Henc)
      as (q1' & ev1' & Hset' & _ & _ & _ & Heq).
    rewrite <- Hn' in Hset'. rewrite setlength_same in Hset'.
    injection Hset' as <- <-.
    rewrite Heq, Hvd, bind_Ok. rewrite Hq'. reflexivity.
  - intros q2 Hq2 Hsz2.
    destruct (decode_run_viterbi fs q2 n enc dec Hs Hq2 Hfit Hsz2 Henc)
      as (q21 & ev21 & _ & _ & _ & _ & Heq).
    rewrite Heq, Hvd, bind_Ok. eexists _, _. reflexivity.
  - intros len msg buf.
    assert (Hst : scheme q' = scheme q /\ R q' = R q /\ K q' = K q /\ poly q' = poly q).
    { destruct Hc' as (-> & -> & -> & -> & _). destruct Hq as (-> & -> & -> & -> & _).
      auto. }
    destruct Hst as (E1 & E2 & E3 & E4).
    unfold fec_conv_encode. rewrite E1, E2, E3, E4. reflexivity.
Qed.
End DecodeClaims.

(** * Round trip and the zero-length decode *)

Section RoundTripClaim.
Variables fec_conv27_poly fec_conv29_poly fec_conv39_poly fec_conv615_poly : list Z.
Variables FEC_SOFTBIT_0 FEC_SOFTBIT_1 : Z.
Variable fresh_byte : Z.

Local Abbreviation create :=
  (fec_conv_create fec_conv27_poly fec_conv29_poly fec_conv39_poly fec_conv615_poly
                   FEC_SOFTBIT_0 FEC_SOFTBIT_1).
Local Abbreviation setlength := (fec_conv_setlength fresh_byte).
Local Abbreviation decode := (fec_conv_decode FEC_SOFTBIT_0 FEC_SOFTBIT_1 fresh_byte).
Local Abbreviation table :=
  (poly_table fec_conv27_poly fec_conv29_poly fec_conv39_poly fec_conv615_poly).
Local Abbreviation is_codec :=
  (codec_of fec_conv27_poly fec_conv29_poly fec_conv39_poly fec_conv615_poly
            FEC_SOFTBIT_0 FEC_SOFTBIT_1).
Local Abbreviation symbols := (decode_symbols FEC_SOFTBIT_0 FEC_SOFTBIT_1).
Local Abbreviation events := (decode_events FEC_SOFTBIT_0 FEC_SOFTBIT_1).
Local Abbreviation decoder_run :=
  (viterbi_decode fec_conv27_poly fec_conv29_poly fec_conv39_poly fec_conv615_poly
                  FEC_SOFTBIT_0 FEC_SOFTBIT_1).

(** X9 (round trip).  For a supported scheme whose polynomials fit in K bits,
    one of them tapping bit K - 1, with two distinct symbol values, and for
    a message whose length differs from the length stored in the codec or
    whose codec has its decoder memory sized: decoding the encoder output
    with the message length returns the message, written at the start of
    the output buffer.  This covers every message of at least one byte on
    a fresh codec. *)
Theorem fec_conv_roundtrip (fs : fec_scheme) (q : fec) (msg buf dec : list Z) :
  supported fs ->
  poly_table_ok fs (table fs) ->
  taps_oldest_bit fs (table fs) ->
  wrap8 FEC_SOFTBIT_0 <> wrap8 FEC_SOFTBIT_1 ->
  is_codec fs q ->
  decoder_sized q \/ Z.of_nat (length msg) <> num_dec_bytes q ->
  Forall is_byte msg ->
  fits_uint fs (length msg) ->
  (enc_len fs (length msg) <= length buf)%nat ->
  (length msg <= length dec)%nat ->
  exists enc q' tr,
    fec_conv_encode q (Z.of_nat (length msg)) msg buf = Ok enc /\
    decode q (Z.of_nat (length msg)) enc dec
      = Ok (q', msg ++ drop (length msg) dec, tr) /\
    is_codec fs q' /\ decoder_sized q'.
Proof.
  intros Hs [Hlen Hrange] Htap Hsoft Hq Hsz Hmsg Hfit Hbuf Hdec.
  pose proof (supported_params _ Hs) as [HRr HKr].
  pose proof (codec_of_valid _ _ _ _ _ _ fs q Hs Hlen Hq) as Hv.
  pose proof Hq as (Hsch & HR & HK & Hp & _).
  rewrite <- Hsch in Hfit, Hbuf.
  pose proof (fec_conv_encode_ok q msg buf Hv Hfit Hbuf) as Henc.
  rewrite Hsch in Henc, Hfit, Hbuf. rewrite Hp, HK in Henc.
  set (L := enc_len fs (length msg)) in *.
  set (padded := spec_padded_stream (table fs) (scheme_K fs) msg) in *.
  set (enc := pack_msb L padded ++ drop L buf) in *.
  assert (Hplen : length padded = (8 * L)%nat).
  { pose proof (padded_stream_length q msg Hv) as Hpl.
    rewrite Hsch, Hp, HK in Hpl. apply Hpl. exact Hfit. }
  assert (Hel : (L <= length enc)%nat).
  { unfold enc. rewrite length_app, length_pack_msb. lia. }
  destruct (decode_run_viterbi fec_conv27_poly fec_conv29_poly fec_conv39_poly
              fec_conv615_poly FEC_SOFTBIT_0 FEC_SOFTBIT_1 fresh_byte
              fs q (length msg) enc dec Hs Hq Hfit Hsz Hel)
    as (q1 & ev1 & Hset & Hq1 & Hsz1 & Hn1 & Heq).
  assert (Hsyms : symbols fs (length msg) enc =
                  map (softbit FEC_SOFTBIT_0 FEC_SOFTBIT_1) padded).
  { unfold decode_symbols. fold L. unfold enc.
    rewrite take_app_length' by (symmetry; apply length_pack_msb).
    rewrite message_bits_pack; [reflexivity | apply padded_stream_bits | exact Hplen]. }
  destruct (viterbi_recovers (scheme_K fs) (table fs) FEC_SOFTBIT_0 FEC_SOFTBIT_1
              ltac:(lia) Hsoft Htap Hrange msg
              (replicate (pad_count (length (spec_encoded_stream (table fs) (scheme_K fs) msg))) 0)
              dec (length msg) (8 * Z.of_nat (length msg)) Hmsg eq_refl eq_refl Hdec)
    as (w & Hup & w' & Hcb & Hlw).
  fold (spec_padded_stream (table fs) (scheme_K fs) msg) in Hup. fold padded in Hup.
  assert (Hvd : decoder_run fs (length msg) enc dec =
                Ok (Some w', msg ++ drop (length msg) dec)).
  { unfold viterbi_decode. rewrite Hsyms. unfold decoder_reset.
    rewrite Hup, bind_Ok. exact Hcb. }
  exists enc, (with_buffers q1 (Some (symbols fs (length msg) enc)) (Some w')),
         (ev1 ++ events fs (length msg) enc).
  split; [exact Henc|].
  assert (Hd : decode q (Z.of_nat (length msg)) enc dec =
               Ok (with_buffers q1 (Some (symbols fs (length msg) enc)) (Some w'),
                   msg ++ drop (length msg) dec, ev1 ++ events fs (length msg) enc)).
  { rewrite Heq, Hvd. reflexivity. }
  split; [exact Hd|].
  destruct (decode_result fec_conv27_poly fec_conv29_poly fec_conv39_poly
              fec_conv615_poly FEC_SOFTBIT_0 FEC_SOFTBIT_1 fresh_byte
              fs q (length msg) enc dec _ _ _ Hs Hq Hfit Hsz Hel Hd)
    as (_ & _ & _ & _ & _ & _ & _ & Hc' & Hsz' & _).
  split; assumption.
Qed.

(** Claim C6 (zero length on a fresh codec).  On a codec that
    [fec_conv_create] has just returned, [fec_conv_setlength] with length 0
    returns at once, so the bit buffer and the decoder stay NULL and
    [num_enc_bytes] is never assigned; a decode of length 0 then faults,
    whatever the unassigned value is. *)
Theorem fec_conv_decode_fresh_zero_length (fs : fec_scheme) (junk : Z) (q : fec)
    (enc dec : list Z) :
  create fs junk = Ok q ->
  fec_conv_setlength fresh_byte q 0 = Ok (q, []) /\
  enc_bits q = None /\ vp q = None /\ num_enc_bytes q = junk /\
  exists f, decode q 0 enc dec = Fault f /\
            (f = NullDereference \/ f = OutOfBounds \/ f = PreconditionViolation).
Proof.
  intros Hc.
  destruct (create_inv _ _ _ _ _ _ fs junk q Hc)
    as (Hs & Hq & Hn & Hneb & Heb & Hvp).
  assert (Hset : fec_conv_setlength fresh_byte q 0 = Ok (q, [])).
  { rewrite <- Hn. apply setlength_same. }
  split; [exact Hset|]. split; [exact Heb|]. split; [exact Hvp|]. split; [exact Hneb|].
  unfold fec_conv_decode. rewrite Hset, bind_Ok. cbv beta iota.
  rewrite Heb, Hvp, Hneb. unfold liquid_unpack_bytes.
  destruct (Z.to_nat junk) as [|c] eqn:Hj.
  2:{ unfold unpack_byte. rewrite for_loop_S.
      destruct (load enc 0) as [byte|f] eqn:Hl.
      - eexists. split; [reflexivity|]. auto.
      - exists f. split; [reflexivity|].
        unfold load in Hl. rewrite decide_True in Hl by lia.
        destruct (enc !! Z.to_nat 0); [discriminate|]. injection Hl as <-. auto. }
  cbn [for_loop]. rewrite !bind_Ok. cbv beta iota.
  destruct (Z.to_nat (wrap32 (8 * junk))) as [|c]; [|eexists; split; [reflexivity|auto]].
  cbn [for_loop]. rewrite bind_Ok.
  destruct Hq as (_ & _ & _ & _ & _ & Hin & _). rewrite Hin.
  eexists. split; [reflexivity|]. auto.
Qed.
End RoundTripClaim.

(** * Closed examples *)

Lemma sample_codec_valid : valid_codec (sample_codec FEC_CONV_V27).
Proof. repeat split. Qed.

Lemma sample_fits : fits_uint FEC_CONV_V27 1.
Proof. unfold fits_uint. vm_compute. reflexivity. Qed.

Lemma sample_codec_of :
  codec_of sample_poly27 sample_poly29 sample_poly39 sample_poly615 0 255
           FEC_CONV_V27 (sample_codec FEC_CONV_V27).
Proof. repeat split. Qed.

Lemma fec_conv_encode_length_witness :
  valid_codec (sample_codec FEC_CONV_V27) /\
  fits_uint (scheme (sample_codec FEC_CONV_V27)) (length [165]) /\
  Z.of_nat (enc_len FEC_CONV_V27 1) = (2 * (8 * 1 + 7 - 1) + 7) / 8 /\
  exists bytes,
    length bytes = 4%nat /\
    forall buf, (4 <= length buf)%nat ->
      fec_conv_encode (sample_codec FEC_CONV_V27) 1 [165] buf = Ok (bytes ++ drop 4 buf).
Proof.
  split; [exact sample_codec_valid|]. split; [exact sample_fits|].
  destruct (fec_conv_encode_length (sample_codec FEC_CONV_V27) [165]
              sample_codec_valid sample_fits) as (HL & _ & bytes & Hlen & Henc).
  split; [exact HL|]. exists bytes. split; [exact Hlen|]. exact Henc.
Defined.

Lemma fec_conv_encode_data_stream_witness :
  valid_codec (sample_codec FEC_CONV_V27) /\
  fits_uint (scheme (sample_codec FEC_CONV_V27)) (length [165]) /\
  (enc_len (scheme (sample_codec FEC_CONV_V27)) (length [165]) <= length [0; 0; 0; 0])%nat /\
  exists out,
    fec_conv_encode (sample_codec FEC_CONV_V27) 1 [165] [0; 0; 0; 0] = Ok out /\
    forall (i : nat) b,
      spec_data_stream sample_poly27 [165] !! i = Some b ->
      stream_bit out (Z.of_nat i) = Some b.
Proof.
  assert (Hcap : (enc_len (scheme (sample_codec FEC_CONV_V27)) (length [165])
                  <= length [0; 0; 0; 0])%nat) by (vm_compute; lia).
  split; [exact sample_codec_valid|]. split; [exact sample_fits|]. split; [exact Hcap|].
  destruct (fec_conv_encode_data_stream (sample_codec FEC_CONV_V27) [165] [0; 0; 0; 0]
              sample_codec_valid sample_fits Hcap)
    as (_ & st1 & out & _ & _ & _ & _ & Henc & Hbits).
  exists out. split; [exact Henc|]. intros i b Hb. exact (proj2 (Hbits i b Hb)).
Defined.

Lemma fec_conv_encode_flush_and_pad_witness :
  valid_codec (sample_codec FEC_CONV_V27) /\
  fits_uint (scheme (sample_codec FEC_CONV_V27)) (length [165]) /\
  (enc_len (scheme (sample_codec FEC_CONV_V27)) (length [165]) <= length [0; 0; 0; 0])%nat /\
  exists st2 st3,
    fec_conv_encode (sample_codec FEC_CONV_V27) 1 [165] [0; 0; 0; 0] = Ok (msg_enc st3) /\
    sr st2 mod 2 ^ (7 - 1) = 0 /\
    n st3 = 32 /\
    forall i, n st2 <= i < n st3 -> stream_bit (msg_enc st3) i = Some 0.
Proof.
  assert (Hcap : (enc_len (scheme (sample_codec FEC_CONV_V27)) (length [165])
                  <= length [0; 0; 0; 0])%nat) by (vm_compute; lia).
  split; [exact sample_codec_valid|]. split; [exact sample_fits|]. split; [exact Hcap|].
  destruct (fec_conv_encode_flush_and_pad (sample_codec FEC_CONV_V27) [165] [0; 0; 0; 0]
              sample_codec_valid sample_fits Hcap)
    as (st1 & st2 & st3 & _ & _ & _ & Henc & _ & _ & Hzero & _ & _ & Hn3 & _ & Hpad).
  exists st2, st3. split; [exact Henc|]. split; [exact Hzero|]. split; [exact Hn3|].
  exact Hpad.
Defined.

Lemma fec_conv_encode_bit_packing_witness :
  valid_codec (sample_codec FEC_CONV_V27) /\
  fits_uint (scheme (sample_codec FEC_CONV_V27)) (length [165]) /\
  (enc_len (scheme (sample_codec FEC_CONV_V27)) (length [165]) <= length [0; 0; 0; 0])%nat /\
  exists out,
    fec_conv_encode (sample_codec FEC_CONV_V27) 1 [165] [0; 0; 0; 0] = Ok out /\
    forall i b,
      0 <= i ->
      spec_encoded_stream sample_poly27 7 [165] !! Z.to_nat i = Some b ->
      exists byte,
        out !! Z.to_nat (i / 8) = Some byte /\
        Z.b2z (Z.testbit byte (7 - i mod 8)) = b.
Proof.
  assert (Hcap : (enc_len (scheme (sample_codec FEC_CONV_V27)) (length [165])
                  <= length [0; 0; 0; 0])%nat) by (vm_compute; lia).
  split; [exact sample_codec_valid|]. split; [exact sample_fits|]. split; [exact Hcap|].
  destruct (fec_conv_encode_bit_packing (sample_codec FEC_CONV_V27) [165] [0; 0; 0; 0]
              sample_codec_valid sample_fits Hcap)
    as (out & Henc & _ & Hbits & _).
  exists out. split; [exact Henc|]. exact Hbits.
Defined.

Lemma sample_table_ok : poly_table_ok FEC_CONV_V27 sample_poly27.
Proof. split; [reflexivity|]. repeat constructor; simpl; lia. Qed.

Lemma sample_table_taps : taps_oldest_bit FEC_CONV_V27 sample_poly27.
Proof. left. reflexivity. Qed.

Lemma sample_softbits : wrap8 0 <> wrap8 255.
Proof. vm_compute. discriminate. Qed.

Lemma fec_conv_roundtrip_example :
  supported FEC_CONV_V27 /\
  poly_table_ok FEC_CONV_V27 sample_poly27 /\
  taps_oldest_bit FEC_CONV_V27 sample_poly27 /\
  wrap8 0 <> wrap8 255 /\
  codec_of sample_poly27 sample_poly29 sample_poly39 sample_poly615 0 255
           FEC_CONV_V27 (sample_codec FEC_CONV_V27) /\
  Z.of_nat (length [165]) <> num_dec_bytes (sample_codec FEC_CONV_V27) /\
  Forall is_byte [165] /\
  fits_uint FEC_CONV_V27 (length [165]) /\
  exists enc q' tr,
    fec_conv_encode (sample_codec FEC_CONV_V27) 1 [165] [0; 0; 0; 0] = Ok enc /\
    sample_decode (sample_codec FEC_CONV_V27) 1 enc [0] = Ok (q', [165], tr).
Proof.
  assert (Hne : Z.of_nat (length [165]) <> num_dec_bytes (sample_codec FEC_CONV_V27))
    by (vm_compute; discriminate).
  assert (Hb : Forall is_byte [165]) by (repeat constructor; unfold is_byte; lia).
  split; [exact I|]. split; [exact sample_table_ok|]. split; [exact sample_table_taps|].
  split; [exact sample_softbits|]. split; [exact sample_codec_of|]. split; [exact Hne|].
  split; [exact Hb|]. split; [exact sample_fits|].
  destruct (fec_conv_roundtrip sample_poly27 sample_poly29 sample_poly39 sample_poly615
              0 255 0 FEC_CONV_V27 (sample_codec FEC_CONV_V27) [165] [0; 0; 0; 0] [0]
              I sample_table_ok sample_table_taps sample_softbits sample_codec_of
              (or_intror Hne) Hb sample_fits)
    as (enc & q' & tr & Henc & Hdec & _).
  - vm_compute. lia.
  - simpl. lia.
  - exists enc, q', tr. split; [exact Henc|]. exact Hdec.
Defined.

(** Claim C1 (round trip), at the empty message.  Create a codec, encode
    the empty message and decode the result with length 0: the decode does
    not return the message, it dereferences the NULL bit buffer (the
    unassigned [num_enc_bytes] being 1 here). *)
Lemma fec_conv_roundtrip_fresh_empty :
  (q ← sample_create FEC_CONV_V27 1;
   enc ← fec_conv_encode q 0 [] [0; 0];
   '(_, out, _) ← sample_decode q 0 enc [];
   Ok out) = Fault NullDereference.
Proof. vm_compute. reflexivity. Qed.

Lemma fec_conv_decode_sequence_witness :
  let q := sample_codec FEC_CONV_V27 in
  let enc := [210; 234; 81; 128] in
  valid_codec q /\
  fits_uint (scheme q) 1 /\
  Z.of_nat 1 <> num_dec_bytes q /\
  (enc_len (scheme q) 1 <= length enc)%nat /\
  exists q1 ev1,
    fec_conv_setlength 0 q (Z.of_nat 1) = Ok (q1, ev1) /\
    num_dec_bytes q1 = Z.of_nat 1 /\
    fec_conv_decode 0 255 0 q (Z.of_nat 1) enc [0] =
      (v1 ← init_viterbi q1 (vp q1) 0;
       v2 ← update_viterbi_blk q1 v1 (Some (decode_symbols 0 255 (scheme q) 1 enc))
              (8 * Z.of_nat 1 + K q - 1);
       '(v3, data) ← chainback_viterbi q1 v2 [0] (8 * Z.of_nat 1) 0;
       Ok (with_buffers q1 (Some (decode_symbols 0 255 (scheme q) 1 enc)) v3, data,
           ev1 ++ decode_events 0 255 (scheme q) 1 enc)).
Proof.
  intros q enc.
  assert (Hne : Z.of_nat 1 <> num_dec_bytes q) by (vm_compute; discriminate).
  assert (Hcap : (enc_len (scheme q) 1 <= length enc)%nat) by (vm_compute; lia).
  split; [exact sample_codec_valid|]. split; [exact sample_fits|]. split; [exact Hne|].
  split; [exact Hcap|].
  destruct (setlength_run sample_poly27 sample_poly29 sample_poly39 sample_poly615
              0 255 0 FEC_CONV_V27 q 1 I sample_codec_of (or_intror Hne))
    as (q1 & ev1 & Hset & _).
  exists q1, ev1. split; [exact Hset|].
  destruct (fec_conv_decode_sequence 0 255 0 q 1 enc [0] q1 ev1
              sample_codec_valid sample_fits (or_intror Hne) Hcap Hset)
    as (Hn1 & _ & _ & _ & _ & Hdec).
  split; [exact Hn1 | exact Hdec].
Defined.

Lemma fec_conv_setlength_idempotent_witness :
  let q := sample_codec FEC_CONV_V27 in
  exists q1 ev1,
    fec_conv_setlength 0 q (Z.of_nat 5) = Ok (q1, ev1) /\
    num_dec_bytes q1 = Z.of_nat 5 /\
    fec_conv_setlength 0 q1 (Z.of_nat 5) = Ok (q1, []) /\
    fec_conv_setlength 0 q (num_dec_bytes q) = Ok (q, []).
Proof.
  intros q.
  assert (Hne : Z.of_nat 5 <> num_dec_bytes q) by (vm_compute; discriminate).
  destruct (setlength_run sample_poly27 sample_poly29 sample_poly39 sample_poly615
              0 255 0 FEC_CONV_V27 q 5 I sample_codec_of (or_intror Hne))
    as (q1 & ev1 & Hset & _).
  exists q1, ev1. split; [exact Hset|].
  destruct (fec_conv_setlength_idempotent 0 q (Z.of_nat 5) q1 ev1 Hset)
    as (_ & _ & _ & Hn & Hagain & Hsame).
  split; [exact Hn|]. split; [exact Hagain | exact Hsame].
Defined.

Lemma unsupported_other : ~ supported (FEC_OTHER 0).
Proof. intros H. exact H. Qed.

Lemma fec_conv_create_invalid_exits_witness :
  ~ supported (FEC_OTHER 0) /\
  sample_create (FEC_OTHER 0) 0 = Fault (ProcessExit 1) /\
  forall q len msg buf, no_exit (fec_conv_encode q len msg buf).
Proof.
  split; [exact unsupported_other|].
  destruct (fec_conv_create_invalid_exits sample_poly27 sample_poly29 sample_poly39
              sample_poly615 0 255 0 (FEC_OTHER 0) 0 unsupported_other)
    as (Hexit & _ & Henc & _).
  split; [exact Hexit | exact Henc].
Defined.

(** Creating a codec for a scheme id outside the four convolutional
    schemes terminates the process. *)
Lemma fec_conv_create_invalid_terminates :
  sample_create (FEC_OTHER 0) 0 = Fault (ProcessExit 1) /\
  ~ no_exit (sample_create (FEC_OTHER 0) 0).
Proof.
  split; [reflexivity|]. intros H. apply (H 1). reflexivity.
Qed.

Lemma fec_conv_deterministic_witness :
  let q := sample_codec FEC_CONV_V27 in
  let enc := [210; 234; 81; 128] in
  supported FEC_CONV_V27 /\
  codec_of sample_poly27 sample_poly29 sample_poly39 sample_poly615 0 255 FEC_CONV_V27 q /\
  fits_uint FEC_CONV_V27 1 /\
  Z.of_nat 1 <> num_dec_bytes q /\
  (enc_len FEC_CONV_V27 1 <= length enc)%nat /\
  exists q' out tr,
    fec_conv_decode 0 255 0 q (Z.of_nat 1) enc [0] = Ok (q', out, tr) /\
    fec_conv_decode 0 255 0 q' (Z.of_nat 1) enc [0] = Ok (q', out, decode_events 0 255 FEC_CONV_V27 1 enc).
Proof.
  intros q enc.
  assert (Hne : Z.of_nat 1 <> num_dec_bytes q) by (vm_compute; discriminate).
  assert (Hcap : (enc_len FEC_CONV_V27 1 <= length enc)%nat) by (vm_compute; lia).
  split; [exact I|]. split; [exact sample_codec_of|]. split; [exact sample_fits|].
  split; [exact Hne|]. split; [exact Hcap|].
  destruct (decode_run_viterbi sample_poly27 sample_poly29 sample_poly39 sample_poly615
              0 255 0 FEC_CONV_V27 q 1 enc [0] I sample_codec_of sample_fits
              (or_intror Hne) Hcap) as (q1 & ev1 & _ & _ & _ & _ & Hrun).
  remember (viterbi_decode sample_poly27 sample_poly29 sample_poly39 sample_poly615
              0 255 FEC_CONV_V27 1 enc [0]) as r eqn:Hvd in Hrun.
  destruct r as [[v3 out]|f]; [|clear Hrun; vm_compute in Hvd; discriminate Hvd].
  rewrite bind_Ok in Hrun.
  assert (Hdec : fec_conv_decode 0 255 0 q (Z.of_nat 1) enc [0]
                 = Ok (with_buffers q1 (Some (decode_symbols 0 255 FEC_CONV_V27 1 enc)) v3,
                       out, ev1 ++ decode_events 0 255 FEC_CONV_V27 1 enc)) by exact Hrun.
  eexists _, out, _. split; [exact Hdec|].
  destruct (fec_conv_deterministic sample_poly27 sample_poly29 sample_poly39
              sample_poly615 0 255 0 FEC_CONV_V27 q 1 enc [0] _ out _
              I sample_codec_of sample_fits (or_intror Hne) Hcap Hdec) as (Hagain & _).
  exact Hagain.
Defined.

Lemma fec_conv_decode_fresh_zero_length_witness :
  sample_create FEC_CONV_V27 1 = Ok (with_lengths (sample_codec FEC_CONV_V27) 0 1) /\
  exists f, sample_decode (with_lengths (sample_codec FEC_CONV_V27) 0 1) 0 [0; 0] [] = Fault f.
Proof.
  assert (Hc : sample_create FEC_CONV_V27 1
               = Ok (with_lengths (sample_codec FEC_CONV_V27) 0 1)) by reflexivity.
  split; [exact Hc|].
  destruct (fec_conv_decode_fresh_zero_length sample_poly27 sample_poly29 sample_poly39
              sample_poly615 0 255 0 FEC_CONV_V27 1 _ [0; 0] [] Hc)
    as (_ & _ & _ & _ & f & Hf & _).
  exists f. exact Hf.
Defined.

(** * Decoding on a codec that has not decoded yet *)

Section FreshZero.
Variables fec_conv27_poly fec_conv29_poly fec_conv39_poly fec_conv615_poly : list Z.
Variables FEC_SOFTBIT_0 FEC_SOFTBIT_1 : Z.
Variable fresh_byte : Z.

Local Abbreviation create :=
  (fec_conv_create fec_conv27_poly fec_conv29_poly fec_conv39_poly fec_conv615_poly
                   FEC_SOFTBIT_0 FEC_SOFTBIT_1).
Local Abbreviation setlength := (fec_conv_setlength fresh_byte).
Local Abbreviation decode := (fec_conv_decode FEC_SOFTBIT_0 FEC_SOFTBIT_1 fresh_byte).

(** With one byte or more to unpack and no bit buffer, the decode stops in
    [liquid_unpack_bytes], before any decoder call. *)
Lemma decode_unsized_unpack q enc dec :
  num_dec_bytes q = 0 -> enc_bits q = None -> 1 <= num_enc_bytes q ->
  exists f, decode q 0 enc dec = Fault f /\ (f = NullDereference \/ f = OutOfBounds).
Proof.
  intros Hn Heb Hj.
  assert (Hset : setlength q 0 = Ok (q, [])) by (rewrite <- Hn; apply setlength_same).
  unfold fec_conv_decode. rewrite Hset, bind_Ok. cbv beta iota.
  rewrite Heb. unfold liquid_unpack_bytes.
  destruct (Z.to_nat (num_enc_bytes q)) as [|c] eqn:Hc; [lia|].
  unfold unpack_byte. rewrite for_loop_S.
  destruct (load enc 0) as [byte | f] eqn:Hl.
  - eexists. split; [reflexivity|]. auto.
  - exists f. split; [reflexivity|].
    unfold load in Hl. rewrite decide_True in Hl by lia.
    destruct (enc !! Z.to_nat 0); [discriminate|]. injection Hl as <-. auto.
Qed.

(** With nothing to unpack, the decode goes on to the decoder calls with
    the pointers as they are. *)
Lemma decode_unsized_calls q enc dec :
  num_dec_bytes q = 0 -> num_enc_bytes q = 0 ->
  decode q 0 enc dec =
    (v1 ← init_viterbi q (vp q) 0;
     v2 ← update_viterbi_blk q v1 (enc_bits q) (wrap32 (K q - 1));
     '(v3, data) ← chainback_viterbi q v2 dec 0 0;
     Ok (with_buffers q (enc_bits q) v3, data,
         [EvUnpackBytes 0 0; EvInitViterbi 0;
          EvUpdateViterbiBlk (enc_bits q) (wrap32 (K q - 1));
          EvChainbackViterbi 0 0])).
Proof.
  intros Hn Hj.
  assert (Hset : setlength q 0 = Ok (q, [])) by (rewrite <- Hn; apply setlength_same).
  unfold fec_conv_decode. rewrite Hset, bind_Ok. cbv beta iota.
  rewrite Hj, Hn. unfold liquid_unpack_bytes.
  change (Z.to_nat 0) with 0%nat. cbn [for_loop]. rewrite !bind_Ok. cbv beta iota.
  change (Z.to_nat (wrap32 (8 * 0))) with 0%nat. cbn [for_loop]. rewrite bind_Ok.
  reflexivity.
Qed.

(** Claim C5 (order of a decode), on a codec in the state in which
    [fec_conv_create] leaves it and at length 0.  [fec_conv_setlength]
    returns at once, so no bit buffer exists and [num_enc_bytes] keeps
    whatever value it had.  The decode then does not unpack the encoded
    bytes into symbols: with a value of 1 or more it stops in
    [liquid_unpack_bytes] on the NULL bit buffer (or past the end of the
    input) before any decoder call; with the value 0 it unpacks and scales
    nothing and hands [init_viterbi], [update_viterbi_blk] and
    [chainback_viterbi] a NULL decoder object and a NULL symbol buffer. *)
Theorem fec_conv_decode_sequence_fresh_zero (q : fec) (enc dec : list Z) :
  num_dec_bytes q = 0 -> enc_bits q = None -> vp q = None ->
  setlength q 0 = Ok (q, []) /\
  (1 <= num_enc_bytes q ->
   exists f, decode q 0 enc dec = Fault f /\ (f = NullDereference \/ f = OutOfBounds)) /\
  (num_enc_bytes q = 0 ->
   decode q 0 enc dec =
     (v1 ← init_viterbi q None 0;
      v2 ← update_viterbi_blk q v1 None (wrap32 (K q - 1));
      '(v3, data) ← chainback_viterbi q v2 dec 0 0;
      Ok (with_buffers q None v3, data,
          [EvUnpackBytes 0 0; EvInitViterbi 0;
           EvUpdateViterbiBlk None (wrap32 (K q - 1));
           EvChainbackViterbi 0 0]))).
Proof.
  intros Hn Heb Hvp.
  split; [rewrite <- Hn; apply setlength_same|]. split.
  - intros Hj. exact (decode_unsized_unpack q enc dec Hn Heb Hj).
  - intros Hj. rewrite (decode_unsized_calls q enc dec Hn Hj), Heb, Hvp. reflexivity.
Qed.

(** Claim C9 (determinism), on codecs that [fec_conv_create] has just
    returned and at length 0.  Two codecs of the same scheme that differ
    only in what [malloc] left in [num_enc_bytes], 0 in one and 1 or more
    in the other, give different outcomes on the same input: the first
    reaches the decoder calls with a NULL decoder object, the second stops
    in [liquid_unpack_bytes].  The outcome of a decode is not a function of
    the scheme and the input. *)
Theorem fec_conv_deterministic_fresh_zero (fs : fec_scheme) (junk : Z) (qa qb : fec)
    (enc dec : list Z) :
  create fs 0 = Ok qa ->
  create fs junk = Ok qb ->
  1 <= junk ->
  qb = with_lengths qa 0 junk /\
  decode qa 0 enc dec =
    (v1 ← init_viterbi qa None 0;
     v2 ← update_viterbi_blk qa v1 None (wrap32 (K qa - 1));
     '(v3, data) ← chainback_viterbi qa v2 dec 0 0;
     Ok (with_buffers qa None v3, data,
         [EvUnpackBytes 0 0; EvInitViterbi 0;
          EvUpdateViterbiBlk None (wrap32 (K qa - 1));
          EvChainbackViterbi 0 0])) /\
  decode qa 0 enc dec = Fault PreconditionViolation /\
  (exists f, decode qb 0 enc dec = Fault f /\ (f = NullDereference \/ f = OutOfBounds)) /\
  decode qa 0 enc dec <> decode qb 0 enc dec.
Proof.
  intros Ha Hb Hj.
  destruct (create_inv _ _ _ _ _ _ fs 0 qa Ha) as (Hs & Hqa & Hna & Hnea & Heba & Hvpa).
  destruct (create_inv _ _ _ _ _ _ fs junk qb Hb) as (_ & Hqb & Hnb & Hneb & Hebb & Hvpb).
  assert (Heq : qb = with_lengths qa 0 junk).
  { unfold fec_conv_create in Ha, Hb. destruct fs; try discriminate Ha;
      cbn in Ha, Hb; injection Ha as <-; injection Hb as <-; reflexivity. }
  assert (Hcalls : decode qa 0 enc dec =
    (v1 ← init_viterbi qa None 0;
     v2 ← update_viterbi_blk qa v1 None (wrap32 (K qa - 1));
     '(v3, data) ← chainback_viterbi qa v2 dec 0 0;
     Ok (with_buffers qa None v3, data,
         [EvUnpackBytes 0 0; EvInitViterbi 0;
          EvUpdateViterbiBlk None (wrap32 (K qa - 1));
          EvChainbackViterbi 0 0]))).
  { rewrite (decode_unsized_calls qa enc dec Hna Hnea), Heba, Hvpa. reflexivity. }
  assert (Hfa : decode qa 0 enc dec = Fault PreconditionViolation).
  { rewrite Hcalls. destruct Hqa as (_ & _ & _ & _ & _ & Hin & _). rewrite Hin. reflexivity. }
  destruct (decode_unsized_unpack qb enc dec Hnb Hebb ltac:(rewrite Hneb; exact Hj))
    as (f & Hfb & Hf).
  split; [exact Heq|]. split; [exact Hcalls|]. split; [exact Hfa|].
  split; [exists f; auto|].
  rewrite Hfa, Hfb. intros E. injection E as <-. destruct Hf; discriminate.
Qed.
End FreshZero.

Lemma fec_conv_decode_sequence_fresh_zero_witness :
  sample_create FEC_CONV_V27 1 = Ok (with_lengths (sample_codec FEC_CONV_V27) 0 1) /\
  fec_conv_setlength 0 (with_lengths (sample_codec FEC_CONV_V27) 0 1) 0 =
    Ok (with_lengths (sample_codec FEC_CONV_V27) 0 1, []) /\
  exists f,
    fec_conv_decode 0 255 0 (with_lengths (sample_codec FEC_CONV_V27) 0 1) 0 [0; 0] [] =
      Fault f /\
    (f = NullDereference \/ f = OutOfBounds).
Proof.
  split; [reflexivity|].
  destruct (fec_conv_decode_sequence_fresh_zero 0 255 0
              (with_lengths (sample_codec FEC_CONV_V27) 0 1) [0; 0] []
              eq_refl eq_refl eq_refl) as (Hset & Hfault & _).
  split; [exact Hset|]. apply Hfault. simpl. lia.
Defined.

Lemma fec_conv_deterministic_fresh_zero_witness :
  sample_create FEC_CONV_V27 0 = Ok (sample_codec FEC_CONV_V27) /\
  sample_create FEC_CONV_V27 1 = Ok (with_lengths (sample_codec FEC_CONV_V27) 0 1) /\
  fec_conv_decode 0 255 0 (sample_codec FEC_CONV_V27) 0 [0; 0] [] <>
  fec_conv_decode 0 255 0 (with_lengths (sample_codec FEC_CONV_V27) 0 1) 0 [0; 0] [].
Proof.
  assert (Ha : sample_create FEC_CONV_V27 0 = Ok (sample_codec FEC_CONV_V27))
    by reflexivity.
  assert (Hb : sample_create FEC_CONV_V27 1 =
               Ok (with_lengths (sample_codec FEC_CONV_V27) 0 1)) by reflexivity.
  split; [exact Ha|]. split; [exact Hb|].
  destruct (fec_conv_deterministic_fresh_zero sample_poly27 sample_poly29 sample_poly39
              sample_poly615 0 255 0 FEC_CONV_V27 1 _ _ [0; 0] [] Ha Hb ltac:(lia))
    as (_ & _ & _ & _ & Hne).
  exact Hne.
Defined.

(** * Further properties of the codec *)

(** ** Faults of the encoder loops *)

Lemma oob_Ok {A} (a : A) : only_out_of_bounds (Ok a).
Proof. intros f E. discriminate E. Qed.

Lemma oob_bind {A B} (r : result A) (k : A -> result B) :
  only_out_of_bounds r -> (forall a, only_out_of_bounds (k a)) ->
  only_out_of_bounds (r ≫= k).
Proof.
  intros Hr Hk f E. destruct r as [a | g].
  - rewrite bind_Ok in E. exact (Hk a f E).
  - rewrite bind_Fault in E. injection E as <-. apply Hr. reflexivity.
Qed.

Lemma oob_for_loop {S} (body : Z -> S -> result S) :
  (forall i s, only_out_of_bounds (body i s)) ->
  forall c i s, only_out_of_bounds (for_loop c i body s).
Proof.
  intros Hb c. induction c as [|c IH]; intros i s.
  - apply oob_Ok.
  - cbn [for_loop]. apply oob_bind; [apply Hb | intros a; apply IH].
Qed.

Lemma oob_load buf i : only_out_of_bounds (load buf i).
Proof.
  unfold load. intros f E. case_decide; [|congruence].
  destruct (buf !! Z.to_nat i); congruence.
Qed.

Lemma oob_store buf i v : only_out_of_bounds (store buf i v).
Proof. unfold store. intros f E. case_decide; congruence. Qed.

Lemma oob_parity_loop R poly st : only_out_of_bounds (parity_loop R poly st).
Proof.
  unfold parity_loop. apply oob_for_loop. intros i s. unfold emit_parity.
  apply oob_bind; [apply oob_load|]. intros p.
  apply oob_bind; [apply oob_store|]. intros b. apply oob_Ok.
Qed.

Lemma oob_encode_data R poly len msg st :
  only_out_of_bounds (encode_data R poly len msg st).
Proof.
  unfold encode_data. apply oob_for_loop. intros i s. unfold encode_byte.
  apply oob_bind; [apply oob_load|]. intros b.
  apply oob_for_loop. intros j s'. unfold encode_bit. apply oob_parity_loop.
Qed.

Lemma oob_encode_tail R K poly st : only_out_of_bounds (encode_tail R K poly st).
Proof.
  unfold encode_tail. apply oob_for_loop. intros i s. unfold encode_tail_bit.
  apply oob_parity_loop.
Qed.

Lemma oob_not_Ok {A} (r : result A) :
  only_out_of_bounds r -> (forall a, r <> Ok a) -> r = Fault OutOfBounds.
Proof.
  intros Hr Hn. destruct r as [a | f].
  - destruct (Hn a). reflexivity.
  - rewrite (Hr f); reflexivity.
Qed.

Lemma for_loop_add {St} (a b : nat) (i : Z) (body : Z -> St -> result St) (s : St) :
  for_loop (a + b) i body s =
  for_loop a i body s ≫= for_loop b (i + Z.of_nat a) body.
Proof.
  revert i s. induction a as [|a IH]; intros i s.
  - cbn [for_loop Nat.add]. rewrite bind_Ok. f_equal. lia.
  - cbn [for_loop Nat.add]. destruct (body i s) as [s' | f].
    + rewrite !bind_Ok, IH. f_equal.
      replace (i + 1 + Z.of_nat a) with (i + Z.of_nat (S a)) by lia. reflexivity.
    + rewrite !bind_Fault. reflexivity.
Qed.

(** The data loop reads [_msg_dec[i]] for every [i] below [_dec_msg_len]. *)
Lemma encode_data_short R poly len msg st :
  Z.of_nat (length msg) < len ->
  encode_data R poly len msg st = Fault OutOfBounds.
Proof.
  intros Hlen. apply oob_not_Ok; [apply oob_encode_data|].
  intros st' E. unfold encode_data in E.
  replace (Z.to_nat len) with (length msg + S (Z.to_nat len - S (length msg)))%nat in E by lia.
  rewrite for_loop_add in E.
  destruct (for_loop (length msg) 0 (encode_byte R poly msg) st) as [s1 | f].
  - rewrite bind_Ok in E. cbn [for_loop] in E.
    assert (Hb : forall s, encode_byte R poly msg (0 + Z.of_nat (length msg)) s
                           = Fault OutOfBounds).
    { intros s. unfold encode_byte, load. rewrite decide_True by lia.
      rewrite Z.add_0_l, Nat2Z.id, lookup_ge_None_2 by lia. apply bind_Fault. }
    rewrite Hb, bind_Fault in E. discriminate E.
  - rewrite bind_Fault in E. discriminate E.
Qed.

Lemma fits_uint_mono fs (k m : nat) :
  supported fs -> (k <= m)%nat -> fits_uint fs m -> fits_uint fs k.
Proof.
  intros Hs Hkm. apply supported_params in Hs as [HR HK].
  unfold fits_uint, encoded_bits. nia.
Qed.

Lemma enc_len_mono fs (k m : nat) :
  supported fs -> (k <= m)%nat -> fits_uint fs m ->
  (enc_len fs k <= enc_len fs m)%nat.
Proof.
  intros Hs Hkm Hfit. pose proof (fits_uint_mono _ _ _ Hs Hkm Hfit) as Hfk.
  apply Nat2Z.inj_le. rewrite !enc_len_spec by assumption.
  apply supported_params in Hs as [HR HK].
  apply Z.div_le_mono; [lia|]. unfold encoded_bits. nia.
Qed.

(** X1 (short message buffer).  On a valid codec whose output buffer is
    sized for [_dec_msg_len], with a message buffer that holds fewer than
    [_dec_msg_len] bytes: the data loop of [fec_conv_encode] encodes the
    bytes that are there without a fault, [8 * R] bits for each, and the
    next thing it does is read [_msg_dec[i]] at the first index outside the
    message buffer.  That read is the fault of the call. *)
Theorem fec_conv_encode_short_message (q : fec) (len : Z) (msg buf : list Z) :
  valid_codec q ->
  Z.of_nat (length msg) < len ->
  fits_uint (scheme q) (Z.to_nat len) ->
  (enc_len (scheme q) (Z.to_nat len) <= length buf)%nat ->
  exists st,
    encode_data (R q) (poly q) (Z.of_nat (length msg)) msg (encode_init buf) = Ok st /\
    n st = R q * (8 * Z.of_nat (length msg)) /\
    load msg (Z.of_nat (length msg)) = Fault OutOfBounds /\
    encode_data (R q) (poly q) len msg (encode_init buf) =
      for_loop (Z.to_nat len - length msg) (Z.of_nat (length msg))
        (encode_byte (R q) (poly q) msg) st /\
    encode_byte (R q) (poly q) msg (Z.of_nat (length msg)) st = Fault OutOfBounds /\
    fec_conv_encode q len msg buf = Fault OutOfBounds.
Proof.
  intros Hv Hlen Hfit Hcap. pose proof Hv as (Hs & HR & HK & Hp).
  assert (Hle : (length msg <= Z.to_nat len)%nat) by lia.
  pose proof (fits_uint_mono _ _ _ Hs Hle Hfit) as Hfit'.
  pose proof (enc_len_mono _ _ _ Hs Hle Hfit) as Hmono.
  destruct (fec_conv_encode_phases q msg buf Hv Hfit' ltac:(lia))
    as (st & st2 & st3 & Hdata & _ & _ & _ & _ & Hinv & _).
  destruct Hinv as (Hn & _).
  assert (Hload : load msg (Z.of_nat (length msg)) = Fault OutOfBounds).
  { unfold load. rewrite decide_True by lia.
    rewrite Nat2Z.id, lookup_ge_None_2 by lia. reflexivity. }
  exists st. split; [exact Hdata|]. split.
  { rewrite Hn. unfold spec_data_stream.
    rewrite length_spec_stream, length_message_bits, Nat2Z.inj_mul, Nat2Z.inj_mul, Hp.
    reflexivity. }
  split; [exact Hload|]. split.
  { unfold encode_data in Hdata |- *. rewrite Nat2Z.id in Hdata.
    replace (Z.to_nat len) with (length msg + (Z.to_nat len - length msg))%nat at 1 by lia.
    rewrite for_loop_add, Hdata, bind_Ok, Z.add_0_l. reflexivity. }
  split; [unfold encode_byte; rewrite Hload; reflexivity|].
  unfold fec_conv_encode. rewrite (encode_data_short _ _ _ _ _ Hlen). reflexivity.
Qed.

(** The position counter after a run of parity emissions that succeeded. *)
Lemma emit_polys_bound ps : forall st st',
  run_list emit_poly ps st = Ok st' ->
  0 <= n st -> n st + Z.of_nat (length ps) < 2 ^ 32 ->
  n st' = n st + Z.of_nat (length ps) /\
  length (msg_enc st') = length (msg_enc st) /\
  (ps <> [] -> (n st' - 1) / 8 < Z.of_nat (length (msg_enc st'))).
Proof.
  induction ps as [|p ps IH]; intros st st' E Hn Hb.
  - cbn in E. injection E as <-. cbn [length]. split; [lia|]. split; [reflexivity|].
    intros H. destruct H. reflexivity.
  - cbn [run_list] in E. cbn [length] in Hb.
    destruct (emit_poly p st) as [s1 | f] eqn:E1; [|rewrite bind_Fault in E; discriminate E].
    rewrite bind_Ok in E. unfold emit_poly, store in E1.
    destruct (decide (0 <= n st / 8 < Z.of_nat (length (msg_enc st)))) as [Hi | Hi];
      [|rewrite bind_Fault in E1; discriminate E1].
    rewrite bind_Ok in E1. injection E1 as <-.
    apply IH in E; cbn [n msg_enc] in *.
    + destruct E as (En & El & Eb). rewrite length_insert in El.
      assert (Hw : wrap32 (n st + 1) = n st + 1) by (unfold wrap32; apply Z.mod_small; lia).
      rewrite Hw in En. cbn [length]. split; [lia|]. split; [exact El|].
      intros _. destruct ps as [|p' ps'].
      * cbn [length] in En. rewrite En. rewrite El.
        replace (n st + 1 + Z.of_nat 0 - 1) with (n st) by lia. lia.
      * rewrite El in Eb. rewrite El. apply Eb. discriminate.
    + unfold wrap32. apply Z.mod_pos_bound. lia.
    + unfold wrap32. rewrite Z.mod_small by lia. lia.
Qed.

Lemma bit_steps_bound R poly bits : forall st st',
  Z.of_nat (length poly) = R ->
  run_list (bit_step R poly) bits st = Ok st' ->
  0 <= n st -> n st + Z.of_nat (length poly * length bits) < 2 ^ 32 ->
  n st' = n st + Z.of_nat (length poly * length bits) /\
  length (msg_enc st') = length (msg_enc st) /\
  (poly <> [] -> bits <> [] -> (n st' - 1) / 8 < Z.of_nat (length (msg_enc st'))).
Proof.
  induction bits as [|b bits IH]; intros st st' HR E Hn Hb.
  - cbn in E. injection E as <-. cbn [length]. rewrite Nat.mul_0_r.
    split; [lia|]. split; [reflexivity|]. intros _ H. destruct H. reflexivity.
  - cbn [run_list] in E. cbn [length] in Hb.
    destruct (bit_step R poly b st) as [s1 | f] eqn:E1;
      [|rewrite bind_Fault in E; discriminate E].
    rewrite bind_Ok in E. unfold bit_step in E1. rewrite (parity_loop_run _ _ _ HR) in E1.
    apply emit_polys_bound in E1; cbn [n msg_enc] in *; [|lia|nia].
    destruct E1 as (En1 & El1 & Eb1).
    apply IH in E; [|exact HR|lia|nia].
    destruct E as (En & El & Eb). cbn [length].
    split; [nia|]. split; [congruence|].
    intros Hp _. destruct bits as [|b' bits'].
    + cbn [length] in En. rewrite Nat.mul_0_r in En.
      rewrite El. replace (n st') with (n s1) by lia. apply Eb1. exact Hp.
    + apply Eb; [exact Hp | discriminate].
Qed.

(** ** Buffers that are too short *)

(** X2 (short output buffer).  On a valid codec, [fec_conv_encode] writes
    every one of the encoded bytes: with an output buffer that holds fewer
    bytes than the encoded length it writes outside the buffer. *)
Theorem fec_conv_encode_short_output (q : fec) (msg buf : list Z) :
  valid_codec q ->
  fits_uint (scheme q) (length msg) ->
  (length buf < enc_len (scheme q) (length msg))%nat ->
  fec_conv_encode q (Z.of_nat (length msg)) msg buf = Fault OutOfBounds.
Proof.
  intros Hv Hfit Hshort. pose proof Hv as (Hs & HR & HK & Hp).
  pose proof (supported_params _ Hs) as [HRr HKr].
  pose proof (enc_len_spec _ _ Hfit Hs) as HL.
  unfold fec_conv_encode.
  destruct (encode_data (R q) (poly q) (Z.of_nat (length msg)) msg (encode_init buf))
    as [st1 | f] eqn:E1.
  2:{ rewrite bind_Fault. f_equal. exact (oob_encode_data _ _ _ _ _ f E1). }
  rewrite bind_Ok.
  destruct (encode_tail (R q) (K q) (poly q) st1) as [st2 | f] eqn:E2.
  2:{ rewrite bind_Fault. f_equal. exact (oob_encode_tail _ _ _ _ f E2). }
  exfalso.
  rewrite encode_data_run in E1. rewrite encode_tail_run in E2 by lia.
  assert (E : run_list (bit_step (R q) (poly q)) (message_bits msg ++ flush_bits (K q))
                (encode_init buf) = Ok st2).
  { rewrite run_list_app, E1, bind_Ok. exact E2. }
  assert (Hbits : Z.of_nat (length (poly q) * length (message_bits msg ++ flush_bits (K q)))
                  = encoded_bits (scheme q) (Z.of_nat (length msg))).
  { rewrite length_app, length_message_bits, length_flush_bits. unfold encoded_bits.
    rewrite Nat2Z.inj_mul, Nat2Z.inj_add, Nat2Z.inj_mul, Hp, HR, HK.
    rewrite Z2Nat.id by lia. change (Z.of_nat 8) with 8. lia. }
  unfold fits_uint in Hfit.
  apply bit_steps_bound in E; [|exact Hp|cbn; lia|cbn [n encode_init]; lia].
  destruct E as (En & El & Eb). cbn [n encode_init msg_enc] in En, El.
  rewrite Hbits in En. rewrite El in Eb.
  assert (Hlt : (n st2 - 1) / 8 < Z.of_nat (length buf)).
  { apply Eb.
    - intros Hnil. rewrite Hnil in Hp. cbn in Hp. lia.
    - intros Hnil. apply (f_equal (@length Z)) in Hnil.
      rewrite length_app, length_flush_bits in Hnil. cbn [length] in Hnil. lia. }
  rewrite En in Hlt. rewrite Z.add_0_l in Hlt.
  set (bits := encoded_bits (scheme q) (Z.of_nat (length msg))) in *.
  assert ((bits + 7) / 8 <= (bits - 1) / 8 + 1).
  { replace (bits + 7) with (bits - 1 + 1 * 8) by lia. rewrite Z.div_add by lia. lia. }
  lia.
Qed.

(** ** The message bytes the encoder reads *)

Lemma encode_data_take R poly (k : nat) msg st :
  (k <= length msg)%nat ->
  encode_data R poly (Z.of_nat k) msg st = encode_data R poly (Z.of_nat k) (take k msg) st.
Proof.
  intros Hk. unfold encode_data. rewrite Nat2Z.id.
  assert (Hlen : length (take k msg) = k) by (rewrite length_take; lia).
  assert (Hsub : forall i a, take k msg !! i = Some a -> msg !! i = Some a).
  { intros i a Hi. rewrite lookup_take_Some in Hi. apply Hi. }
  remember (take k msg) as l eqn:Hl. clear Hl. rewrite <- Hlen.
  rewrite (for_loop_run_list l (encode_byte R poly msg)
             (fun a => for_loop 8 0 (encode_bit R poly a))).
  - rewrite (for_loop_run_list l (encode_byte R poly l)
               (fun a => for_loop 8 0 (encode_bit R poly a))); [reflexivity|].
    intros i a s Hi. unfold encode_byte. rewrite Z.add_0_l, (load_lookup _ _ _ Hi).
    reflexivity.
  - intros i a s Hi. unfold encode_byte. rewrite Z.add_0_l.
    rewrite (load_lookup _ _ _ (Hsub _ _ Hi)). reflexivity.
Qed.

(** X3 (message bytes read).  [fec_conv_encode] reads the first
    [_dec_msg_len] bytes of the message buffer and nothing after them: the
    outcome is that of the call on the buffer cut to that length. *)
Theorem fec_conv_encode_reads_prefix (q : fec) (k : nat) (msg buf : list Z) :
  (k <= length msg)%nat ->
  fec_conv_encode q (Z.of_nat k) msg buf = fec_conv_encode q (Z.of_nat k) (take k msg) buf.
Proof.
  intros Hk. unfold fec_conv_encode. rewrite (encode_data_take _ _ _ _ _ Hk). reflexivity.
Qed.

(** ** The encoder is linear over GF(2) *)

Lemma land_lxor_l x y p : Z.land (Z.lxor x y) p = Z.lxor (Z.land x p) (Z.land y p).
Proof.
  apply Z.bits_inj'. intros i _.
  rewrite Z.land_spec, !Z.lxor_spec, !Z.land_spec.
  destruct (Z.testbit x i), (Z.testbit y i), (Z.testbit p i); reflexivity.
Qed.

Lemma b2z_xorb a b : Z.b2z (xorb a b) = Z.lxor (Z.b2z a) (Z.b2z b).
Proof. destruct a, b; reflexivity. Qed.

Lemma lxor_double a a' (c c' : bool) :
  Z.lxor (2 * a + Z.b2z c) (2 * a' + Z.b2z c') = 2 * Z.lxor a a' + Z.b2z (xorb c c').
Proof.
  apply Z.bits_inj'. intros i Hi.
  destruct (Z.eq_dec i 0) as [-> | Hne].
  - rewrite Z.lxor_spec, !Z.testbit_0_r. reflexivity.
  - replace i with (Z.succ (i - 1)) by lia.
    rewrite Z.lxor_spec, !Z.testbit_succ_r, Z.lxor_spec by lia. reflexivity.
Qed.

Lemma lxor_double_bits a a' b b' :
  is_bit b -> is_bit b' ->
  Z.lxor (2 * a + b) (2 * a' + b') = 2 * Z.lxor a a' + Z.lxor b b'.
Proof.
  intros Hb Hb'. rewrite (is_bit_b2z b Hb), (is_bit_b2z b' Hb') at 1.
  rewrite lxor_double, b2z_xorb, <- (is_bit_b2z b Hb), <- (is_bit_b2z b' Hb'). reflexivity.
Qed.

Lemma is_bit_lxor b b' : is_bit b -> is_bit b' -> is_bit (Z.lxor b b').
Proof. intros [-> | ->] [-> | ->]; cbn; unfold is_bit; auto. Qed.

Lemma is_bit_range b : is_bit b -> 0 <= b <= 1.
Proof. intros [-> | ->]; lia. Qed.

Lemma spec_push_lxor r1 r2 b1 b2 :
  is_bit b1 -> is_bit b2 ->
  spec_push (Z.lxor r1 r2) (Z.lxor b1 b2) = Z.lxor (spec_push r1 b1) (spec_push r2 b2).
Proof.
  intros H1 H2. unfold spec_push.
  rewrite !lor_shiftl_bit by (apply is_bit_range; auto using is_bit_lxor).
  symmetry. apply lxor_double_bits; assumption.
Qed.

Lemma xor_fold_xor (f g : nat -> bool) (l : list nat) :
  fold_right xorb false (map (fun i => xorb (f i) (g i)) l) =
  xorb (fold_right xorb false (map f l)) (fold_right xorb false (map g l)).
Proof.
  induction l as [|i l IH]; [reflexivity|]. cbn [map fold_right]. rewrite IH.
  destruct (f i), (g i), (fold_right xorb false (map f l)),
    (fold_right xorb false (map g l)); reflexivity.
Qed.

Lemma parity_lxor x y : parity (Z.lxor x y) = Z.lxor (parity x) (parity y).
Proof.
  unfold parity. rewrite <- b2z_xorb, <- xor_fold_xor. f_equal. f_equal.
  apply map_ext. intros i. apply Z.lxor_spec.
Qed.

Lemma spec_parities_lxor polys r1 r2 :
  spec_parities polys (Z.lxor r1 r2) =
  zip_with Z.lxor (spec_parities polys r1) (spec_parities polys r2).
Proof.
  unfold spec_parities. induction polys as [|p ps IH]; [reflexivity|].
  cbn [map zip_with]. rewrite IH, land_lxor_l, parity_lxor. reflexivity.
Qed.

Lemma spec_stream_lxor polys : forall b1 b2 r1 r2,
  length b1 = length b2 -> Forall is_bit b1 -> Forall is_bit b2 ->
  spec_stream polys (Z.lxor r1 r2) (zip_with Z.lxor b1 b2) =
  zip_with Z.lxor (spec_stream polys r1 b1) (spec_stream polys r2 b2).
Proof.
  induction b1 as [|x b1 IH]; intros [|y b2] r1 r2 Hlen H1 H2;
    try discriminate Hlen; [reflexivity|].
  inversion H1 as [|? ? Hx H1']; subst. inversion H2 as [|? ? Hy H2']; subst.
  cbn [zip_with spec_stream]. rewrite spec_push_lxor by assumption.
  rewrite spec_parities_lxor, IH by (auto; cbn in Hlen; lia).
  symmetry. apply zip_with_app. rewrite !length_spec_parities. reflexivity.
Qed.

Lemma bit_lxor x y k :
  Z.land (Z.shiftr (Z.lxor x y) k) 1 =
  Z.lxor (Z.land (Z.shiftr x k) 1) (Z.land (Z.shiftr y k) 1).
Proof. rewrite Z.shiftr_lxor. apply land_lxor_l. Qed.

Lemma byte_bits_lxor x y :
  byte_bits (Z.lxor x y) = zip_with Z.lxor (byte_bits x) (byte_bits y).
Proof. unfold byte_bits. cbn [seq map zip_with]. rewrite !bit_lxor. reflexivity. Qed.

Lemma message_bits_cons x msg : message_bits (x :: msg) = byte_bits x ++ message_bits msg.
Proof. reflexivity. Qed.

Lemma message_bits_lxor : forall a b,
  length a = length b ->
  message_bits (xor_bytes a b) = zip_with Z.lxor (message_bits a) (message_bits b).
Proof.
  induction a as [|x a IH]; intros [|y b] Hlen; try discriminate Hlen; [reflexivity|].
  unfold xor_bytes. cbn [zip_with]. rewrite !message_bits_cons.
  fold (xor_bytes a b). rewrite IH by (cbn in Hlen; lia).
  rewrite byte_bits_lxor. symmetry. apply zip_with_app. rewrite !length_byte_bits. reflexivity.
Qed.

Lemma zip_lxor_zeros k :
  zip_with Z.lxor (replicate k 0) (replicate k 0) = replicate k 0.
Proof. induction k as [|k IH]; [reflexivity|]. cbn. rewrite IH. reflexivity. Qed.

Lemma zip_lxor_diag (l : list Z) : zip_with Z.lxor l l = replicate (length l) 0.
Proof.
  induction l as [|x l IH]; [reflexivity|]. cbn. rewrite IH, Z.lxor_nilpotent. reflexivity.
Qed.

Lemma length_xor_bytes a b : length a = length b -> length (xor_bytes a b) = length a.
Proof. intros H. unfold xor_bytes. rewrite length_zip_with. lia. Qed.

Lemma spec_encoded_stream_lxor polys K a b :
  length a = length b ->
  spec_encoded_stream polys K (xor_bytes a b) =
  zip_with Z.lxor (spec_encoded_stream polys K a) (spec_encoded_stream polys K b).
Proof.
  intros Hlen. rewrite !spec_encoded_stream_eq, message_bits_lxor by exact Hlen.
  assert (Hf : flush_bits K = zip_with Z.lxor (flush_bits K) (flush_bits K)).
  { unfold flush_bits. symmetry. apply zip_lxor_zeros. }
  rewrite Hf at 1.
  rewrite <- zip_with_app by (rewrite !length_message_bits; lia).
  change 0 with (Z.lxor 0 0) at 1. apply spec_stream_lxor.
  - rewrite !length_app, !length_message_bits. lia.
  - apply Forall_app. split; [apply message_bits_bits|]. apply Forall_replicate. left. reflexivity.
  - apply Forall_app. split; [apply message_bits_bits|]. apply Forall_replicate. left. reflexivity.
Qed.

Lemma spec_padded_stream_lxor polys K a b :
  length a = length b ->
  spec_padded_stream polys K (xor_bytes a b) =
  zip_with Z.lxor (spec_padded_stream polys K a) (spec_padded_stream polys K b).
Proof.
  intros Hlen. unfold spec_padded_stream.
  rewrite spec_encoded_stream_lxor by exact Hlen.
  assert (Hab : length (spec_encoded_stream polys K a) = length (spec_encoded_stream polys K b)).
  { rewrite !length_spec_encoded_stream, Hlen. reflexivity. }
  rewrite length_zip_with, <- Hab, Nat.min_id.
  rewrite zip_with_app by exact Hab. rewrite zip_lxor_zeros. reflexivity.
Qed.

Lemma is_byte_lxor x y : is_byte x -> is_byte y -> is_byte (Z.lxor x y).
Proof.
  intros Hx Hy. unfold is_byte in *.
  assert (E : Z.lxor x y mod 2 ^ 8 = Z.lxor x y).
  { apply Z.bits_inj'. intros i Hi. destruct (Z_lt_le_dec i 8) as [Hlt | Hge].
    - apply Z.mod_pow2_bits_low. lia.
    - rewrite Z.mod_pow2_bits_high by lia.
      rewrite Z.lxor_spec, (testbit_above_256 x i), (testbit_above_256 y i) by lia.
      reflexivity. }
  rewrite <- E. apply Z.mod_pos_bound. lia.
Qed.

Lemma pack_msb_bytes : forall k bs, Forall is_bit bs -> Forall is_byte (pack_msb k bs).
Proof.
  induction k as [|k IH]; intros bs Hb; [constructor|]. cbn [pack_msb]. constructor.
  - assert (Hr : Forall is_bit (resize 8 0 bs)).
    { apply Forall_resize; [left; reflexivity | exact Hb]. }
    pose proof (bits_value_range _ Hr) as H. rewrite length_resize in H. exact H.
  - apply IH. apply Forall_drop. exact Hb.
Qed.

Lemma xor_bytes_bytes : forall a b,
  Forall is_byte a -> Forall is_byte b -> Forall is_byte (xor_bytes a b).
Proof.
  unfold xor_bytes. induction a as [|x a IH]; intros [|y b] Ha Hb; try constructor.
  - inversion Ha; inversion Hb; subst. apply is_byte_lxor; assumption.
  - inversion Ha; inversion Hb; subst. apply IH; assumption.
Qed.

Lemma pack_msb_lxor L s1 s2 :
  Forall is_bit s1 -> Forall is_bit s2 ->
  length s1 = (8 * L)%nat -> length s2 = (8 * L)%nat ->
  pack_msb L (zip_with Z.lxor s1 s2) = xor_bytes (pack_msb L s1) (pack_msb L s2).
Proof.
  intros H1 H2 L1 L2.
  set (X := xor_bytes (pack_msb L s1) (pack_msb L s2)).
  assert (HX : length X = L).
  { unfold X. rewrite length_xor_bytes; rewrite !length_pack_msb; reflexivity. }
  assert (HM : message_bits X = zip_with Z.lxor s1 s2).
  { unfold X. rewrite message_bits_lxor by (rewrite !length_pack_msb; reflexivity).
    rewrite !message_bits_pack by assumption. reflexivity. }
  rewrite <- HM. rewrite <- HX at 1. apply pack_msb_message.
  apply xor_bytes_bytes; apply pack_msb_bytes; assumption.
Qed.

(** The codeword of the sum of two messages is the sum of their codewords. *)
Lemma encode_xor q a b buf :
  valid_codec q ->
  length a = length b ->
  fits_uint (scheme q) (length a) ->
  (enc_len (scheme q) (length a) <= length buf)%nat ->
  let L := enc_len (scheme q) (length a) in
  let ea := pack_msb L (spec_padded_stream (poly q) (K q) a) in
  let eb := pack_msb L (spec_padded_stream (poly q) (K q) b) in
  fec_conv_encode q (Z.of_nat (length a)) a buf = Ok (ea ++ drop L buf) /\
  fec_conv_encode q (Z.of_nat (length a)) b buf = Ok (eb ++ drop L buf) /\
  fec_conv_encode q (Z.of_nat (length a)) (xor_bytes a b) buf =
    Ok (xor_bytes ea eb ++ drop L buf) /\
  length ea = L /\ length eb = L.
Proof.
  intros Hv Hlen Hfit Hcap L ea eb.
  split; [apply fec_conv_encode_ok; assumption|].
  split.
  { unfold eb, L. rewrite Hlen. apply fec_conv_encode_ok; try rewrite <- Hlen; assumption. }
  split; [|unfold ea, eb; rewrite !length_pack_msb; auto].
  pose proof (fec_conv_encode_ok q (xor_bytes a b) buf Hv) as H.
  rewrite length_xor_bytes in H by exact Hlen. rewrite (H Hfit Hcap). f_equal. f_equal.
  fold L. rewrite spec_padded_stream_lxor by exact Hlen.
  apply pack_msb_lxor; try apply padded_stream_bits.
  - apply padded_stream_length; assumption.
  - unfold L. rewrite Hlen. apply padded_stream_length; try rewrite <- Hlen; assumption.
Qed.

(** X4 (linearity).  The code is linear over GF(2): for two messages of
    the same length, the codeword of their bytewise exclusive or is the
    bytewise exclusive or of their codewords. *)
Theorem fec_conv_encode_linear (q : fec) (a b buf : list Z) :
  valid_codec q ->
  length a = length b ->
  fits_uint (scheme q) (length a) ->
  (enc_len (scheme q) (length a) <= length buf)%nat ->
  exists ea eb,
    length ea = enc_len (scheme q) (length a) /\
    length eb = enc_len (scheme q) (length a) /\
    fec_conv_encode q (Z.of_nat (length a)) a buf =
      Ok (ea ++ drop (enc_len (scheme q) (length a)) buf) /\
    fec_conv_encode q (Z.of_nat (length a)) b buf =
      Ok (eb ++ drop (enc_len (scheme q) (length a)) buf) /\
    fec_conv_encode q (Z.of_nat (length a)) (xor_bytes a b) buf =
      Ok (xor_bytes ea eb ++ drop (enc_len (scheme q) (length a)) buf).
Proof.
  intros Hv Hlen Hfit Hcap.
  destruct (encode_xor q a b buf Hv Hlen Hfit Hcap) as (Ha & Hb & Hx & La & Lb).
  eexists _, _. split; [exact La|]. split; [exact Lb|]. auto.
Qed.

(** X5 (zero message).  A message of [k] zero bytes, the empty message
    included, encodes to zero bytes only: the register never leaves 0, so
    every parity, flush and padding bit is 0. *)
Theorem fec_conv_encode_zero_message (q : fec) (k : nat) (buf : list Z) :
  valid_codec q ->
  fits_uint (scheme q) k ->
  (enc_len (scheme q) k <= length buf)%nat ->
  fec_conv_encode q (Z.of_nat k) (replicate k 0) buf =
  Ok (replicate (enc_len (scheme q) k) 0 ++ drop (enc_len (scheme q) k) buf).
Proof.
  intros Hv Hfit Hcap.
  pose proof (encode_xor q (replicate k 0) (replicate k 0) buf Hv eq_refl) as H.
  rewrite length_replicate in H. destruct (H Hfit Hcap) as (_ & _ & Hx & Hl & _).
  unfold xor_bytes in Hx. rewrite zip_lxor_zeros, zip_lxor_diag, Hl in Hx. exact Hx.
Qed.

(** ** The encoder is causal *)

Lemma message_bits_app a b : message_bits (a ++ b) = message_bits a ++ message_bits b.
Proof. unfold message_bits. rewrite map_app, concat_app. reflexivity. Qed.

Lemma pack_msb_prefix : forall k L D X,
  (k <= L)%nat -> length D = (8 * k)%nat ->
  take k (pack_msb L (D ++ X)) = pack_msb k D.
Proof.
  induction k as [|k IH]; intros L D X HL HD; [apply take_0|].
  destruct L as [|L]; [lia|]. cbn [pack_msb take]. f_equal.
  - f_equal. rewrite !resize_le by (rewrite ?length_app; lia).
    apply take_app_le. lia.
  - rewrite drop_app_le by lia. apply IH; [lia|]. rewrite length_drop. lia.
Qed.

Lemma padded_stream_app polys K a b :
  exists X, spec_padded_stream polys K (a ++ b) = spec_data_stream polys a ++ X.
Proof.
  assert (Hd : spec_data_stream polys (a ++ b) =
               spec_data_stream polys a ++
               spec_stream polys (spec_register 0 (message_bits a)) (message_bits b)).
  { unfold spec_data_stream. rewrite message_bits_app. apply spec_stream_app. }
  unfold spec_padded_stream, spec_encoded_stream. rewrite Hd.
  rewrite <- !app_assoc. eexists. reflexivity.
Qed.

Lemma length_spec_data_stream polys a :
  length (spec_data_stream polys a) = (8 * (length polys * length a))%nat.
Proof. unfold spec_data_stream. rewrite length_spec_stream, length_message_bits. lia. Qed.

Lemma data_bytes_le q (k : nat) :
  valid_codec q -> fits_uint (scheme q) k ->
  (length (poly q) * k <= enc_len (scheme q) k)%nat.
Proof.
  intros (Hs & HR & HK & Hp) Hfit. apply Nat2Z.inj_le.
  rewrite enc_len_spec by assumption. rewrite Nat2Z.inj_mul, Hp, HR.
  apply supported_params in Hs as [HRr HKr].
  apply Z.div_le_lower_bound; [lia|]. unfold encoded_bits. nia.
Qed.

(** The first [R * length a] bytes of a codeword are the packed data
    stream of the first [length a] message bytes. *)
Lemma encode_data_bytes q a b buf :
  valid_codec q ->
  fits_uint (scheme q) (length (a ++ b)) ->
  (enc_len (scheme q) (length (a ++ b)) <= length buf)%nat ->
  exists e,
    fec_conv_encode q (Z.of_nat (length (a ++ b))) (a ++ b) buf = Ok e /\
    take (length (poly q) * length a) e =
    pack_msb (length (poly q) * length a) (spec_data_stream (poly q) a).
Proof.
  intros Hv Hfit Hcap. pose proof Hv as (Hs & _).
  rewrite (fec_conv_encode_ok q (a ++ b) buf Hv Hfit Hcap). eexists. split; [reflexivity|].
  destruct (padded_stream_app (poly q) (K q) a b) as [X ->].
  assert (Hle : (length (poly q) * length a <= enc_len (scheme q) (length (a ++ b)))%nat).
  { etransitivity; [apply (data_bytes_le q (length a) Hv)|].
    - apply (fits_uint_mono _ _ _ Hs) with (2 := Hfit). rewrite length_app. lia.
    - apply enc_len_mono; [exact Hs| rewrite length_app; lia | exact Hfit]. }
  rewrite take_app_le by (rewrite length_pack_msb; exact Hle).
  apply pack_msb_prefix; [exact Hle | apply length_spec_data_stream].
Qed.

(** X6 (causality).  The first [R * length a] bytes of the codeword of
    [a ++ b] are those of the codeword of [a]: the [R] output bytes of an
    input byte depend on that byte and the bytes before it only. *)
Theorem fec_conv_encode_causal (q : fec) (a b buf : list Z) :
  valid_codec q ->
  fits_uint (scheme q) (length (a ++ b)) ->
  (enc_len (scheme q) (length (a ++ b)) <= length buf)%nat ->
  exists ea eab,
    fec_conv_encode q (Z.of_nat (length a)) a buf = Ok ea /\
    fec_conv_encode q (Z.of_nat (length (a ++ b))) (a ++ b) buf = Ok eab /\
    take (Z.to_nat (R q) * length a) eab = take (Z.to_nat (R q) * length a) ea.
Proof.
  intros Hv Hfit Hcap. pose proof Hv as (Hs & HR & HK & Hp).
  assert (Hla : (length a <= length (a ++ b))%nat) by (rewrite length_app; lia).
  pose proof (fits_uint_mono _ _ _ Hs Hla Hfit) as Hfa.
  pose proof (enc_len_mono _ _ _ Hs Hla Hfit) as Hea.
  destruct (encode_data_bytes q a b buf Hv Hfit Hcap) as (eab & Eab & Tab).
  destruct (encode_data_bytes q a [] buf Hv) as (ea & Ea & Ta);
    try (rewrite app_nil_r; first [assumption | lia]).
  rewrite app_nil_r in Ea. exists ea, eab. split; [exact Ea|]. split; [exact Eab|].
  rewrite <- Hp, Nat2Z.id, Tab, Ta. reflexivity.
Qed.

(** ** The encoder is one-to-one *)

Lemma testbit_spec_push reg b i :
  is_bit b -> 0 <= i ->
  Z.testbit (spec_push reg b) i =
  if decide (i = 0) then (b =? 1) else Z.testbit reg (i - 1).
Proof.
  intros Hb Hi. unfold spec_push. rewrite lor_shiftl_bit by (apply is_bit_range; exact Hb).
  rewrite (is_bit_b2z b Hb) at 1. case_decide as H0.
  - subst i. apply Z.testbit_0_r.
  - replace i with (Z.succ (i - 1)) at 1 by lia. apply Z.testbit_succ_r. lia.
Qed.

Lemma newest_bit_parity reg p :
  Z.testbit p 0 = true ->
  parity (Z.land (spec_push reg 0) p) = 1 - parity (Z.land (spec_push reg 1) p).
Proof.
  intros Hp. apply (parity_flip _ _ 0); [lia| |].
  - intros i Hi Hne. rewrite !Z.land_spec, !testbit_spec_push by (unfold is_bit; auto; lia).
    rewrite !decide_False by exact Hne. reflexivity.
  - rewrite !Z.land_spec, !testbit_spec_push by (unfold is_bit; auto; lia).
    rewrite !decide_True by reflexivity. rewrite Hp. reflexivity.
Qed.

Lemma spec_parities_inj polys reg b1 b2 :
  taps_newest_bit polys -> is_bit b1 -> is_bit b2 ->
  spec_parities polys (spec_push reg b1) = spec_parities polys (spec_push reg b2) ->
  b1 = b2.
Proof.
  unfold taps_newest_bit, spec_parities. intros Htap H1 H2.
  induction Htap as [p ps Hp | p ps _ IH]; cbn [map]; intros E; injection E as Ep Eps.
  - pose proof (newest_bit_parity reg p Hp) as Hflip.
    pose proof (parity_range (Z.land (spec_push reg 1) p)).
    destruct H1 as [-> | ->], H2 as [-> | ->]; try reflexivity; exfalso; lia.
  - apply IH. exact Eps.
Qed.

Lemma spec_stream_inj polys : taps_newest_bit polys ->
  forall b1 b2 reg,
  length b1 = length b2 -> Forall is_bit b1 -> Forall is_bit b2 ->
  spec_stream polys reg b1 = spec_stream polys reg b2 -> b1 = b2.
Proof.
  intros Htap. induction b1 as [|x b1 IH]; intros [|y b2] reg Hlen H1 H2 E;
    try discriminate Hlen; [reflexivity|].
  inversion H1 as [|? ? Hx H1']; subst. inversion H2 as [|? ? Hy H2']; subst.
  cbn [spec_stream] in E. apply app_inj_1 in E as [Ep Er];
    [|rewrite !length_spec_parities; reflexivity].
  pose proof (spec_parities_inj _ _ _ _ Htap Hx Hy Ep) as ->.
  f_equal. apply (IH b2 (spec_push reg y)); auto.
Qed.

(** X7 (one-to-one).  When some polynomial taps the newest register bit,
    two messages of the same length whose codewords agree on the first
    [m] bytes, [m] at least [R] times the message length, are the same
    message: no two messages share a codeword, and the data part of a
    codeword already tells the message. *)
Theorem fec_conv_encode_injective (q : fec) (a b buf1 buf2 e1 e2 : list Z) (m : nat) :
  valid_codec q ->
  taps_newest_bit (poly q) ->
  Forall is_byte a -> Forall is_byte b ->
  length a = length b ->
  fits_uint (scheme q) (length a) ->
  (enc_len (scheme q) (length a) <= length buf1)%nat ->
  (enc_len (scheme q) (length a) <= length buf2)%nat ->
  fec_conv_encode q (Z.of_nat (length a)) a buf1 = Ok e1 ->
  fec_conv_encode q (Z.of_nat (length a)) b buf2 = Ok e2 ->
  (Z.to_nat (R q) * length a <= m)%nat ->
  take m e1 = take m e2 ->
  a = b.
Proof.
  intros Hv Htap Ha Hb Hlen Hfit Hc1 Hc2 E1 E2 Hm Et.
  pose proof Hv as (_ & _ & _ & Hp). rewrite <- Hp, Nat2Z.id in Hm. clear Hp.
  set (d := (length (poly q) * length a)%nat) in *.
  destruct (encode_data_bytes q a [] buf1 Hv) as (e1' & E1' & T1);
    try (rewrite app_nil_r; assumption).
  destruct (encode_data_bytes q b [] buf2 Hv) as (e2' & E2' & T2);
    try (rewrite app_nil_r, <- Hlen; assumption).
  rewrite app_nil_r in E1', E2'. rewrite <- Hlen in E2', T2. fold d in T1, T2.
  rewrite E1 in E1'. injection E1' as <-. rewrite E2 in E2'. injection E2' as <-.
  assert (Hd : take d e1 = take d e2).
  { replace d with (d `min` m)%nat by lia. rewrite <- !take_take, Et. reflexivity. }
  rewrite T1, T2 in Hd.
  apply (f_equal message_bits) in Hd.
  rewrite !message_bits_pack in Hd;
    try (unfold spec_data_stream; apply spec_stream_bits);
    try (rewrite length_spec_data_stream; unfold d; lia).
  unfold spec_data_stream in Hd.
  apply (spec_stream_inj _ Htap) in Hd;
    [|rewrite !length_message_bits; lia|apply message_bits_bits|apply message_bits_bits].
  rewrite <- (pack_msb_message a Ha), <- (pack_msb_message b Hb), Hd, Hlen. reflexivity.
Qed.

(** ** A created codec encodes *)

Section CreatedCodec.
Variables fec_conv27_poly fec_conv29_poly fec_conv39_poly fec_conv615_poly : list Z.
Variables FEC_SOFTBIT_0 FEC_SOFTBIT_1 : Z.

Local Abbreviation create :=
  (fec_conv_create fec_conv27_poly fec_conv29_poly fec_conv39_poly fec_conv615_poly
                   FEC_SOFTBIT_0 FEC_SOFTBIT_1).

(** X8 (created codec).  The codec that [fec_conv_create] returns for a
    supported scheme encodes with the rate, the constraint length and the
    polynomial table that [fec_conv_init_v27], [_v29], [_v39] or [_v615]
    set for the scheme: the encoder's final assertion holds and the
    codeword is the packed stream of the scheme, whatever [malloc] left in
    the object. *)
Theorem fec_conv_create_encodes (fs : fec_scheme) (junk : Z) (q : fec)
    (msg buf : list Z) :
  create fs junk = Ok q ->
  Z.of_nat (length (poly_table fec_conv27_poly fec_conv29_poly fec_conv39_poly
                      fec_conv615_poly fs)) = scheme_R fs ->
  fits_uint fs (length msg) ->
  (enc_len fs (length msg) <= length buf)%nat ->
  fec_conv_encode q (Z.of_nat (length msg)) msg buf =
  Ok (pack_msb (enc_len fs (length msg))
        (spec_padded_stream
           (poly_table fec_conv27_poly fec_conv29_poly fec_conv39_poly fec_conv615_poly fs)
           (scheme_K fs) msg)
      ++ drop (enc_len fs (length msg)) buf).
Proof.
  intros Hc Htab Hfit Hcap.
  destruct (create_inv _ _ _ _ _ _ _ _ _ Hc) as (Hs & Hq & _).
  pose proof (codec_of_valid _ _ _ _ _ _ _ _ Hs Htab Hq) as Hv.
  destruct Hq as (Hsch & _ & HK & Hp & _).
  rewrite <- Hsch in Hfit, Hcap.
  rewrite (fec_conv_encode_ok q msg buf Hv Hfit Hcap), Hsch, HK, Hp. reflexivity.
Qed.
End CreatedCodec.

(** ** The decoder on arbitrary input *)

Section ViterbiTotal.
Variables (K : Z) (poly : list Z) (s0 s1 : Z).

Lemma update_loop_total buf : forall (c i : nat) v,
  (length poly * (i + c) <= length buf)%nat ->
  exists w,
    for_loop c (Z.of_nat i) (viterbi_update_body K poly s0 s1 (Some buf)) v = Ok w /\
    v_len w = v_len v /\
    length (survivors w) = (length (survivors v) + c)%nat /\
    (c <> 0%nat -> v_phase w = Decoding).
Proof.
  induction c as [|c IH]; intros i v Hlen.
  - exists v. cbn [for_loop]. repeat split; [lia | intros H; destruct H; reflexivity].
  - cbn [for_loop].
    assert (Hb : viterbi_update_body K poly s0 s1 (Some buf) (Z.of_nat i) v =
                 Ok {| v_len := v_len v; v_phase := Decoding;
                       metrics := fst (update_step K poly s0 s1 (metrics v)
                                     (take (length poly) (drop (length poly * i) buf)));
                       survivors := survivors v ++
                         [snd (update_step K poly s0 s1 (metrics v)
                                 (take (length poly) (drop (length poly * i) buf)))] |}).
    { unfold viterbi_update_body. rewrite bind_Ok, symbol_group_take by nia.
      rewrite bind_Ok. reflexivity. }
    rewrite Hb, bind_Ok. replace (Z.of_nat i + 1) with (Z.of_nat (S i)) by lia.
    match goal with |- context [for_loop c _ _ ?v1] =>
      destruct (IH (S i) v1 ltac:(nia)) as (w & Hw & Hl & Hs & Hp) end.
    exists w. split; [exact Hw|]. cbn [v_len survivors] in Hl, Hs.
    rewrite length_app in Hs. cbn [length] in Hs.
    split; [exact Hl|]. split; [lia|]. intros _.
    destruct c as [|c']; [|apply Hp; discriminate].
    cbn [for_loop] in Hw. injection Hw as <-. reflexivity.
Qed.
End ViterbiTotal.

Lemma walk_back_bits : forall rows s, Forall is_bit (walk_back rows s).
Proof.
  induction rows as [|row rows IH]; intros s; cbn [walk_back]; constructor.
  - rewrite land_1_mod. unfold is_bit. pose proof (Z.mod_pos_bound s 2 ltac:(lia)). lia.
  - apply IH.
Qed.

Lemma traced_bits_bits v e : Forall is_bit (traced_bits v e).
Proof. unfold traced_bits. apply Forall_rev, walk_back_bits. Qed.

Section DecodeTotal.
Variables fec_conv27_poly fec_conv29_poly fec_conv39_poly fec_conv615_poly : list Z.
Variables FEC_SOFTBIT_0 FEC_SOFTBIT_1 : Z.
Variable fresh_byte : Z.

Local Abbreviation create :=
  (fec_conv_create fec_conv27_poly fec_conv29_poly fec_conv39_poly fec_conv615_poly
                   FEC_SOFTBIT_0 FEC_SOFTBIT_1).
Local Abbreviation setlength := (fec_conv_setlength fresh_byte).
Local Abbreviation decode := (fec_conv_decode FEC_SOFTBIT_0 FEC_SOFTBIT_1 fresh_byte).
Local Abbreviation table :=
  (poly_table fec_conv27_poly fec_conv29_poly fec_conv39_poly fec_conv615_poly).
Local Abbreviation is_codec :=
  (codec_of fec_conv27_poly fec_conv29_poly fec_conv39_poly fec_conv615_poly
            FEC_SOFTBIT_0 FEC_SOFTBIT_1).

Lemma decode_total fs q (n : nat) enc dec :
  supported fs -> is_codec fs q ->
  Z.of_nat (length (table fs)) = scheme_R fs ->
  fits_uint fs n ->
  decoder_sized q \/ Z.of_nat n <> num_dec_bytes q ->
  (enc_len fs n <= length enc)%nat ->
  (n <= length dec)%nat ->
  exists q' bytes tr,
    decode q (Z.of_nat n) enc dec = Ok (q', bytes ++ drop n dec, tr) /\
    length bytes = n /\ Forall is_byte bytes /\
    is_codec fs q' /\ decoder_sized q' /\ num_dec_bytes q' = Z.of_nat n.
Proof.
  intros Hs Hq Htab Hfit Hsz Henc Hdec.
  destruct (decode_run fec_conv27_poly fec_conv29_poly fec_conv39_poly fec_conv615_poly
              FEC_SOFTBIT_0 FEC_SOFTBIT_1 fresh_byte fs q n enc dec Hs Hq Hfit Hsz Henc)
    as (q1 & ev1 & Hset & Hq1 & Hsz1 & Hn1 & Hrun).
  pose proof (supported_params _ Hs) as [HRr HKr].
  destruct (fits_bounds fs n Hs Hfit) as (Hb1 & Hb2 & Hget).
  pose proof (enc_len_spec _ _ Hfit Hs) as HL.
  set (syms := decode_symbols FEC_SOFTBIT_0 FEC_SOFTBIT_1 fs n enc) in *.
  assert (Hsyms : length syms = (8 * enc_len fs n)%nat).
  { unfold syms, decode_symbols. rewrite length_map, length_message_bits, length_take. lia. }
  set (nb := Z.to_nat (8 * Z.of_nat n + scheme_K fs - 1)).
  assert (Hcap : (length (table fs) * (0 + nb) <= length syms)%nat).
  { rewrite Hsyms. apply Nat2Z.inj_le. rewrite Nat2Z.inj_mul, Htab. unfold nb.
    rewrite Nat.add_0_l, Z2Nat.id by lia. rewrite Nat2Z.inj_mul, HL.
    change (Z.of_nat 8) with 8.
    pose proof (Z.mul_div_le (encoded_bits fs (Z.of_nat n) + 7) 8 ltac:(lia)).
    pose proof (Z.mod_pos_bound (encoded_bits fs (Z.of_nat n) + 7) 8 ltac:(lia)).
    pose proof (Z.div_mod (encoded_bits fs (Z.of_nat n) + 7) 8 ltac:(lia)).
    unfold encoded_bits in *. lia. }
  destruct (update_loop_total (scheme_K fs) (table fs) FEC_SOFTBIT_0 FEC_SOFTBIT_1 syms nb 0
              (decoder_reset fs n) Hcap) as (w & Hw & Hlw & Hsw & Hpw).
  cbn [decoder_reset survivors v_len length] in Hlw, Hsw.
  assert (Hup : viterbi_update_blk (scheme_K fs) (table fs) FEC_SOFTBIT_0 FEC_SOFTBIT_1
                  (Some (decoder_reset fs n)) (Some syms)
                  (8 * Z.of_nat n + scheme_K fs - 1) = Ok (Some w)).
  { unfold viterbi_update_blk. cbn [decoder_reset v_phase survivors v_len length].
    rewrite decide_True by lia. fold nb. change 0 with (Z.of_nat 0) at 1.
    rewrite Hw. reflexivity. }
  set (bytes := pack_msb n (take (Z.to_nat (8 * Z.of_nat n)) (traced_bits w 0))).
  assert (Hcb : viterbi_chainback (Some w) dec (8 * Z.of_nat n) 0 =
                Ok (Some {| v_len := v_len w; v_phase := Terminated;
                            metrics := metrics w; survivors := survivors w |},
                    bytes ++ drop n dec)).
  { unfold viterbi_chainback. rewrite Hpw by (unfold nb; lia).
    rewrite decide_True by (rewrite Hsw; unfold nb; lia).
    replace (Z.to_nat ((8 * Z.of_nat n + 7) / 8)) with n.
    2:{ replace (8 * Z.of_nat n + 7) with (7 + Z.of_nat n * 8) by lia.
        rewrite Z.div_add by lia. change (7 / 8) with 0. lia. }
    fold bytes. rewrite decide_True by (unfold bytes; rewrite length_pack_msb; exact Hdec).
    unfold bytes at 2. rewrite length_pack_msb. reflexivity. }
  assert (Hok : decode q (Z.of_nat n) enc dec =
                Ok (with_buffers q1 (Some syms)
                      (Some {| v_len := v_len w; v_phase := Terminated;
                               metrics := metrics w; survivors := survivors w |}),
                    bytes ++ drop n dec,
                    ev1 ++ decode_events FEC_SOFTBIT_0 FEC_SOFTBIT_1 fs n enc)).
  { rewrite Hrun, Hup, bind_Ok, Hcb. reflexivity. }
  eexists _, bytes, _. split; [exact Hok|].
  split; [unfold bytes; apply length_pack_msb|].
  split; [unfold bytes; apply pack_msb_bytes, Forall_take, traced_bits_bits|].
  destruct (decode_result fec_conv27_poly fec_conv29_poly fec_conv39_poly fec_conv615_poly
              FEC_SOFTBIT_0 FEC_SOFTBIT_1 fresh_byte fs q n enc dec _ _ _
              Hs Hq Hfit Hsz Henc Hok) as (_ & _ & _ & _ & _ & _ & _ & H1 & H2 & H3).
  auto.
Qed.

(** X10 (decoding never fails on sized buffers).  Whatever bytes are
    received, corrupted or not, a decode with buffers of the right size
    returns: it writes exactly the requested number of bytes at the start of
    the output buffer, leaves the rest of it as it was, and leaves the codec
    with its working memory sized for that length. *)
Theorem fec_conv_decode_total (fs : fec_scheme) (q : fec) (n : nat) (enc dec : list Z) :
  supported fs -> is_codec fs q ->
  Z.of_nat (length (table fs)) = scheme_R fs ->
  fits_uint fs n ->
  decoder_sized q \/ Z.of_nat n <> num_dec_bytes q ->
  (enc_len fs n <= length enc)%nat ->
  (n <= length dec)%nat ->
  exists q' bytes tr,
    decode q (Z.of_nat n) enc dec = Ok (q', bytes ++ drop n dec, tr) /\
    length bytes = n /\ Forall is_byte bytes /\
    is_codec fs q' /\ decoder_sized q' /\ num_dec_bytes q' = Z.of_nat n.
Proof.
  exact (decode_total fs q n enc dec).
Qed.

(** X11 (short encoded buffer).  [fec_conv_decode] asks
    [liquid_unpack_bytes] for [num_enc_bytes] bytes of [_msg_enc], the
    encoded length of the requested message length: on an encoded buffer
    that holds fewer bytes the call reads outside the buffer. *)
Theorem fec_conv_decode_short_input (fs : fec_scheme) (q : fec) (n : nat)
    (enc dec : list Z) :
  supported fs -> is_codec fs q ->
  fits_uint fs n ->
  decoder_sized q \/ Z.of_nat n <> num_dec_bytes q ->
  (length enc < enc_len fs n)%nat ->
  decode q (Z.of_nat n) enc dec = Fault OutOfBounds.
Proof.
  intros Hs Hq Hfit Hsz Hshort.
  destruct (setlength_run fec_conv27_poly fec_conv29_poly fec_conv39_poly fec_conv615_poly
              FEC_SOFTBIT_0 FEC_SOFTBIT_1 fresh_byte fs q n Hs Hq Hsz)
    as (q1 & ev1 & Hset & Hq1 & Hsz1 & Hn1).
  destruct (fits_bounds fs n Hs Hfit) as (Hb1 & Hb2 & Hget).
  destruct Hsz1 as (v & eb & Hvp & Heb & Hvlen & Hneb & Hlen).
  pose proof Hq1 as (Hsch & _).
  rewrite Hn1, Hsch, Hget in Hneb.
  unfold fec_conv_decode. rewrite Hset, bind_Ok. cbv beta iota.
  rewrite Hneb, Heb.
  assert (Hun : liquid_unpack_bytes enc (Z.of_nat (enc_len fs n)) (Some eb)
                  (wrap32 (Z.of_nat (enc_len fs n) * 8)) = Fault OutOfBounds).
  { unfold liquid_unpack_bytes. rewrite Nat2Z.id.
    replace (enc_len fs n) with (length enc + S (enc_len fs n - S (length enc)))%nat by lia.
    rewrite for_loop_add.
    assert (Hbyte : forall i out,
               (exists out', unpack_byte enc i (Some out) = Ok (Some out')) \/
               unpack_byte enc i (Some out) = Fault OutOfBounds).
    { intros i out. unfold unpack_byte.
      destruct (load enc i) as [byte | g] eqn:El.
      - rewrite bind_Ok.
        destruct (for_loop 8 0 (fun j b => store b (8 * i + j)
                    (Z.land (Z.shiftr byte (7 - j)) 1)) out) as [out' | g] eqn:Es.
        + left. eexists. reflexivity.
        + right. rewrite bind_Fault. f_equal.
          refine (oob_for_loop _ _ 8%nat 0 out g Es). intros j b. apply oob_store.
      - right. rewrite bind_Fault. f_equal. exact (oob_load _ _ _ El). }
    assert (Hloop : forall c i out,
               (exists out', for_loop c i (unpack_byte enc) (Some out) = Ok (Some out')) \/
               for_loop c i (unpack_byte enc) (Some out) = Fault OutOfBounds).
    { induction c as [|c IH]; intros i out.
      - left. eexists. reflexivity.
      - cbn [for_loop]. destruct (Hbyte i out) as [[out' ->] | ->].
        + rewrite bind_Ok. apply IH.
        + right. reflexivity. }
    destruct (Hloop (length enc) 0 eb) as [[out' ->] | ->].
    - rewrite bind_Ok. cbn [for_loop].
      destruct (Hbyte (0 + Z.of_nat (length enc)) out') as [[out2 Hb] | ->]; [|reflexivity].
      exfalso. unfold unpack_byte, load in Hb. rewrite decide_True in Hb by lia.
      rewrite Z.add_0_l, Nat2Z.id, lookup_ge_None_2 in Hb by lia. discriminate Hb.
    - reflexivity. }
  rewrite Hun. reflexivity.
Qed.
End DecodeTotal.

(** ** Received words that carry the code bits *)

Lemma stream_bit_take (L : nat) rx (i : nat) :
  (i < 8 * L)%nat -> stream_bit (take L rx) (Z.of_nat i) = stream_bit rx (Z.of_nat i).
Proof.
  intros Hi. unfold stream_bit. rewrite lookup_take_lt; [reflexivity|].
  apply Nat2Z.inj_lt. rewrite Z2Nat.id by (apply Z.div_pos; lia).
  apply Z.div_lt_upper_bound; lia.
Qed.

Lemma code_bits_split (L : nat) rx bits :
  (length bits <= 8 * L)%nat -> (L <= length rx)%nat ->
  (forall (i : nat) b, bits !! i = Some b -> stream_bit rx (Z.of_nat i) = Some b) ->
  message_bits (take L rx) = bits ++ drop (length bits) (message_bits (take L rx)).
Proof.
  intros Hlen HL Hrx.
  rewrite <- (take_drop (length bits) (message_bits (take L rx))) at 1. f_equal.
  apply list_eq. intros i. destruct (decide (i < length bits)%nat) as [Hi | Hi].
  - rewrite lookup_take_lt by exact Hi.
    destruct (lookup_lt_is_Some_2 bits i Hi) as [b Hb]. rewrite Hb.
    rewrite lookup_message_bits, stream_bit_take by lia. apply Hrx. exact Hb.
  - rewrite lookup_take_ge by lia. symmetry. apply lookup_ge_None_2. lia.
Qed.

Section ReceivedWords.
Variables fec_conv27_poly fec_conv29_poly fec_conv39_poly fec_conv615_poly : list Z.
Variables FEC_SOFTBIT_0 FEC_SOFTBIT_1 : Z.
Variable fresh_byte : Z.

Local Abbreviation decode := (fec_conv_decode FEC_SOFTBIT_0 FEC_SOFTBIT_1 fresh_byte).
Local Abbreviation table :=
  (poly_table fec_conv27_poly fec_conv29_poly fec_conv39_poly fec_conv615_poly).
Local Abbreviation is_codec :=
  (codec_of fec_conv27_poly fec_conv29_poly fec_conv39_poly fec_conv615_poly
            FEC_SOFTBIT_0 FEC_SOFTBIT_1).

(** X12 (padding is ignored).  The decoder is run over the
    [R * (8 * n + K - 1)] code bits only: a received buffer that carries the
    code bits of a message decodes to the message whatever its padding bits
    and the bytes after the encoded length are. *)
Theorem fec_conv_decode_ignores_padding (fs : fec_scheme) (q : fec)
    (msg rx dec : list Z) :
  supported fs ->
  poly_table_ok fs (table fs) ->
  taps_oldest_bit fs (table fs) ->
  wrap8 FEC_SOFTBIT_0 <> wrap8 FEC_SOFTBIT_1 ->
  is_codec fs q ->
  decoder_sized q \/ Z.of_nat (length msg) <> num_dec_bytes q ->
  Forall is_byte msg ->
  fits_uint fs (length msg) ->
  (enc_len fs (length msg) <= length rx)%nat ->
  (length msg <= length dec)%nat ->
  (forall (i : nat) b,
     spec_encoded_stream (table fs) (scheme_K fs) msg !! i = Some b ->
     stream_bit rx (Z.of_nat i) = Some b) ->
  exists q' tr,
    decode q (Z.of_nat (length msg)) rx dec = Ok (q', msg ++ drop (length msg) dec, tr).
Proof.
  intros Hs [Hlen Hrange] Htap Hsoft Hq Hsz Hmsg Hfit Hel Hdec Hrx.
  pose proof (supported_params _ Hs) as [HRr HKr].
  pose proof (codec_of_valid _ _ _ _ _ _ fs q Hs Hlen Hq) as Hv.
  pose proof Hq as (Hsch & HR & HK & Hp & _).
  set (L := enc_len fs (length msg)) in *.
  set (bits := spec_encoded_stream (table fs) (scheme_K fs) msg) in *.
  assert (Hbl : (length bits <= 8 * L)%nat).
  { pose proof (padded_stream_length q msg Hv) as Hpl.
    rewrite Hsch, Hp, HK in Hpl. specialize (Hpl Hfit). fold L in Hpl.
    unfold spec_padded_stream in Hpl. fold bits in Hpl. rewrite length_app in Hpl. lia. }
  destruct (decode_run_viterbi fec_conv27_poly fec_conv29_poly fec_conv39_poly
              fec_conv615_poly FEC_SOFTBIT_0 FEC_SOFTBIT_1 fresh_byte
              fs q (length msg) rx dec Hs Hq Hfit Hsz Hel)
    as (q1 & ev1 & Hset & Hq1 & Hsz1 & Hn1 & Heq).
  destruct (viterbi_recovers (scheme_K fs) (table fs) FEC_SOFTBIT_0 FEC_SOFTBIT_1
              ltac:(lia) Hsoft Htap Hrange msg
              (drop (length bits) (message_bits (take L rx)))
              dec (length msg) (8 * Z.of_nat (length msg)) Hmsg eq_refl eq_refl Hdec)
    as (w & Hup & w' & Hcb & Hlw).
  fold bits in Hup. rewrite <- (code_bits_split L rx bits Hbl Hel Hrx) in Hup.
  eexists _, _. rewrite Heq. unfold viterbi_decode, decode_symbols, decoder_reset.
  fold L. rewrite Hup, bind_Ok, Hcb. reflexivity.
Qed.
End ReceivedWords.

(** ** Sessions on one codec object *)

Section SessionFacts.
Variables fec_conv27_poly fec_conv29_poly fec_conv39_poly fec_conv615_poly : list Z.
Variables FEC_SOFTBIT_0 FEC_SOFTBIT_1 : Z.
Variable fresh_byte : Z.

Local Abbreviation create :=
  (fec_conv_create fec_conv27_poly fec_conv29_poly fec_conv39_poly fec_conv615_poly
                   FEC_SOFTBIT_0 FEC_SOFTBIT_1).
Local Abbreviation decode := (fec_conv_decode FEC_SOFTBIT_0 FEC_SOFTBIT_1 fresh_byte).
Local Abbreviation table :=
  (poly_table fec_conv27_poly fec_conv29_poly fec_conv39_poly fec_conv615_poly).
Local Abbreviation is_codec :=
  (codec_of fec_conv27_poly fec_conv29_poly fec_conv39_poly fec_conv615_poly
            FEC_SOFTBIT_0 FEC_SOFTBIT_1).
Local Abbreviation session := (decode_all FEC_SOFTBIT_0 FEC_SOFTBIT_1 fresh_byte).

Lemma decode_all_total fs frames : forall q,
  supported fs -> is_codec fs q ->
  Z.of_nat (length (table fs)) = scheme_R fs ->
  Forall (frame_fits fs) frames ->
  decoder_sized q \/ starts_unlike (num_dec_bytes q) frames ->
  exists q' outs tr,
    session q frames = Ok (q', outs, tr) /\
    Forall2 (fun f out => length out = length f.2) frames outs.
Proof.
  intros q Hs Hq Htab Hfr. revert q Hq.
  induction Hfr as [|[[len enc] dec] frames (Hl & Hfit & Henc & Hdec) Hfr IH];
    intros q Hq Hsz.
  - eexists _, _, _. split; [reflexivity | constructor].
  - assert (Hsz' : decoder_sized q \/ Z.of_nat (Z.to_nat len) <> num_dec_bytes q).
    { destruct Hsz as [Hsz | Hne]; [left; exact Hsz | right].
      cbn in Hne. rewrite Z2Nat.id by exact Hl. exact Hne. }
    destruct (decode_total fec_conv27_poly fec_conv29_poly fec_conv39_poly fec_conv615_poly
                FEC_SOFTBIT_0 FEC_SOFTBIT_1 fresh_byte fs q (Z.to_nat len) enc dec
                Hs Hq Htab Hfit Hsz' Henc Hdec)
      as (q1 & bytes & tr1 & Hd & Hbl & _ & Hq1 & Hsz1 & _).
    rewrite Z2Nat.id in Hd by exact Hl.
    destruct (IH q1 Hq1 (or_introl Hsz1)) as (q2 & outs & tr2 & Hall & Hlens).
    eexists _, _, _. cbn [decode_all]. rewrite Hd, bind_Ok. cbv beta iota.
    rewrite Hall, bind_Ok. cbv beta iota. split; [reflexivity|].
    constructor; [|exact Hlens]. cbn [snd].
    rewrite length_app, length_drop. lia.
Qed.

(** X13 (sessions).  On a codec that [fec_conv_create] has just returned,
    a sequence of decodes with buffers of the right size returns for every
    frame, frames of length 0 included, provided the first frame is not of
    length 0; every output has the size of its output buffer. *)
Theorem fec_conv_decode_session (fs : fec_scheme) (junk : Z) (q : fec)
    (frames : list (Z * list Z * list Z)) :
  create fs junk = Ok q ->
  Z.of_nat (length (table fs)) = scheme_R fs ->
  Forall (frame_fits fs) frames ->
  starts_unlike 0 frames ->
  exists q' outs tr,
    session q frames = Ok (q', outs, tr) /\
    Forall2 (fun f out => length out = length f.2) frames outs.
Proof.
  intros Hc Htab Hfr Hst.
  destruct (create_inv _ _ _ _ _ _ _ _ _ Hc) as (Hs & Hq & Hn & _).
  apply (decode_all_total fs frames q Hs Hq Htab Hfr).
  right. rewrite Hn. exact Hst.
Qed.
End SessionFacts.

(** ** The life of the decoder object *)

Lemma live_decoder_app ev1 : forall live ev2,
  live_decoder live (ev1 ++ ev2) =
  match live_decoder live ev1 with
  | Some live' => live_decoder live' ev2
  | None => None
  end.
Proof.
  induction ev1 as [|e ev1 IH]; intros live ev2; [reflexivity|].
  destruct e; cbn [app live_decoder]; try apply IH; destruct live; try apply IH; reflexivity.
Qed.

Section Lifecycle.
Variables fec_conv27_poly fec_conv29_poly fec_conv39_poly fec_conv615_poly : list Z.
Variables FEC_SOFTBIT_0 FEC_SOFTBIT_1 : Z.
Variable fresh_byte : Z.

Local Abbreviation create :=
  (fec_conv_create fec_conv27_poly fec_conv29_poly fec_conv39_poly fec_conv615_poly
                   FEC_SOFTBIT_0 FEC_SOFTBIT_1).
Local Abbreviation setlength := (fec_conv_setlength fresh_byte).
Local Abbreviation decode := (fec_conv_decode FEC_SOFTBIT_0 FEC_SOFTBIT_1 fresh_byte).
Local Abbreviation is_codec :=
  (codec_of fec_conv27_poly fec_conv29_poly fec_conv39_poly fec_conv615_poly
            FEC_SOFTBIT_0 FEC_SOFTBIT_1).

Lemma setlength_live fs q len q1 ev1 :
  is_codec fs q ->
  setlength q len = Ok (q1, ev1) ->
  is_codec fs q1 /\ live_decoder (has_decoder q) ev1 = Some (has_decoder q1).
Proof.
  intros Hq Hset. pose proof Hq as (Hsch & HR & HK & Hp & Hcr & Hin & Hup & Hcb & Hdel).
  destruct (setlength_inv _ _ _ _ _ Hset) as [(_ & -> & ->) | (_ & -> & ->)].
  - split; [exact Hq | reflexivity].
  - split; [exact Hq|]. unfold has_decoder.
    cbn [vp with_buffers with_lengths create_viterbi]. rewrite Hcr. unfold viterbi_create.
    destruct (vp q); reflexivity.
Qed.

Lemma decode_live fs q len enc dec q' out tr :
  is_codec fs q ->
  decode q len enc dec = Ok (q', out, tr) ->
  is_codec fs q' /\ has_decoder q' = true /\
  live_decoder (has_decoder q) tr = Some true.
Proof.
  intros Hq Hdec. unfold fec_conv_decode in Hdec.
  destruct (setlength q len) as [[q1 ev1] | f] eqn:Hset; [|discriminate Hdec].
  rewrite bind_Ok in Hdec. cbv beta iota in Hdec.
  destruct (setlength_live _ _ _ _ _ Hq Hset) as (Hq1 & Hlive).
  pose proof Hq1 as (Hsch & HR & HK & Hp & Hcr & Hin & Hup & Hcb & Hdel).
  destruct (liquid_unpack_bytes _ _ _ _) as [[bits nw] | f]; [|discriminate Hdec].
  rewrite bind_Ok in Hdec. cbv beta iota in Hdec.
  destruct (for_loop _ 0 _ bits) as [bits' | f]; [|discriminate Hdec].
  rewrite bind_Ok in Hdec.
  destruct (init_viterbi q1 (vp q1) 0) as [v1 | f] eqn:Hi; [|discriminate Hdec].
  rewrite bind_Ok in Hdec.
  destruct (update_viterbi_blk q1 v1 bits' _) as [v2 | f]; [|discriminate Hdec].
  rewrite bind_Ok in Hdec.
  destruct (chainback_viterbi q1 v2 dec _ 0) as [[v3 data] | f] eqn:Hc; [|discriminate Hdec].
  rewrite bind_Ok in Hdec. cbv beta iota in Hdec. injection Hdec as <- <- <-.
  rewrite Hcb in Hc. apply chainback_len in Hc as (w & w' & _ & -> & _).
  assert (Hv1 : has_decoder q1 = true).
  { unfold has_decoder. rewrite Hin in Hi. destruct (vp q1); [reflexivity | discriminate Hi]. }
  split; [exact Hq1|]. split; [reflexivity|].
  rewrite live_decoder_app, Hlive, Hv1. reflexivity.
Qed.

Lemma decode_all_live fs frames : forall q q' outs tr,
  is_codec fs q ->
  decode_all FEC_SOFTBIT_0 FEC_SOFTBIT_1 fresh_byte q frames = Ok (q', outs, tr) ->
  is_codec fs q' /\ live_decoder (has_decoder q) tr = Some (has_decoder q') /\
  length outs = length frames.
Proof.
  induction frames as [|[[len enc] dec] frames IH]; intros q q' outs tr Hq Hall.
  - cbn in Hall. injection Hall as <- <- <-. auto.
  - cbn [decode_all] in Hall.
    destruct (decode q len enc dec) as [[[q1 out] tr1] | f] eqn:Hd; [|discriminate Hall].
    rewrite bind_Ok in Hall. cbv beta iota in Hall.
    destruct (decode_all _ _ _ q1 frames) as [[[q2 outs2] tr2] | f] eqn:Hr;
      [|discriminate Hall].
    rewrite bind_Ok in Hall. cbv beta iota in Hall. injection Hall as <- <- <-.
    destruct (decode_live _ _ _ _ _ _ _ _ Hq Hd) as (Hq1 & Hh1 & Hl1).
    destruct (IH _ _ _ _ Hq1 Hr) as (Hq2 & Hl2 & Hlen).
    split; [exact Hq2|]. split; [|cbn [length]; lia].
    rewrite live_decoder_app, Hl1. rewrite Hh1 in Hl2. exact Hl2.
Qed.

Lemma destroy_live fs q :
  is_codec fs q ->
  exists ev, fec_conv_destroy q = Ok ev /\ live_decoder (has_decoder q) ev = Some false.
Proof.
  intros (_ & _ & _ & _ & _ & _ & _ & _ & Hdel). unfold fec_conv_destroy, has_decoder.
  rewrite Hdel. destruct (vp q); eexists; split; reflexivity.
Qed.

(** X14 (life of the decoder object).  Over the life of a codec, from
    [fec_conv_create] through any sequence of decodes that return to
    [fec_conv_destroy], the calls to [create_viterbi] and [delete_viterbi]
    alternate, starting with a creation and ending with a deletion: no
    decoder is created while another exists, none is deleted twice, and
    none is left when the codec is destroyed. *)
Theorem fec_conv_decoder_lifecycle (fs : fec_scheme) (junk : Z) (q : fec)
    (frames : list (Z * list Z * list Z)) (q' : fec) (outs : list (list Z))
    (tr : list event) :
  create fs junk = Ok q ->
  decode_all FEC_SOFTBIT_0 FEC_SOFTBIT_1 fresh_byte q frames = Ok (q', outs, tr) ->
  exists ev,
    fec_conv_destroy q' = Ok ev /\
    live_decoder false (tr ++ ev) = Some false /\
    length outs = length frames.
Proof.
  intros Hc Hall.
  destruct (create_inv _ _ _ _ _ _ _ _ _ Hc) as (Hs & Hq & _ & _ & _ & Hvp).
  destruct (decode_all_live _ _ _ _ _ _ Hq Hall) as (Hq' & Hl & Hlen).
  destruct (destroy_live _ _ Hq') as (ev & Hd & Hl').
  exists ev. split; [exact Hd|]. split; [|exact Hlen].
  rewrite live_decoder_app. unfold has_decoder in Hl at 1. rewrite Hvp in Hl.
  rewrite Hl. exact Hl'.
Qed.
End Lifecycle.

(** ** Uninitialised memory *)

Section Uninitialised.
Variables fec_conv27_poly fec_conv29_poly fec_conv39_poly fec_conv615_poly : list Z.
Variables FEC_SOFTBIT_0 FEC_SOFTBIT_1 : Z.

Local Abbreviation create :=
  (fec_conv_create fec_conv27_poly fec_conv29_poly fec_conv39_poly fec_conv615_poly
                   FEC_SOFTBIT_0 FEC_SOFTBIT_1).
Local Abbreviation is_codec :=
  (codec_of fec_conv27_poly fec_conv29_poly fec_conv39_poly fec_conv615_poly
            FEC_SOFTBIT_0 FEC_SOFTBIT_1).

(** Two codec objects of a scheme that hold no decoder memory become the
    same object once lengths and buffers are stored in them. *)
Lemma fresh_codec_eq fs qa qb dec enc bits v :
  is_codec fs qa -> is_codec fs qb ->
  with_buffers (with_lengths qa dec enc) bits v =
  with_buffers (with_lengths qb dec enc) bits v.
Proof.
  intros (Ha1 & Ha2 & Ha3 & Ha4 & Ha5 & Ha6 & Ha7 & Ha8 & Ha9)
         (Hb1 & Hb2 & Hb3 & Hb4 & Hb5 & Hb6 & Hb7 & Hb8 & Hb9).
  unfold with_buffers, with_lengths.
  cbn [scheme R K poly num_dec_bytes num_enc_bytes enc_bits vp create_viterbi
       init_viterbi update_viterbi_blk chainback_viterbi delete_viterbi].
  rewrite Ha1, Ha2, Ha3, Ha4, Ha5, Ha6, Ha7, Ha8, Ha9.
  rewrite Hb1, Hb2, Hb3, Hb4, Hb5, Hb6, Hb7, Hb8, Hb9. reflexivity.
Qed.

(** X15 (uninitialised memory).  On a codec that [fec_conv_create] has
    just returned, a decode of a message of at least one byte does not
    depend on what [malloc] left in the codec object or on what [realloc]
    left in the bit buffer: outcome, decoded bytes, calls made and the codec
    left behind are the same whatever those contents are. *)
Theorem fec_conv_decode_initialised (fs : fec_scheme) (junk1 junk2 fresh1 fresh2 : Z)
    (qa qb : fec) (n : nat) (enc dec : list Z) :
  create fs junk1 = Ok qa ->
  create fs junk2 = Ok qb ->
  n <> 0%nat ->
  fits_uint fs n ->
  (enc_len fs n <= length enc)%nat ->
  fec_conv_decode FEC_SOFTBIT_0 FEC_SOFTBIT_1 fresh1 qa (Z.of_nat n) enc dec =
  fec_conv_decode FEC_SOFTBIT_0 FEC_SOFTBIT_1 fresh2 qb (Z.of_nat n) enc dec.
Proof.
  intros Hca Hcb Hn Hfit Henc.
  destruct (create_inv _ _ _ _ _ _ _ _ _ Hca) as (Hs & Hqa & Hna & _ & Hea & Hva).
  destruct (create_inv _ _ _ _ _ _ _ _ _ Hcb) as (_ & Hqb & Hnb & _ & Heb & Hvb).
  assert (Hnea : Z.of_nat n <> num_dec_bytes qa) by (rewrite Hna; lia).
  assert (Hneb : Z.of_nat n <> num_dec_bytes qb) by (rewrite Hnb; lia).
  destruct (decode_run fec_conv27_poly fec_conv29_poly fec_conv39_poly fec_conv615_poly
              FEC_SOFTBIT_0 FEC_SOFTBIT_1 fresh1 fs qa n enc dec Hs Hqa Hfit
              (or_intror Hnea) Henc) as (q1 & ev1 & Hset1 & _ & _ & _ & Hrun1).
  destruct (decode_run fec_conv27_poly fec_conv29_poly fec_conv39_poly fec_conv615_poly
              FEC_SOFTBIT_0 FEC_SOFTBIT_1 fresh2 fs qb n enc dec Hs Hqb Hfit
              (or_intror Hneb) Henc) as (q2 & ev2 & Hset2 & _ & _ & _ & Hrun2).
  rewrite Hrun1, Hrun2.
  destruct (setlength_inv _ _ _ _ _ Hset1) as [(E & _) | (_ & -> & ->)]; [contradiction|].
  destruct (setlength_inv _ _ _ _ _ Hset2) as [(E & _) | (_ & -> & ->)]; [contradiction|].
  rewrite Hva, Hvb.
  pose proof Hqa as (Hsa & _). pose proof Hqb as (Hsb & _). rewrite Hsa, Hsb.
  destruct (viterbi_update_blk _ _ _ _ _ _ _) as [v2 | f]; [|reflexivity].
  rewrite !bind_Ok.
  destruct (viterbi_chainback v2 dec _ 0) as [[v3 data] | f]; [|reflexivity].
  rewrite !bind_Ok. cbv beta iota. f_equal. f_equal. f_equal.
  apply (fresh_codec_eq fs); assumption.
Qed.
End Uninitialised.

(** * Closed examples of the further properties *)

Lemma sample_fits2 : fits_uint FEC_CONV_V27 2.
Proof. unfold fits_uint. vm_compute. reflexivity. Qed.

Lemma sample_taps_newest : taps_newest_bit (poly (sample_codec FEC_CONV_V27)).
Proof. left. reflexivity. Qed.

Lemma fec_conv_encode_short_message_witness :
  exists st,
    encode_data (R (sample_codec FEC_CONV_V27)) (poly (sample_codec FEC_CONV_V27))
      (Z.of_nat (length [165])) [165] (encode_init [0; 0; 0; 0; 0; 0]) = Ok st /\
    load [165] (Z.of_nat (length [165])) = Fault OutOfBounds /\
    fec_conv_encode (sample_codec FEC_CONV_V27) 2 [165] [0; 0; 0; 0; 0; 0] =
      Fault OutOfBounds.
Proof.
  destruct (fec_conv_encode_short_message (sample_codec FEC_CONV_V27) 2 [165]
              [0; 0; 0; 0; 0; 0] sample_codec_valid ltac:(simpl; lia) sample_fits2
              ltac:(vm_compute; lia)) as (st & Hd & _ & Hl & _ & _ & He).
  exists st. auto.
Defined.

Lemma fec_conv_encode_reads_prefix_witness :
  fec_conv_encode (sample_codec FEC_CONV_V27) (Z.of_nat 1) [165; 60] [0; 0; 0; 0] =
  fec_conv_encode (sample_codec FEC_CONV_V27) (Z.of_nat 1) (take 1 [165; 60]) [0; 0; 0; 0].
Proof.
  apply (fec_conv_encode_reads_prefix (sample_codec FEC_CONV_V27) 1 [165; 60]). simpl. lia.
Defined.

Lemma fec_conv_encode_zero_message_witness :
  fec_conv_encode (sample_codec FEC_CONV_V27) (Z.of_nat 2) (replicate 2 0)
    [1; 2; 3; 4; 5; 6; 9] =
  Ok (replicate (enc_len (scheme (sample_codec FEC_CONV_V27)) 2) 0 ++
      drop (enc_len (scheme (sample_codec FEC_CONV_V27)) 2) [1; 2; 3; 4; 5; 6; 9]).
Proof.
  apply (fec_conv_encode_zero_message (sample_codec FEC_CONV_V27) 2 [1; 2; 3; 4; 5; 6; 9]).
  - exact sample_codec_valid.
  - exact sample_fits2.
  - vm_compute. lia.
Defined.

Lemma fec_conv_encode_linear_witness :
  exists ea eb,
    fec_conv_encode (sample_codec FEC_CONV_V27) (Z.of_nat (length [165])) [165] [0; 0; 0; 0]
      = Ok (ea ++ drop (enc_len (scheme (sample_codec FEC_CONV_V27)) (length [165]))
                    [0; 0; 0; 0]) /\
    fec_conv_encode (sample_codec FEC_CONV_V27) (Z.of_nat (length [165])) [60] [0; 0; 0; 0]
      = Ok (eb ++ drop (enc_len (scheme (sample_codec FEC_CONV_V27)) (length [165]))
                    [0; 0; 0; 0]) /\
    fec_conv_encode (sample_codec FEC_CONV_V27) (Z.of_nat (length [165]))
      (xor_bytes [165] [60]) [0; 0; 0; 0]
      = Ok (xor_bytes ea eb ++
            drop (enc_len (scheme (sample_codec FEC_CONV_V27)) (length [165])) [0; 0; 0; 0]).
Proof.
  destruct (fec_conv_encode_linear (sample_codec FEC_CONV_V27) [165] [60] [0; 0; 0; 0]
              sample_codec_valid eq_refl sample_fits ltac:(vm_compute; lia))
    as (ea & eb & _ & _ & Ha & Hb & Hx).
  exists ea, eb. auto.
Defined.

Lemma fec_conv_encode_causal_witness :
  exists ea eab,
    fec_conv_encode (sample_codec FEC_CONV_V27) (Z.of_nat (length [165])) [165]
      [0; 0; 0; 0; 0; 0] = Ok ea /\
    fec_conv_encode (sample_codec FEC_CONV_V27) (Z.of_nat (length ([165] ++ [60])))
      ([165] ++ [60]) [0; 0; 0; 0; 0; 0] = Ok eab /\
    take (Z.to_nat (R (sample_codec FEC_CONV_V27)) * length [165]) eab =
    take (Z.to_nat (R (sample_codec FEC_CONV_V27)) * length [165]) ea.
Proof.
  apply (fec_conv_encode_causal (sample_codec FEC_CONV_V27) [165] [60] [0; 0; 0; 0; 0; 0]).
  - exact sample_codec_valid.
  - exact sample_fits2.
  - vm_compute. lia.
Defined.

Lemma fec_conv_encode_injective_witness :
  fec_conv_encode (sample_codec FEC_CONV_V27) (Z.of_nat (length [165])) [165]
    [0; 0; 0; 0; 9] = Ok [210; 234; 119; 176; 9] /\
  fec_conv_encode (sample_codec FEC_CONV_V27) (Z.of_nat (length [165])) [165]
    [1; 1; 1; 1; 7] = Ok [210; 234; 119; 176; 7] /\
  [165] = [165].
Proof.
  assert (E1 : fec_conv_encode (sample_codec FEC_CONV_V27) (Z.of_nat (length [165])) [165]
                 [0; 0; 0; 0; 9] = Ok [210; 234; 119; 176; 9]) by (vm_compute; reflexivity).
  assert (E2 : fec_conv_encode (sample_codec FEC_CONV_V27) (Z.of_nat (length [165])) [165]
                 [1; 1; 1; 1; 7] = Ok [210; 234; 119; 176; 7]) by (vm_compute; reflexivity).
  split; [exact E1|]. split; [exact E2|].
  apply (fec_conv_encode_injective (sample_codec FEC_CONV_V27) [165] [165]
           [0; 0; 0; 0; 9] [1; 1; 1; 1; 7] [210; 234; 119; 176; 9] [210; 234; 119; 176; 7] 4
           sample_codec_valid sample_taps_newest).
  - repeat constructor; unfold is_byte; lia.
  - repeat constructor; unfold is_byte; lia.
  - reflexivity.
  - exact sample_fits.
  - vm_compute. lia.
  - vm_compute. lia.
  - exact E1.
  - exact E2.
  - vm_compute. lia.
  - reflexivity.
Defined.

Lemma sample_frames_fit :
  Forall (frame_fits FEC_CONV_V27)
    sample_frames.
Proof.
  unfold sample_frames.
  repeat constructor; unfold fits_uint; vm_compute; try reflexivity; try discriminate.
Qed.

Lemma sample_frames_start : starts_unlike 0 sample_frames.
Proof. vm_compute. discriminate. Qed.

Lemma sample_frames_unlike :
  starts_unlike (num_dec_bytes (sample_codec FEC_CONV_V27)) sample_frames.
Proof. vm_compute. discriminate. Qed.

Lemma sample_created : sample_create FEC_CONV_V27 0 = Ok (sample_codec FEC_CONV_V27).
Proof. reflexivity. Qed.

Lemma fec_conv_decode_total_witness :
  exists q' bytes tr,
    fec_conv_decode 0 255 0 (sample_codec FEC_CONV_V27) (Z.of_nat 1) [255; 0; 255; 0] [0; 5]
      = Ok (q', bytes ++ drop 1 [0; 5], tr) /\
    length bytes = 1%nat.
Proof.
  assert (Hne : Z.of_nat 1 <> num_dec_bytes (sample_codec FEC_CONV_V27))
    by (vm_compute; discriminate).
  destruct (fec_conv_decode_total sample_poly27 sample_poly29 sample_poly39 sample_poly615
              0 255 0 FEC_CONV_V27 (sample_codec FEC_CONV_V27) 1 [255; 0; 255; 0] [0; 5]
              I sample_codec_of eq_refl sample_fits (or_intror Hne)
              ltac:(vm_compute; lia) ltac:(simpl; lia))
    as (q' & bytes & tr & Hd & Hl & _).
  exists q', bytes, tr. split; [exact Hd | exact Hl].
Defined.

Lemma fec_conv_decode_session_witness :
  exists q' outs tr,
    decode_all 0 255 0 (sample_codec FEC_CONV_V27)
      sample_frames
    = Ok (q', outs, tr) /\
    length outs = 3%nat.
Proof.
  destruct (fec_conv_decode_session sample_poly27 sample_poly29 sample_poly39 sample_poly615
              0 255 0 FEC_CONV_V27 0 (sample_codec FEC_CONV_V27) sample_frames
              sample_created eq_refl sample_frames_fit sample_frames_start)
    as (q' & outs & tr & Hs & Hl).
  exists q', outs, tr. split; [exact Hs|].
  apply Forall2_length in Hl. symmetry. exact Hl.
Defined.

Lemma fec_conv_create_encodes_witness :
  fec_conv_encode (sample_codec FEC_CONV_V27) (Z.of_nat (length [165])) [165] [0; 0; 0; 0; 9] =
  Ok (pack_msb (enc_len FEC_CONV_V27 (length [165]))
        (spec_padded_stream
           (poly_table sample_poly27 sample_poly29 sample_poly39 sample_poly615 FEC_CONV_V27)
           (scheme_K FEC_CONV_V27) [165])
      ++ drop (enc_len FEC_CONV_V27 (length [165])) [0; 0; 0; 0; 9]).
Proof.
  apply (fec_conv_create_encodes sample_poly27 sample_poly29 sample_poly39 sample_poly615
           0 255 FEC_CONV_V27 0 (sample_codec FEC_CONV_V27) [165] [0; 0; 0; 0; 9]).
  - exact sample_created.
  - reflexivity.
  - exact sample_fits.
  - vm_compute. lia.
Defined.

Lemma fec_conv_encode_short_output_witness :
  fec_conv_encode (sample_codec FEC_CONV_V27) (Z.of_nat (length [165])) [165] [0; 0; 0] =
  Fault OutOfBounds.
Proof.
  apply (fec_conv_encode_short_output (sample_codec FEC_CONV_V27) [165] [0; 0; 0]).
  - exact sample_codec_valid.
  - exact sample_fits.
  - vm_compute. lia.
Defined.

Lemma sample_code_bits (i : nat) (b : Z) :
  spec_encoded_stream
    (poly_table sample_poly27 sample_poly29 sample_poly39 sample_poly615 FEC_CONV_V27)
    (scheme_K FEC_CONV_V27) [165] !! i = Some b ->
  stream_bit [210; 234; 119; 191; 99] (Z.of_nat i) = Some b.
Proof.
  intros H.
  vm_compute in H.
  do 28 (destruct i as [|i]; [injection H as <-; vm_compute; reflexivity|]).
  discriminate H.
Qed.

Lemma fec_conv_decode_ignores_padding_witness :
  exists q' tr,
    fec_conv_decode 0 255 0 (sample_codec FEC_CONV_V27) (Z.of_nat (length [165]))
      [210; 234; 119; 191; 99] [0] = Ok (q', [165] ++ drop (length [165]) [0], tr).
Proof.
  assert (Hne : Z.of_nat (length [165]) <> num_dec_bytes (sample_codec FEC_CONV_V27))
    by (vm_compute; discriminate).
  apply (fec_conv_decode_ignores_padding sample_poly27 sample_poly29 sample_poly39
           sample_poly615 0 255 0 FEC_CONV_V27 (sample_codec FEC_CONV_V27) [165]
           [210; 234; 119; 191; 99] [0]
           I sample_table_ok sample_table_taps sample_softbits sample_codec_of
           (or_intror Hne)).
  - repeat constructor; unfold is_byte; lia.
  - exact sample_fits.
  - vm_compute. lia.
  - simpl. lia.
  - exact sample_code_bits.
Defined.

Lemma fec_conv_decode_short_input_witness :
  fec_conv_decode 0 255 0 (sample_codec FEC_CONV_V27) (Z.of_nat 1) [210; 234; 119] [0] =
  Fault OutOfBounds.
Proof.
  assert (Hne : Z.of_nat 1 <> num_dec_bytes (sample_codec FEC_CONV_V27))
    by (vm_compute; discriminate).
  apply (fec_conv_decode_short_input sample_poly27 sample_poly29 sample_poly39
           sample_poly615 0 255 0 FEC_CONV_V27 (sample_codec FEC_CONV_V27) 1
           [210; 234; 119] [0] I sample_codec_of sample_fits (or_intror Hne)).
  vm_compute. lia.
Defined.

Lemma fec_conv_decoder_lifecycle_witness :
  exists q' outs tr ev,
    decode_all 0 255 0 (sample_codec FEC_CONV_V27)
      sample_frames
    = Ok (q', outs, tr) /\
    fec_conv_destroy q' = Ok ev /\
    live_decoder false (tr ++ ev) = Some false.
Proof.
  destruct (decode_all_total sample_poly27 sample_poly29 sample_poly39 sample_poly615
              0 255 0 FEC_CONV_V27 sample_frames (sample_codec FEC_CONV_V27)
              I sample_codec_of eq_refl sample_frames_fit
              (or_intror sample_frames_unlike))
    as (q' & outs & tr & Hall & _).
  destruct (fec_conv_decoder_lifecycle sample_poly27 sample_poly29 sample_poly39
              sample_poly615 0 255 0 FEC_CONV_V27 0 (sample_codec FEC_CONV_V27)
              sample_frames q' outs tr
              sample_created Hall) as (ev & Hd & Hl & _).
  exists q', outs, tr, ev. auto.
Defined.

Lemma sample_created_junk :
  sample_create FEC_CONV_V27 1 = Ok (with_lengths (sample_codec FEC_CONV_V27) 0 1).
Proof. reflexivity. Qed.

Lemma fec_conv_decode_initialised_witness :
  fec_conv_decode 0 255 0 (with_lengths (sample_codec FEC_CONV_V27) 0 1) (Z.of_nat 1)
    [255; 0; 255; 0] [0] =
  fec_conv_decode 0 255 77 (sample_codec FEC_CONV_V27) (Z.of_nat 1) [255; 0; 255; 0] [0].
Proof.
  apply (fec_conv_decode_initialised sample_poly27 sample_poly29 sample_poly39 sample_poly615
           0 255 FEC_CONV_V27 1 0 0 77 _ _ 1 [255; 0; 255; 0] [0]
           sample_created_junk eq_refl).
  - lia.
  - exact sample_fits.
  - vm_compute. lia.
Defined.
